(** * Time-stepping schemes of [porepy.numerics.pde_solver]

    A shallow embedding of the solver classes [AbstractSolver], [Implicit],
    [BDF2], [Explicit] and [CrankNicolson], followed by the properties of
    the stepping loop and of the per-step assembly formulas.

    Modelling conventions.
    - Python floats are read as exact rationals ([Q]); the literals
      [1e-14], [1e-6], [0.5], [2./3], [4./3], [1./3] are the rationals
      they denote.  Rounding is outside the model.  It matters at one
      place, the bound of a stepping loop: from [T = 128] on, the sum
      [T + 1e-14] rounds to [T] in binary64, and a loop can end one
      iteration early.  The loop variable alone is therefore replayed in
      binary64 ([Binary64]), and what is stated about the number of
      iterations and about the time at which a loop ends is stated in a
      form that holds whichever way the bound rounds.
    - Sparse matrices and arrays, and the operations of numpy and scipy
      on them, are an interface ([LinAlg]); one concrete instance (systems
      with one degree of freedom over [Qc]) is given.
    - A solver instance is a finite map from attribute names to values;
      reading an attribute that has not been assigned raises
      [AttributeError], as in Python.
    - The problem descriptor, the discretization terms and the mutable
      parameter store they share are collaborators ([Collaborators]); their
      mutable state is the [heap] component of the machine state.
    - Methods are computations in a state-and-exception monad.  The machine
      state carries a [log] of method calls; the log is ghost state, only
      written, never read by the code. *)

From Stdlib Require Import QArith Qcanon Qround List Bool Arith Lia Lqa ZArith.
From Stdlib Require PrimFloat.
Import ListNotations.

Set Implicit Arguments.

Open Scope Q_scope.

(** ** Exceptions and results *)

Inductive exn : Type :=
| NotImplementedError
| AttributeError
| IndexError
| ValueError.

(** [OutOfFuel] is not a Python exception: it marks a [while] loop that
    was given too few iterations to finish. *)
Inductive result (A : Type) : Type :=
| Ok (a : A)
| Raise (e : exn)
| OutOfFuel.

Arguments Ok {A} a.
Arguments Raise {A} e.
Arguments OutOfFuel {A}.

Definition is_Ok {A} (r : result A) : bool :=
  match r with Ok _ => true | _ => false end.

(** ** Numeric interface (numpy arrays and scipy sparse matrices) *)

Class LinAlg : Type := {
  Matrix : Type;
  Vector : Type;
  madd : Matrix -> Matrix -> Matrix;      (* A + B *)
  msub : Matrix -> Matrix -> Matrix;      (* A - B *)
  mscale : Q -> Matrix -> Matrix;         (* c * A *)
  mulv : Matrix -> Vector -> Vector;      (* A * x, sparse matrix times array *)
  vadd : Vector -> Vector -> Vector;      (* x + y *)
  vsub : Vector -> Vector -> Vector;      (* x - y *)
  vscale : Q -> Vector -> Vector;         (* c * x *)
  spsolve : Matrix -> Vector -> Vector    (* sps.linalg.spsolve(A, b) *)
}.

(** The algebraic facts used about the interface: zero is neutral, vector
    addition is commutative and associative, and the direct solver is exact
    on an invertible matrix. *)
Class LinAlgLaws (LA : LinAlg) : Type := {
  mzero : Matrix;
  vzero : Vector;
  invertible : Matrix -> Prop;
  madd_0_r : forall A, madd A mzero = A;
  msub_0_r : forall A, msub A mzero = A;
  mscale_0_r : forall c, mscale c mzero = mzero;
  vadd_0_r : forall x, vadd x vzero = x;
  vscale_0_r : forall c, vscale c vzero = vzero;
  vadd_comm : forall x y, vadd x y = vadd y x;
  vadd_assoc : forall x y z, vadd x (vadd y z) = vadd (vadd x y) z;
  spsolve_exact : forall A x, invertible A -> spsolve A (mulv A x) = x
}.

(** ** Values held by a solver instance *)

(** [self.g]: a single grid or a [GridBucket]; the payload identifies the
    object, its contents live in the heap. *)
Inductive Grid : Type :=
| SingleGrid (id : nat)
| GridBucket (id : nat).

Definition isinstance_GridBucket (g : Grid) : bool :=
  match g with GridBucket _ => true | SingleGrid _ => false end.

(** [self.parameters]: the dict [{'store_results': .., 'verbose': ..}]. *)
Record Parameters : Type := {
  store_results : bool;
  verbose : bool
}.

(** A value that is either the Python list [[]] or an array. *)
Inductive pyval (A : Type) : Type :=
| EmptyList
| Arr (a : A).

Arguments EmptyList {A}.
Arguments Arr {A} a.

(** ** State-and-exception monad *)

Definition M (S A : Type) : Type := S -> result (A * S).

Definition ret {S A} (a : A) : M S A := fun st => Ok (a, st).

Definition bind {S A B} (m : M S A) (k : A -> M S B) : M S B :=
  fun st =>
    match m st with
    | Ok (a, st') => k a st'
    | Raise e => Raise e
    | OutOfFuel => OutOfFuel
    end.

Definition raise {S A} (e : exn) : M S A := fun _ => Raise e.

Definition out_of_fuel {S A} : M S A := fun _ => OutOfFuel.

Declare Scope monad_scope.
Delimit Scope monad_scope with monad.

Notation "x <- c1 ;; c2" := (bind c1 (fun x => c2))
  (at level 61, c1 at next level, right associativity) : monad_scope.
Notation "' pat <- c1 ;; c2" := (bind c1 (fun x => match x with pat => c2 end))
  (at level 61, pat pattern, c1 at next level, right associativity) : monad_scope.
Notation "c1 ;; c2" := (bind c1 (fun _ => c2))
  (at level 61, right associativity) : monad_scope.

Open Scope monad_scope.

(** [while cond(t): t = body(t)], with [t] the loop variable; one unit of
    fuel is used per iteration, and the loop returns the value of [t] at
    exit. *)
Fixpoint while_ {S T} (cond : T -> M S bool) (body : T -> M S T)
    (fuel : nat) (t : T) : M S T :=
  c <- cond t ;;
  if c then
    match fuel with
    | O => out_of_fuel
    | S fuel' => t' <- body t ;; while_ cond body fuel' t'
    end
  else ret t.

(** ** Attribute names of a solver instance *)

Inductive attr : Type :=
| self_problem | self_g | self_data | self_dt | self_T
| self_space_disc | self_time_disc | self_p0 | self_p
| self_lhs | self_rhs | self_parameters
| self_flag_first | self_p_1
| self_lhs_flux | self_rhs_flux | self_lhs_time | self_rhs_time
| self_lhs_flux_0 | self_rhs_flux_0 | self_lhs_time_0 | self_rhs_time_0.

Definition attr_eq_dec (a b : attr) : {a = b} + {a <> b}.
Proof. decide equality. Defined.

(** The five classes of the module; the tag decides method dispatch.  The
    tag [AbstractSolver] also stands for a subclass that overrides
    nothing. *)
Inductive scheme : Type :=
| AbstractSolver | Implicit | BDF2 | Explicit | CrankNicolson.

(** ** Literals *)

Definition eps_loop : Q := 1 # 100000000000000.   (* 1e-14 *)
Definition eps_first : Q := 1 # 1000000.          (* 1e-6 *)

Definition Qlt_bool (x y : Q) : bool := negb (Qle_bool y x).

Section Model.

Context {LA : LinAlg}.

(** [self.data]: the two entries of the data store that the solver owns,
    [data[problem.physics]] and [data['times']] (two distinct keys).  The
    other entries of the store belong to the collaborators and are part of
    the heap. *)
Record Data : Type := {
  physics : list Vector;
  times : list Q
}.

(** ** Collaborators *)

(** [Env] is the mutable state of the collaborators (grid contents,
    parameter entries of the data store, the problem object); [Disc] is a
    discretization term and [matrix_rhs d g data] its method, called as
    [d.matrix_rhs(g)] ([data = None]) or [d.matrix_rhs(g, data)]; it
    returns a fresh (matrix, vector) pair and may write to the heap. *)
Class Collaborators : Type := {
  Env : Type;
  Disc : Type;
  matrix_rhs : Disc -> Grid -> option Data -> Env -> (Matrix * Vector) * Env
}.

Context {CO : Collaborators}.

(** What [problem.space_disc()] and [problem.time_disc()] return: one term
    or a tuple of terms. *)
Inductive Discs : Type :=
| OneDisc (d : Disc)
| TupleOf (ds : list Disc).

(** The problem descriptor.  [problem.data()] returns the shared store,
    whose solver-owned entries are reset by the constructor; the hook
    [problem.update(t)] acts on the heap. *)
Record Problem : Type := {
  problem_grid : Grid;
  problem_space_disc : Discs;
  problem_time_disc : Discs;
  problem_time_step : Q;
  problem_end_time : Q;
  problem_initial_condition : Vector;
  problem_update : Q -> Env -> Env
}.

Definition attr_ty (a : attr) : Type :=
  match a with
  | self_problem => Problem
  | self_g => Grid
  | self_data => Data
  | self_dt | self_T => Q
  | self_space_disc | self_time_disc => Discs
  | self_p0 | self_p | self_p_1 => Vector
  | self_lhs => pyval Matrix
  | self_rhs => pyval Vector
  | self_parameters => Parameters
  | self_flag_first => bool
  | self_lhs_flux | self_lhs_time | self_lhs_flux_0 | self_lhs_time_0 => Matrix
  | self_rhs_flux | self_rhs_time | self_rhs_flux_0 | self_rhs_time_0 => Vector
  end.

(** An instance: its attribute dictionary. *)
Definition Obj : Type := forall a : attr, option (attr_ty a).

Definition new_obj : Obj := fun _ => None.

Definition obj_set (a : attr) (v : attr_ty a) (o : Obj) : Obj :=
  fun b =>
    match attr_eq_dec a b with
    | left e => Some (eq_rect a attr_ty v b e)
    | right _ => o b
    end.

(** ** Ghost log of method calls *)

Inductive event : Type :=
| Update_enter (t : Q) (o : Obj)   (* update(t) called, instance as it was *)
| Update_exit (t : Q) (o : Obj)    (* update(t) returned, instance as it is *)
| Stepped (p : Vector).            (* step() stored and returned p *)

(** ** Machine state *)

(** [log] is in reverse order: the newest event first. *)
Record St : Type := {
  heap : Env;
  self : Obj;
  log : list event
}.

Definition getattr (a : attr) : M St (attr_ty a) :=
  fun st =>
    match self st a with
    | Some v => Ok (v, st)
    | None => Raise AttributeError
    end.

Definition setattr (a : attr) (v : attr_ty a) : M St unit :=
  fun st => Ok (tt, {| heap := heap st; self := obj_set a v (self st); log := log st |}).

Definition log_event (e : event) : M St unit :=
  fun st => Ok (tt, {| heap := heap st; self := self st; log := e :: log st |}).

Definition snapshot : M St Obj := fun st => Ok (self st, st).

(** A call into a collaborator that reads and writes the heap. *)
Definition on_heap {A} (f : Env -> A * Env) : M St A :=
  fun st => let (a, h) := f (heap st) in
            Ok (a, {| heap := h; self := self st; log := log st |}).

(** ** [AbstractSolver] *)

(** [AbstractSolver.__init__(self, problem)]. *)
Definition AbstractSolver___init__ (problem : Problem) : M St unit :=
  let g := problem_grid problem in
  (* data = problem.data(); data[problem.physics] = []; data['times'] = [] *)
  let data := {| physics := []; times := [] |} in
  let p0 := problem_initial_condition problem in
  let p := p0 in
  setattr self_problem problem ;;
  setattr self_g g ;;
  setattr self_data data ;;
  setattr self_dt (problem_time_step problem) ;;
  setattr self_T (problem_end_time problem) ;;
  setattr self_space_disc (problem_space_disc problem) ;;
  setattr self_time_disc (problem_time_disc problem) ;;
  setattr self_p0 p0 ;;
  setattr self_p p ;;
  setattr self_lhs EmptyList ;;
  setattr self_rhs EmptyList ;;
  setattr self_parameters {| store_results := false; verbose := false |}.

(** [AbstractSolver.step(self)]; [spsolve] rejects the placeholder [[]]. *)
Definition step : M St Vector :=
  lhs <- getattr self_lhs ;;
  rhs <- getattr self_rhs ;;
  match lhs, rhs with
  | Arr A, Arr b =>
      setattr self_p (spsolve A b) ;;
      p <- getattr self_p ;;
      log_event (Stepped p) ;;
      ret p
  | _, _ => raise ValueError
  end.

(** [AbstractSolver.update(self, t)]. *)
Definition AbstractSolver_update (t : Q) : M St unit :=
  problem <- getattr self_problem ;;
  on_heap (fun h => (tt, problem_update problem t h)) ;;
  p <- getattr self_p ;;
  setattr self_p0 p ;;
  parameters <- getattr self_parameters ;;
  if store_results parameters then
    data <- getattr self_data ;;
    p <- getattr self_p ;;
    setattr self_data {| physics := physics data ++ [p]; times := times data |} ;;
    data <- getattr self_data ;;
    dt <- getattr self_dt ;;
    setattr self_data {| physics := physics data; times := times data ++ [t - dt] |}
  else ret tt.

(** [AbstractSolver.reassemble(self)]. *)
Definition AbstractSolver_reassemble : M St unit :=
  raise NotImplementedError.

(** [if not isinstance(discs, tuple): discs = [discs]]: the terms of a
    handle as a sequence. *)
Definition terms_of (discs : Discs) : list Disc :=
  match discs with TupleOf ds => ds | OneDisc d => [d] end.

(** The call of one term: [disc.matrix_rhs(self.g, self.data)] in the
    single-grid branch ([with_data]), [disc.matrix_rhs(self.g)] in the
    [GridBucket] branch. *)
Definition matrix_rhs_call (with_data : bool) (disc : Disc)
    : M St (Matrix * Vector) :=
  g <- getattr self_g ;;
  if with_data then
    data <- getattr self_data ;;
    on_heap (matrix_rhs disc g (Some data))
  else
    on_heap (matrix_rhs disc g None).

(** The loop [for disc in discs[1:]: ...; lhs += lhs_n; rhs += rhs_n] of
    either branch. *)
Fixpoint _discretize_rest (with_data : bool) (discs : list Disc)
    (acc : Matrix * Vector) : M St (Matrix * Vector) :=
  match discs with
  | [] => ret acc
  | disc :: discs' =>
      '(lhs_n, rhs_n) <- matrix_rhs_call with_data disc ;;
      let (lhs, rhs) := acc in
      _discretize_rest with_data discs' (madd lhs lhs_n, vadd rhs rhs_n)
  end.

(** [AbstractSolver._discretize(self, discs)]. *)
Definition _discretize (discs : Discs) : M St (Matrix * Vector) :=
  g <- getattr self_g ;;
  if isinstance_GridBucket g then
    match terms_of discs with
    | [] => raise IndexError                       (* discs[0] *)
    | disc0 :: rest =>
        acc <- matrix_rhs_call false disc0 ;;
        _discretize_rest false rest acc
    end
  else
    match terms_of discs with
    | [] => raise IndexError                       (* discs[0] *)
    | disc0 :: rest =>
        acc <- matrix_rhs_call true disc0 ;;
        _discretize_rest true rest acc
    end.

(** ** [Implicit] *)

Definition Implicit___init__ (problem : Problem) : M St unit :=
  AbstractSolver___init__ problem.

Definition Implicit_reassemble : M St unit :=
  space_disc <- getattr self_space_disc ;;
  '(lhs_flux, rhs_flux) <- _discretize space_disc ;;
  time_disc <- getattr self_time_disc ;;
  '(lhs_time, rhs_time) <- _discretize time_disc ;;
  setattr self_lhs (Arr (madd lhs_time lhs_flux)) ;;
  p0 <- getattr self_p0 ;;
  setattr self_rhs (Arr (vadd (vadd (mulv lhs_time p0) rhs_flux) rhs_time)).

(** ** [BDF2] *)

Definition BDF2___init__ (problem : Problem) : M St unit :=
  setattr self_flag_first true ;;
  AbstractSolver___init__ problem ;;
  p0 <- getattr self_p0 ;;
  setattr self_p_1 p0.

Definition BDF2_update (t : Q) : M St unit :=
  dt <- getattr self_dt ;;
  (if Qlt_bool (dt + eps_first) t        (* t > self.dt + 1e-6 *)
   then setattr self_flag_first false
   else setattr self_flag_first true) ;;
  p0 <- getattr self_p0 ;;
  setattr self_p_1 p0 ;;
  AbstractSolver_update t.

Definition BDF2_reassemble : M St unit :=
  space_disc <- getattr self_space_disc ;;
  '(lhs_flux, rhs_flux) <- _discretize space_disc ;;
  time_disc <- getattr self_time_disc ;;
  '(lhs_time, rhs_time) <- _discretize time_disc ;;
  flag_first <- getattr self_flag_first ;;
  if flag_first then
    setattr self_lhs (Arr (madd lhs_time lhs_flux)) ;;
    p0 <- getattr self_p0 ;;
    setattr self_rhs (Arr (vadd (vadd (mulv lhs_time p0) rhs_flux) rhs_time))
  else
    setattr self_lhs (Arr (madd lhs_time (mscale (2 # 3) lhs_flux))) ;;
    p0 <- getattr self_p0 ;;
    p_1 <- getattr self_p_1 ;;
    let bdf2_rhs := vsub (mulv (mscale (4 # 3) lhs_time) p0)
                         (mulv (mscale (1 # 3) lhs_time) p_1) in
    setattr self_rhs (Arr (vadd (vadd bdf2_rhs (vscale (2 # 3) rhs_flux)) rhs_time)).

(** ** [Explicit] *)

Definition Explicit___init__ (problem : Problem) : M St unit :=
  AbstractSolver___init__ problem.

Definition Explicit_reassemble : M St unit :=
  space_disc <- getattr self_space_disc ;;
  '(lhs_flux, rhs_flux) <- _discretize space_disc ;;
  time_disc <- getattr self_time_disc ;;
  '(lhs_time, rhs_time) <- _discretize time_disc ;;
  setattr self_lhs (Arr lhs_time) ;;
  p0 <- getattr self_p0 ;;
  setattr self_rhs
    (Arr (vadd (vadd (mulv (msub lhs_time lhs_flux) p0) rhs_flux) rhs_time)).

(** ** [CrankNicolson] *)

Definition CrankNicolson___init__ (problem : Problem) : M St unit :=
  setattr self_g (problem_grid problem) ;;
  '(lhs_flux, rhs_flux) <- _discretize (problem_space_disc problem) ;;
  setattr self_lhs_flux lhs_flux ;;
  setattr self_rhs_flux rhs_flux ;;
  '(lhs_time, rhs_time) <- _discretize (problem_time_disc problem) ;;
  setattr self_lhs_time lhs_time ;;
  setattr self_rhs_time rhs_time ;;
  lhs_flux <- getattr self_lhs_flux ;; setattr self_lhs_flux_0 lhs_flux ;;
  rhs_flux <- getattr self_rhs_flux ;; setattr self_rhs_flux_0 rhs_flux ;;
  lhs_time <- getattr self_lhs_time ;; setattr self_lhs_time_0 lhs_time ;;
  rhs_time <- getattr self_rhs_time ;; setattr self_rhs_time_0 rhs_time ;;
  AbstractSolver___init__ problem.

Definition CrankNicolson_update (t : Q) : M St unit :=
  AbstractSolver_update t ;;
  lhs_flux <- getattr self_lhs_flux ;; setattr self_lhs_flux_0 lhs_flux ;;
  rhs_flux <- getattr self_rhs_flux ;; setattr self_rhs_flux_0 rhs_flux ;;
  lhs_time <- getattr self_lhs_time ;; setattr self_lhs_time_0 lhs_time ;;
  rhs_time <- getattr self_rhs_time ;; setattr self_rhs_time_0 rhs_time.

Definition CrankNicolson_reassemble : M St unit :=
  space_disc <- getattr self_space_disc ;;
  '(lhs_flux, rhs_flux) <- _discretize space_disc ;;
  setattr self_lhs_flux lhs_flux ;;
  setattr self_rhs_flux rhs_flux ;;
  time_disc <- getattr self_time_disc ;;
  '(lhs_time, rhs_time) <- _discretize time_disc ;;
  setattr self_lhs_time lhs_time ;;
  setattr self_rhs_time rhs_time ;;
  rhs_flux <- getattr self_rhs_flux ;;
  rhs_time <- getattr self_rhs_time ;;
  let rhs1 := vscale (1 # 2) (vadd rhs_flux rhs_time) in
  rhs_flux_0 <- getattr self_rhs_flux_0 ;;
  rhs_time_0 <- getattr self_rhs_time_0 ;;
  let rhs0 := vscale (1 # 2) (vadd rhs_flux_0 rhs_time_0) in
  lhs_time <- getattr self_lhs_time ;;
  lhs_flux <- getattr self_lhs_flux ;;
  setattr self_lhs (Arr (madd lhs_time (mscale (1 # 2) lhs_flux))) ;;
  lhs_time <- getattr self_lhs_time ;;
  lhs_flux_0 <- getattr self_lhs_flux_0 ;;
  p0 <- getattr self_p0 ;;
  setattr self_rhs
    (Arr (vadd (vadd (mulv (msub lhs_time (mscale (1 # 2) lhs_flux_0)) p0) rhs1)
               rhs0)).

(** ** Method dispatch *)

(** [cls(problem)]. *)
Definition __init__ (cls : scheme) (problem : Problem) : M St unit :=
  match cls with
  | AbstractSolver => AbstractSolver___init__ problem
  | Implicit => Implicit___init__ problem
  | BDF2 => BDF2___init__ problem
  | Explicit => Explicit___init__ problem
  | CrankNicolson => CrankNicolson___init__ problem
  end.

Definition update_of (cls : scheme) (t : Q) : M St unit :=
  match cls with
  | BDF2 => BDF2_update t
  | CrankNicolson => CrankNicolson_update t
  | AbstractSolver | Implicit | Explicit => AbstractSolver_update t
  end.

(** [self.update(t)], with the call recorded in the ghost log. *)
Definition update (cls : scheme) (t : Q) : M St unit :=
  o <- snapshot ;;
  log_event (Update_enter t o) ;;
  update_of cls t ;;
  o' <- snapshot ;;
  log_event (Update_exit t o').

(** [self.reassemble()]. *)
Definition reassemble (cls : scheme) : M St unit :=
  match cls with
  | AbstractSolver => AbstractSolver_reassemble
  | Implicit => Implicit_reassemble
  | BDF2 => BDF2_reassemble
  | Explicit => Explicit_reassemble
  | CrankNicolson => CrankNicolson_reassemble
  end.

(** ** The stepping loops *)

(** The body shared by the two [while] loops; the [verbose] branch only
    prints. *)
Definition iteration (cls : scheme) (t : Q) : M St Vector :=
  parameters <- getattr self_parameters ;;
  update cls t ;;
  reassemble cls ;;
  step.

(** The statements of a loop body: the iteration, then [t += self.dt]
    (an exact sum here, a rounded one in binary64). *)
Definition while_body (cls : scheme) (t : Q) : M St Q :=
  iteration cls t ;;
  dt <- getattr self_dt ;;
  ret (t + dt).

(** [t < self.T + 1e-14], on exact rationals.  In binary64 the bound is
    the float nearest to [T + 1e-14], which is [T] itself from [T = 128]
    on ([Binary64.AbstractSolver_solve_loop]). *)
Definition AbstractSolver_solve_cond (t : Q) : M St bool :=
  T <- getattr self_T ;;
  ret (Qlt_bool t (T + eps_loop)).

(** [AbstractSolver.solve(self)]:
    [t = self.dt; while t < self.T + 1e-14: ...; t += self.dt], then
    [self.update(t); return self.data]. *)
Definition AbstractSolver_solve (cls : scheme) (fuel : nat) : M St Data :=
  t <- getattr self_dt ;;
  t <- while_ AbstractSolver_solve_cond (while_body cls) fuel t ;;
  update cls t ;;
  getattr self_data.

(** [t < self.T - self.dt + 1e-14], on exact rationals.  In binary64 the
    bound is rounded twice, after the subtraction and after the sum
    ([Binary64.Explicit_solve_loop]). *)
Definition Explicit_solve_cond (t : Q) : M St bool :=
  T <- getattr self_T ;;
  dt <- getattr self_dt ;;
  ret (Qlt_bool t (T - dt + eps_loop)).

(** [Explicit.solve(self)]:
    [t = 0.0; while t < self.T - self.dt + 1e-14: ...; t += self.dt], then
    [return self.data]. *)
Definition Explicit_solve (fuel : nat) : M St Data :=
  while_ Explicit_solve_cond (while_body Explicit) fuel 0 ;;
  getattr self_data.

(** [self.solve()]. *)
Definition solve (cls : scheme) (fuel : nat) : M St Data :=
  match cls with
  | Explicit => Explicit_solve fuel
  | AbstractSolver | Implicit | BDF2 | CrankNicolson =>
      AbstractSolver_solve cls fuel
  end.

(** ** A whole run *)

(** [solver.parameters['store_results'] = b]. *)
Definition set_store_results (b : bool) : M St unit :=
  parameters <- getattr self_parameters ;;
  setattr self_parameters {| store_results := b; verbose := verbose parameters |}.

(** [solver = cls(problem); solver.parameters['store_results'] = store;
    solver.solve()], started on a fresh instance. *)
Definition run (cls : scheme) (problem : Problem) (store : bool) (fuel : nat)
    (h : Env) : result (Data * St) :=
  (__init__ cls problem ;;
   set_store_results store ;;
   solve cls fuel)
  {| heap := h; self := new_obj; log := [] |}.

(** ** Reading the ghost log *)

(** Number of [step()] calls made so far. *)
Fixpoint steps_taken (l : list event) : nat :=
  match l with
  | [] => 0
  | Stepped _ :: l' => S (steps_taken l')
  | _ :: l' => steps_taken l'
  end.

(** Number of [update(t)] calls entered so far. *)
Fixpoint updates_called (l : list event) : nat :=
  match l with
  | [] => 0
  | Update_enter _ _ :: l' => S (updates_called l')
  | _ :: l' => updates_called l'
  end.

(** The solution accepted by the latest step, or [ic] before any step. *)
Fixpoint last_solution (ic : Vector) (l : list event) : Vector :=
  match l with
  | [] => ic
  | Stepped p :: _ => p
  | _ :: l' => last_solution ic l'
  end.

(** The solution accepted one step before the latest, or [ic]. *)
Fixpoint previous_solution (ic : Vector) (l : list event) : Vector :=
  match l with
  | [] => ic
  | Stepped _ :: l' => last_solution ic l'
  | _ :: l' => previous_solution ic l'
  end.

(** ** Specification vocabulary *)

(** ** What [_discretize] computes *)

(** The argument passed for [data]: nothing on a bucket. *)
Definition data_arg (g : Grid) (d : option Data) : option Data :=
  if isinstance_GridBucket g then None else d.

(** Sum of the pairs of [ds] on top of [acc], threading the heap. *)
Fixpoint assemble_rest (g : Grid) (d : option Data) (ds : list Disc)
    (acc : Matrix * Vector) (h : Env) : (Matrix * Vector) * Env :=
  match ds with
  | [] => (acc, h)
  | disc :: ds' =>
      let (r, h') := matrix_rhs disc g d h in
      assemble_rest g d ds' (madd (fst acc) (fst r), vadd (snd acc) (snd r)) h'
  end.

Definition assemble (g : Grid) (d : option Data) (disc0 : Disc)
    (rest : list Disc) (h : Env) : (Matrix * Vector) * Env :=
  let (acc, h') := matrix_rhs disc0 g d h in assemble_rest g d rest acc h'.

(** The instance after [CrankNicolson.reassemble] has stored the pairs of
    the current step. *)
Definition cn_current (A : Matrix) (bA : Vector) (M : Matrix) (bM : Vector)
    (o : Obj) : Obj :=
  obj_set self_rhs_time bM
    (obj_set self_lhs_time M
       (obj_set self_rhs_flux bA (obj_set self_lhs_flux A o))).

(** ** What [update] does to the instance *)

(** The data store after [AbstractSolver.update(t)]. *)
Definition stored (store : bool) (d : Data) (p : Vector) (t dt : Q) : Data :=
  if store
  then {| physics := physics d ++ [p]; times := times d ++ [t - dt] |}
  else d.

(** The instance after [AbstractSolver.update(t)]. *)
Definition rolled (store : bool) (d : Data) (p : Vector) (t dt : Q) (o : Obj)
    : Obj :=
  if store
  then obj_set self_data (stored true d p t dt)
         (obj_set self_data {| physics := physics d ++ [p]; times := times d |}
            (obj_set self_p0 p o))
  else obj_set self_p0 p o.

(** The instance after [CrankNicolson.update] has moved the current pairs
    to the cache. *)
Definition cn_cached (A : Matrix) (bA : Vector) (M : Matrix) (bM : Vector)
    (o : Obj) : Obj :=
  obj_set self_rhs_time_0 bM
    (obj_set self_lhs_time_0 M
       (obj_set self_rhs_flux_0 bA (obj_set self_lhs_flux_0 A o))).

(** An attribute that has been assigned. *)
Definition has (o : Obj) (a : attr) : Prop := exists v, o a = Some v.

Fixpoint all_set (o : Obj) (l : list attr) : Prop :=
  match l with
  | [] => True
  | a :: l' => has o a /\ all_set o l'
  end.

(** The attributes a class adds to those of [AbstractSolver]. *)
Definition class_attrs (cls : scheme) : list attr :=
  match cls with
  | BDF2 => [self_flag_first; self_p_1]
  | CrankNicolson =>
      [self_lhs_flux; self_rhs_flux; self_lhs_time; self_rhs_time;
       self_lhs_flux_0; self_rhs_flux_0; self_lhs_time_0; self_rhs_time_0]
  | AbstractSolver | Implicit | Explicit => []
  end.

(** An instance of class [cls] constructed on [pb]: what [__init__] took
    from the problem is still there, every other attribute is assigned. *)
Record ready (cls : scheme) (pb : Problem) (o : Obj) : Prop := {
  ready_problem : o self_problem = Some pb;
  ready_g : o self_g = Some (problem_grid pb);
  ready_dt : o self_dt = Some (problem_time_step pb);
  ready_T : o self_T = Some (problem_end_time pb);
  ready_space_disc : o self_space_disc = Some (problem_space_disc pb);
  ready_time_disc : o self_time_disc = Some (problem_time_disc pb);
  ready_base : all_set o [self_data; self_p0; self_p; self_lhs; self_rhs;
                          self_parameters];
  ready_class : all_set o (class_attrs cls)
}.

(** Both discretization handles hold at least one term. *)
Definition well_formed (pb : Problem) : Prop :=
  terms_of (problem_space_disc pb) <> [] /\
  terms_of (problem_time_disc pb) <> [].

(** The four schemes, as opposed to the abstract base. *)
Definition concrete (cls : scheme) : Prop := cls <> AbstractSolver.

(** What one call [update(t)] establishes, from the instance [o] before
    the call to the instance [o1] after it. *)
Record update_post (cls : scheme) (pb : Problem) (t : Q) (o o1 : Obj)
    : Prop := {
  up_ready : ready cls pb o1;
  up_p0 : o1 self_p0 = o self_p;
  up_p : o1 self_p = o self_p;
  up_parameters : o1 self_parameters = o self_parameters;
  up_data : forall params d p,
      o self_parameters = Some params -> o self_data = Some d ->
      o self_p = Some p ->
      o1 self_data
      = Some (stored (store_results params) d p t (problem_time_step pb));
  up_bdf2 : cls = BDF2 ->
      o1 self_p_1 = o self_p0 /\
      o1 self_flag_first
      = Some (negb (Qlt_bool (problem_time_step pb + eps_first) t));
  up_cn : cls = CrankNicolson ->
      o1 self_lhs_flux_0 = o self_lhs_flux /\
      o1 self_rhs_flux_0 = o self_rhs_flux /\
      o1 self_lhs_time_0 = o self_lhs_time /\
      o1 self_rhs_time_0 = o self_rhs_time /\
      o1 self_lhs_flux = o self_lhs_flux /\
      o1 self_rhs_flux = o self_rhs_flux /\
      o1 self_lhs_time = o self_lhs_time /\
      o1 self_rhs_time = o self_rhs_time
}.

(** What [reassemble(); step()] establishes, from the instance [o] before
    to the instance [o2] after, [p'] being the solution returned. *)
Record advance_post (cls : scheme) (pb : Problem) (o o2 : Obj) (p' : Vector)
    : Prop := {
  ad_ready : ready cls pb o2;
  ad_p : o2 self_p = Some p';
  ad_p0 : o2 self_p0 = o self_p0;
  ad_data : o2 self_data = o self_data;
  ad_parameters : o2 self_parameters = o self_parameters
}.

(** The initial state of a run on heap [h]: a fresh instance, an empty
    log. *)
Definition fresh (h : Env) : St := {| heap := h; self := new_obj; log := [] |}.

(** What [cls(problem)] followed by the assignment of [store_results]
    establishes. *)
Record start_post (cls : scheme) (pb : Problem) (store : bool) (o : Obj)
    : Prop := {
  sp_ready : ready cls pb o;
  sp_p : o self_p = Some (problem_initial_condition pb);
  sp_p0 : o self_p0 = Some (problem_initial_condition pb);
  sp_data : o self_data = Some {| physics := []; times := [] |};
  sp_parameters :
    o self_parameters = Some {| store_results := store; verbose := false |};
  sp_p_1 : cls = BDF2 -> o self_p_1 = Some (problem_initial_condition pb);
  sp_cn : cls = CrankNicolson ->
    exists sta sta' stb stb' A bA M bM,
      _discretize (problem_space_disc pb) sta = Ok ((A, bA), sta') /\
      _discretize (problem_time_disc pb) stb = Ok ((M, bM), stb') /\
      o self_lhs_flux = Some A /\ o self_rhs_flux = Some bA /\
      o self_lhs_time = Some M /\ o self_rhs_time = Some bM
}.

(** The first value of the loop variable, the bound its test compares
    with, and the test itself, per class. *)
Definition first_time (cls : scheme) (pb : Problem) : Q :=
  match cls with
  | Explicit => 0
  | _ => problem_time_step pb
  end.

Definition threshold (cls : scheme) (pb : Problem) : Q :=
  match cls with
  | Explicit => problem_end_time pb - problem_time_step pb + eps_loop
  | _ => problem_end_time pb + eps_loop
  end.

Definition solve_cond (cls : scheme) : Q -> M St bool :=
  match cls with
  | Explicit => Explicit_solve_cond
  | _ => AbstractSolver_solve_cond
  end.

(** How [solve] ends once its loop has left the machine in [st1] with
    loop variable [t']: [Explicit.solve] returns the data store,
    [AbstractSolver.solve] calls [update(t')] first. *)
Definition finished (cls : scheme) (pb : Problem) (t' : Q) (st1 : St)
    (d : Data) (st : St) : Prop :=
  match cls with
  | Explicit => st = st1 /\ self st self_data = Some d
  | _ =>
      exists o1,
        st = {| heap := problem_update pb t' (heap st1); self := o1;
                log := Update_exit t' o1 :: Update_enter t' (self st1)
                         :: log st1 |}
        /\ update_post cls pb t' (self st1) o1
        /\ o1 self_data = Some d
  end.

(** The first iteration of [AbstractSolver.solve] on a fresh instance:
    construction, then the loop body at [t = self.dt]. *)
Definition first_step (cls : scheme) (pb : Problem) (store : bool) (h : Env)
    : result (Vector * St) :=
  (__init__ cls pb ;;
   set_store_results store ;;
   t <- getattr self_dt ;;
   iteration cls t) (fresh h).

(** What a step leaves to observe: the solution returned, the linear
    system, the data store and the heap. *)
Definition observed (r : result (Vector * St))
    : result (Vector * option (pyval Matrix) * option (pyval Vector)
              * option Data * Env) :=
  match r with
  | Ok (p, st) =>
      Ok (p, self st self_lhs, self st self_rhs, self st self_data, heap st)
  | Raise e => Raise e
  | OutOfFuel => OutOfFuel
  end.

(** The outcome of the first step of the Implicit scheme, written out:
    the hook runs at [t = dt], the two handles are assembled, and the
    system [(M + A) p = M p0 + b_A + b_M] is solved with [p0] the initial
    condition. *)
Definition implicit_first_outcome (pb : Problem) (store : bool) (h : Env)
    : result (Vector * option (pyval Matrix) * option (pyval Vector)
              * option Data * Env) :=
  let g := problem_grid pb in
  let ic := problem_initial_condition pb in
  let dt := problem_time_step pb in
  let d1 := stored store {| physics := []; times := [] |} ic dt dt in
  match terms_of (problem_space_disc pb) with
  | [] => Raise IndexError
  | s0 :: sr =>
      let (rA, h2) :=
        assemble g (data_arg g (Some d1)) s0 sr (problem_update pb dt h) in
      match terms_of (problem_time_disc pb) with
      | [] => Raise IndexError
      | t0 :: tr =>
          let (rM, h3) := assemble g (data_arg g (Some d1)) t0 tr h2 in
          let lhs := madd (fst rM) (fst rA) in
          let rhs := vadd (vadd (mulv (fst rM) ic) (snd rA)) (snd rM) in
          Ok (spsolve lhs rhs, Some (Arr lhs), Some (Arr rhs), Some d1, h3)
      end
  end.

(** ** The claims on whole runs, as predicates *)

(** The recorded history holds [n] entries when [store_results] is on,
    none when it is off. *)
Definition history_ok (store : bool) (d : Data) (n : nat) : Prop :=
  if store
  then length (physics d) = n /\ length (times d) = n
  else physics d = [] /\ times d = [].

(** What holds at the calls of [update] recorded in a log ([ic] is the
    initial condition): when a call is entered, [p] is the solution of the
    latest step and [p0] the one before it; when it returns, [p0] is the
    solution of the latest step and, for BDF2, [p_1] the one before it. *)
Fixpoint update_calls_ok (cls : scheme) (ic : Vector) (l : list event)
    : Prop :=
  match l with
  | [] => True
  | Update_enter _ o :: older =>
      (o self_p = Some (last_solution ic older) /\
       o self_p0 = Some (previous_solution ic older)) /\
      update_calls_ok cls ic older
  | Update_exit _ o :: older =>
      (o self_p0 = Some (last_solution ic older) /\
       (cls = BDF2 -> o self_p_1 = Some (previous_solution ic older))) /\
      update_calls_ok cls ic older
  | Stepped _ :: older => update_calls_ok cls ic older
  end.

(** The same invariant placed at the start of every [update] call: [p0]
    is already the solution of the latest step (and [p_1], for BDF2, the
    one before it). *)
Fixpoint p0_current_at_entry (cls : scheme) (ic : Vector) (l : list event)
    : Prop :=
  match l with
  | [] => True
  | Update_enter _ o :: older =>
      (o self_p0 = Some (last_solution ic older) /\
       (cls = BDF2 -> o self_p_1 = Some (previous_solution ic older))) /\
      p0_current_at_entry cls ic older
  | _ :: older => p0_current_at_entry cls ic older
  end.


(** "The history is as long as the number of steps taken (store on), or
    empty (store off)." *)
Definition history_counts_steps (cls : scheme) (pb : Problem) (store : bool)
    (fuel : nat) (h : Env) : Prop :=
  match run cls pb store fuel h with
  | Ok (d, st) => history_ok store d (steps_taken (log st))
  | _ => True
  end.

(** "At the start of every update call [p0] is the solution of the
    previous step." *)
Definition p0_rolled_before_update (cls : scheme) (pb : Problem)
    (store : bool) (fuel : nat) (h : Env) : Prop :=
  match run cls pb store fuel h with
  | Ok (_, st) =>
      p0_current_at_entry cls (problem_initial_condition pb) (log st)
  | _ => True
  end.

End Model.

(** ** Problems with no spatial operator and no sources *)

Section ZeroProblem.

Context {LA : LinAlg} {LAL : LinAlgLaws LA} {CO : Collaborators}.

(** The space terms assemble to the zero matrix and the zero vector. *)
Definition zero_space (pb : Problem) : Prop :=
  forall st r st',
    _discretize (problem_space_disc pb) st = Ok (r, st') ->
    r = (mzero, vzero).

(** The time terms assemble to an invertible matrix and the zero vector. *)
Definition mass_time (pb : Problem) : Prop :=
  forall st r st',
    _discretize (problem_time_disc pb) st = Ok (r, st') ->
    invertible (fst r) /\ snd r = vzero.

(** The schemes that compute a step from the previous one alone. *)
Definition one_step_scheme (cls : scheme) : Prop :=
  cls = Implicit \/ cls = Explicit \/ cls = CrankNicolson.

(** The state stayed at [ic]: the current solution, every solution that
    [step()] returned and every entry of the history. *)
Definition constant_state (ic : Vector) (d : Data) (st : St) : Prop :=
  self st self_p = Some ic /\
  (forall p, In (Stepped p) (log st) -> p = ic) /\
  (forall p, In p (physics d) -> p = ic).

End ZeroProblem.

(** ** A concrete instance: one degree of freedom over the rationals *)

Module OneDof.

(** Matrices and vectors of size one are canonical rationals; the direct
    solver divides. *)
#[export] Instance linalg : LinAlg := {|
  Matrix := Qc;
  Vector := Qc;
  madd := Qcplus;
  msub := Qcminus;
  mscale := fun c A => Qcmult (Q2Qc c) A;
  mulv := Qcmult;
  vadd := Qcplus;
  vsub := Qcminus;
  vscale := fun c x => Qcmult (Q2Qc c) x;
  spsolve := fun A b => Qcdiv b A
|}.

(** A term is the constant pair it assembles; the heap holds the time last
    passed to [problem.update]. *)
#[export] Instance collaborators : Collaborators := {|
  Env := Q;
  Disc := Qc * Qc;
  matrix_rhs := fun d _ _ h => (d, h)
|}.

Definition qc (n : Z) (d : positive) : Qc := Q2Qc (n # d).

(** The handle of the single term that assembles to [(A, b)]. *)
Definition one_term (A b : Qc) : Discs := OneDisc ((A, b) : Disc).

(** dp/dt + lambda p = 0 with lambda = 1 and mass term 1/dt, on a single
    grid or on a bucket. *)
Definition decay (g : Grid) (dt T : Q) : Problem := {|
  problem_grid := g;
  problem_space_disc := one_term (qc 1 1) (qc 0 1);
  problem_time_disc := one_term (Q2Qc (/ dt)) (qc 0 1);
  problem_time_step := dt;
  problem_end_time := T;
  problem_initial_condition := qc 1 1;
  problem_update := fun t _ => t
|}.

(** The same problem with no spatial operator. *)
Definition still (g : Grid) (dt T : Q) : Problem := {|
  problem_grid := g;
  problem_space_disc := one_term (qc 0 1) (qc 0 1);
  problem_time_disc := one_term (Q2Qc (/ dt)) (qc 0 1);
  problem_time_step := dt;
  problem_end_time := T;
  problem_initial_condition := qc 1 1;
  problem_update := fun t _ => t
|}.

(** The instance as [cls(problem)] leaves it, with [store_results] set. *)
Definition started (cls : scheme) (pb : Problem) (store : bool) (h : Q) : St :=
  match (__init__ cls pb ;; set_store_results store) (fresh h) with
  | Ok (_, st) => st
  | _ => fresh h
  end.

(** dp/dt + p = 0 from p = 1, with dt = 1 and T = 3, on a single grid. *)
Definition pb3 : Problem := decay (SingleGrid 0) 1 3.

(** The Implicit instance on [pb3], as constructed. *)
Definition st_implicit : St := started Implicit pb3 false 0.

(** The BDF2 and Crank-Nicolson instances, the latter on a bucket. *)
Definition st_bdf2 : St := started BDF2 pb3 false 0.

Definition pb3_bucket : Problem := decay (GridBucket 0) 1 3.

Definition st_cn : St := started CrankNicolson pb3_bucket false 0.

(** The problem with no spatial operator, on a bucket. *)
Definition pb3_still : Problem := still (GridBucket 0) 1 3.

(** The laws hold: the rationals are a field. *)
#[export] Instance laws : LinAlgLaws linalg.
Proof.
  refine {| mzero := (0%Qc : @Matrix linalg);
            vzero := (0%Qc : @Vector linalg);
            invertible := fun A : Qc => A <> 0%Qc |};
    cbn; intros; try ring.
  field. assumption.
Defined.

End OneDof.

(** ** Traces of a run *)

Section Traces.

Context {LA : LinAlg} {CO : Collaborators}.

(** The times passed to [update], in call order. *)
Fixpoint update_times (l : list event) : list Q :=
  match l with
  | [] => []
  | Update_enter t _ :: older => update_times older ++ [t]
  | _ :: older => update_times older
  end.

(** The solutions that [step] returned, in call order. *)
Fixpoint solutions (l : list event) : list Vector :=
  match l with
  | [] => []
  | Stepped p :: older => solutions older ++ [p]
  | _ :: older => solutions older
  end.

(** What a call leaves to a caller that does not look at the instance:
    the value returned and the heap, or the exception. *)
Definition outcome {A} (r : result (A * St)) : result (A * Env) :=
  match r with
  | Ok (a, st) => Ok (a, heap st)
  | Raise e => Raise e
  | OutOfFuel => OutOfFuel
  end.

(** The linear system that [reassemble] leaves, with the heap. *)
Definition assembled (r : result (unit * St))
    : result (option (pyval Matrix) * option (pyval Vector) * Env) :=
  match r with
  | Ok (_, st) => Ok (self st self_lhs, self st self_rhs, heap st)
  | Raise e => Raise e
  | OutOfFuel => OutOfFuel
  end.

(** A state with one attribute of the instance reassigned. *)
Definition with_attr (a : attr) (v : attr_ty a) (st : St) : St :=
  {| heap := heap st; self := obj_set a v (self st); log := log st |}.

(** The first-step flag of BDF2 at the return of every [update] call of a
    log: set exactly when the steps taken before the call span at most
    [1e-6]. *)
Fixpoint flags_follow_time (dt : Q) (l : list event) : Prop :=
  match l with
  | [] => True
  | Update_exit _ o :: older =>
      o self_flag_first
      = Some (Qle_bool (inject_Z (Z.of_nat (steps_taken older)) * dt) eps_first)
      /\ flags_follow_time dt older
  | _ :: older => flags_follow_time dt older
  end.

(** The terms of a problem assemble to the same pairs at every call:
    [(A, bA)] for the space handle, [(M, bM)] for the time handle. *)
Definition constant_terms (pb : Problem) (A : Matrix) (bA : Vector)
    (M : Matrix) (bM : Vector) : Prop :=
  (forall st r st',
      _discretize (problem_space_disc pb) st = Ok (r, st') -> r = (A, bA)) /\
  (forall st r st',
      _discretize (problem_time_disc pb) st = Ok (r, st') -> r = (M, bM)).

(** The solution of one step of each scheme on constant pairs, from the
    solution [p0] of the step before and, for BDF2 past its first-step
    formula ([first = false]), the solution [p_1] before that one. *)
Definition step_map (cls : scheme) (A : Matrix) (bA : Vector)
    (M : Matrix) (bM : Vector) (first : bool) (p0 p_1 : Vector) : Vector :=
  match cls with
  | AbstractSolver => p0
  | Implicit => spsolve (madd M A) (vadd (vadd (mulv M p0) bA) bM)
  | BDF2 =>
      if first then spsolve (madd M A) (vadd (vadd (mulv M p0) bA) bM)
      else
        spsolve (madd M (mscale (2 # 3) A))
          (vadd (vadd (vsub (mulv (mscale (4 # 3) M) p0)
                            (mulv (mscale (1 # 3) M) p_1))
                      (vscale (2 # 3) bA)) bM)
  | Explicit => spsolve M (vadd (vadd (mulv (msub M A) p0) bA) bM)
  | CrankNicolson =>
      spsolve (madd M (mscale (1 # 2) A))
        (vadd (vadd (mulv (msub M (mscale (1 # 2) A)) p0)
                    (vscale (1 # 2) (vadd bA bM)))
              (vscale (1 # 2) (vadd bA bM)))
  end.

(** Every solution recorded in a log is [step_map] of the solutions
    before it ([ic] standing for the solutions before the first step). *)
Fixpoint steps_follow (cls : scheme) (A : Matrix) (bA : Vector)
    (M : Matrix) (bM : Vector) (dt : Q) (ic : Vector) (l : list event)
    : Prop :=
  match l with
  | [] => True
  | Stepped p :: older =>
      p = step_map cls A bA M bM
            (Qle_bool (inject_Z (Z.of_nat (steps_taken older)) * dt) eps_first)
            (last_solution ic older) (previous_solution ic older)
      /\ steps_follow cls A bA M bM dt ic older
  | _ :: older => steps_follow cls A bA M bM dt ic older
  end.

(** The terms of a problem do not look at the data store they are
    given: either the domain is a bucket, and none is given, or
    [matrix_rhs] returns the same for every store. *)
Definition data_blind (pb : Problem) : Prop :=
  isinstance_GridBucket (problem_grid pb) = true \/
  forall disc d d' h,
    matrix_rhs disc (problem_grid pb) d h
    = matrix_rhs disc (problem_grid pb) d' h.

(** Two instances of class [cls] hold the same numbers: the solutions
    and what the class keeps besides. *)
Definition same_numbers (cls : scheme) (o o' : Obj) : Prop :=
  o self_p = o' self_p /\
  o self_p0 = o' self_p0 /\
  (cls = BDF2 ->
   o self_p_1 = o' self_p_1 /\ o self_flag_first = o' self_flag_first) /\
  (cls = CrankNicolson ->
   o self_lhs_flux = o' self_lhs_flux /\
   o self_rhs_flux = o' self_rhs_flux /\
   o self_lhs_time = o' self_lhs_time /\
   o self_rhs_time = o' self_rhs_time /\
   o self_lhs_flux_0 = o' self_lhs_flux_0 /\
   o self_rhs_flux_0 = o' self_rhs_flux_0 /\
   o self_lhs_time_0 = o' self_lhs_time_0 /\
   o self_rhs_time_0 = o' self_rhs_time_0).

(** The solution of one step of each scheme from the pairs [(A, bA)] and
    [(M, bM)] of the step, the cached [A0], [bA0] and [bM0] of the step
    before (Crank-Nicolson), the first-step flag (BDF2) and the
    solutions [p0] and [p_1] of the two steps before. *)
Definition step_law (cls : scheme) (A : Matrix) (bA : Vector)
    (M : Matrix) (bM : Vector) (A0 : Matrix) (bA0 bM0 : Vector)
    (first : bool) (p0 p_1 : Vector) : Vector :=
  match cls with
  | AbstractSolver => p0
  | Implicit => spsolve (madd M A) (vadd (vadd (mulv M p0) bA) bM)
  | BDF2 =>
      if first then spsolve (madd M A) (vadd (vadd (mulv M p0) bA) bM)
      else
        spsolve (madd M (mscale (2 # 3) A))
          (vadd (vadd (vsub (mulv (mscale (4 # 3) M) p0)
                            (mulv (mscale (1 # 3) M) p_1))
                      (vscale (2 # 3) bA)) bM)
  | Explicit => spsolve M (vadd (vadd (mulv (msub M A) p0) bA) bM)
  | CrankNicolson =>
      spsolve (madd M (mscale (1 # 2) A))
        (vadd (vadd (mulv (msub M (mscale (1 # 2) A0)) p0)
                    (vscale (1 # 2) (vadd bA bM)))
              (vscale (1 # 2) (vadd bA0 bM0)))
  end.

End Traces.

(** ** Scalar decay *)

Module ScalarDecay.

Import OneDof.

(** dp/dt + lam p = 0 from p = ic with one degree of freedom: the space
    term assembles to [(lam, 0)], the time term to [(1/dt, 0)]. *)
Definition decay_rate (g : Grid) (lam : Qc) (dt T : Q) (ic : Qc) : Problem := {|
  problem_grid := g;
  problem_space_disc := one_term lam (qc 0 1);
  problem_time_disc := one_term (Q2Qc (/ dt)) (qc 0 1);
  problem_time_step := dt;
  problem_end_time := T;
  problem_initial_condition := ic;
  problem_update := fun t _ => t
|}.

(** Every step of a log returned the solution before it times [r]. *)
Fixpoint each_step_scales (r ic : Qc) (l : list event) : Prop :=
  match l with
  | [] => True
  | Stepped p :: older =>
      p = (r * last_solution ic older)%Qc /\ each_step_scales r ic older
  | _ :: older => each_step_scales r ic older
  end.

(** The first step of a log returned the solution before it times [r1];
    every later step returned [r2 (4 p0 - p_1)], with [p0] the solution
    before it and [p_1] the one before that. *)
Fixpoint two_step_recurrence (r1 r2 ic : Qc) (l : list event) : Prop :=
  match l with
  | [] => True
  | Stepped p :: older =>
      p = (if Nat.eqb (steps_taken older) 0
           then r1 * last_solution ic older
           else r2 * (qc 4 1 * last_solution ic older
                      - previous_solution ic older))%Qc
      /\ two_step_recurrence r1 r2 ic older
  | _ :: older => two_step_recurrence r1 r2 ic older
  end.


End ScalarDecay.

(** ** The loop variable in binary64 *)

(** The two stepping loops reduced to their loop variable, computed in
    binary64 as Python computes it: the sums [self.T + 1e-14] and
    [t += self.dt] are rounded to the nearest float, and [<] is the
    comparison of floats.  The body of an iteration does not assign [t],
    [self.dt] or [self.T]. *)
Module Binary64.
Import PrimFloat.
#[local] Set Warnings "-inexact-float".
#[local] Open Scope float_scope.

(** The literal [1e-14]: the float nearest to it. *)
Definition eps_loop : float := 1e-14.

(** [while t < bound: ...; t += dt], started at [t] with [n] iterations
    done: the number of iterations and the value of [t] when the test
    fails; [None] when the fuel runs out first. *)
Fixpoint while_ (bound dt : float) (fuel : nat) (t : float) (n : nat)
    : option (nat * float) :=
  if t <? bound then
    match fuel with
    | O => None
    | S fuel' => while_ bound dt fuel' (t + dt) (S n)
    end
  else Some (n, t).

(** The loop of [AbstractSolver.solve]:
    [t = self.dt; while t < self.T + 1e-14: ...; t += self.dt]. *)
Definition AbstractSolver_solve_loop (dt T : float) (fuel : nat)
    : option (nat * float) :=
  while_ (T + eps_loop) dt fuel dt 0.

(** The loop of [Explicit.solve]:
    [t = 0.0; while t < self.T - self.dt + 1e-14: ...; t += self.dt]. *)
Definition Explicit_solve_loop (dt T : float) (fuel : nat)
    : option (nat * float) :=
  while_ (T - dt + eps_loop) dt fuel 0 0.

(** The numbers of iterations of the loop of [AbstractSolver.solve] and
    of the loop of [Explicit.solve], for the same [dt] and [T]. *)
Definition iterations (dt T : float) (fuel : nat) : option (nat * nat) :=
  match AbstractSolver_solve_loop dt T fuel, Explicit_solve_loop dt T fuel with
  | Some (nA, _), Some (nE, _) => Some (nA, nE)
  | _, _ => None
  end.

(** The float [float(N)], by exact sums for [N] below [2^53]. *)
Fixpoint of_nat (N : nat) : float :=
  match N with
  | O => 0
  | S N' => of_nat N' + 1
  end.

(** With [T = N * dt]: each loop runs [N] iterations or one fewer. *)
Definition within_one_of (dt : float) (N : nat) : bool :=
  match iterations dt (of_nat N * dt) (S N) with
  | Some (nA, nE) =>
      ((N - 1 <=? nA) && (nA <=? N) && (N - 1 <=? nE) && (nE <=? N))%nat
  | None => false
  end.

End Binary64.

(** * Properties *)

Ltac munfold :=
  unfold matrix_rhs_call, bind, ret, raise, on_heap, getattr, setattr,
    snapshot, log_event.

(** Symbolic execution: expose the next attribute read and resolve it with
    a hypothesis of the context. *)
Ltac mrun :=
  repeat (progress (munfold; cbn)
          || match goal with
             | H : _ = Some _ |- _ => rewrite H
             | H : _ = None |- _ => rewrite H
             | H : _discretize _ _ = Ok _ |- _ => rewrite H
             end).

(** Open a [ready] hypothesis into equations on attributes. *)
Ltac open_ready H :=
  let H1 := fresh "Rpb" in let H2 := fresh "Rg" in let H3 := fresh "Rdt" in
  let H4 := fresh "RT" in let H5 := fresh "Rsd" in let H6 := fresh "Rtd" in
  let H7 := fresh "Rb" in let H8 := fresh "Rc" in
  destruct H as [H1 H2 H3 H4 H5 H6 H7 H8];
  cbn [all_set class_attrs] in H7, H8;
  repeat match goal with
         | K : _ /\ _ |- _ => destruct K
         | K : has _ _ |- _ => destruct K as [? K]
         | K : True |- _ => clear K
         end.

(** Close a [ready] goal on an explicit instance. *)
Ltac close_ready :=
  constructor; cbn; unfold has; cbn; repeat split; eauto.

Ltac destruct_matrix_rhs :=
  match goal with
  | |- context [matrix_rhs ?d ?g ?x ?h] => destruct (matrix_rhs d g x h) as [[? ?] ?]
  end.

(** Linear arithmetic on the rationals, with the hypotheses that are not
    about the order set aside first. *)
Ltac qlra :=
  repeat match goal with
         | H : ?T |- _ =>
             lazymatch T with
             | Qeq _ _ => fail
             | Qle _ _ => fail
             | Qlt _ _ => fail
             | _ => clear H
             end
         end;
  lra.

(** ** The order test *)

Lemma Qlt_bool_true (x y : Q) : Qlt_bool x y = true -> x < y.
Proof.
  unfold Qlt_bool. rewrite negb_true_iff. intros H.
  apply Qnot_le_lt. intros L. apply Qle_bool_iff in L. congruence.
Qed.

Lemma Qlt_bool_false (x y : Q) : Qlt_bool x y = false -> y <= x.
Proof.
  unfold Qlt_bool. rewrite negb_false_iff. apply Qle_bool_iff.
Qed.

Lemma Qlt_bool_lt (x y : Q) : x < y -> Qlt_bool x y = true.
Proof.
  intros H. destruct (Qlt_bool x y) eqn:E; [reflexivity|].
  apply Qlt_bool_false in E. lra.
Qed.

Lemma Qlt_bool_ge (x y : Q) : y <= x -> Qlt_bool x y = false.
Proof.
  intros H. destruct (Qlt_bool x y) eqn:E; [|reflexivity].
  apply Qlt_bool_true in E. lra.
Qed.

Lemma archimedean (x dt : Q) :
  0 < dt -> exists m : nat, x <= inject_Z (Z.of_nat m) * dt.
Proof.
  intros Hdt. exists (Z.to_nat (Qceiling (x / dt))).
  assert (H1 : x / dt <= inject_Z (Z.of_nat (Z.to_nat (Qceiling (x / dt))))).
  { eapply Qle_trans; [apply Qle_ceiling|].
    rewrite <- Zle_Qle. lia. }
  apply (Qmult_le_compat_r _ _ dt) in H1; [|lra].
  assert (H2 : x / dt * dt == x) by (field; lra).
  rewrite H2 in H1. exact H1.
Qed.

(** ** Loops *)

Section While.

Variables (S T : Type) (cond : T -> M S bool) (body : T -> M S T).

(** A loop whose test is pure on the states of interest keeps an
    invariant that its body keeps, and exits with the test false. *)
Lemma while_safe (I : T -> S -> Prop) :
  (forall t st c st', I t st -> cond t st = Ok (c, st') -> st' = st) ->
  (forall t st t' st',
      I t st -> cond t st = Ok (true, st) -> body t st = Ok (t', st') ->
      I t' st') ->
  forall fuel t st t' st',
    I t st -> while_ cond body fuel t st = Ok (t', st') ->
    I t' st' /\ cond t' st' = Ok (false, st').
Proof.
  intros Hpure Hbody. induction fuel as [|fuel IH]; intros t st t' st' HI H.
  - cbn in H. unfold bind in H.
    destruct (cond t st) as [[c st1]| |] eqn:Ec; try discriminate.
    pose proof (Hpure _ _ _ _ HI Ec); subst st1.
    destruct c; [discriminate|]. inversion H; subst. auto.
  - cbn in H. unfold bind in H.
    destruct (cond t st) as [[c st1]| |] eqn:Ec; try discriminate.
    pose proof (Hpure _ _ _ _ HI Ec); subst st1.
    destruct c.
    + destruct (body t st) as [[t1 st1]| |] eqn:Eb; try discriminate.
      apply (IH t1 st1); [|exact H]. eapply Hbody; eauto.
    + inversion H; subst. auto.
Qed.

(** A loop that a bound [B] sees end after at most [m] iterations ends
    with any fuel from some [n <= m] on. *)
Lemma while_total (B : nat -> T -> S -> Prop) :
  (forall t st, B O t st -> cond t st = Ok (false, st)) ->
  (forall m t st,
      B (Datatypes.S m) t st ->
      cond t st = Ok (false, st) \/
      (cond t st = Ok (true, st) /\
       exists t' st', body t st = Ok (t', st') /\ B m t' st')) ->
  forall m t st,
    B m t st ->
    exists n t' st',
      (n <= m)%nat /\
      forall fuel, (n <= fuel)%nat ->
                   while_ cond body fuel t st = Ok (t', st').
Proof.
  intros H0 HS. induction m as [|m IH]; intros t st HB.
  - exists O, t, st. split; [lia|]. intros fuel _.
    destruct fuel; cbn; unfold bind; rewrite (H0 _ _ HB); reflexivity.
  - destruct (HS _ _ _ HB) as [Ec | (Ec & t1 & st1 & Eb & HB1)].
    + exists O, t, st. split; [lia|]. intros fuel _.
      destruct fuel; cbn; unfold bind; rewrite Ec; reflexivity.
    + destruct (IH _ _ HB1) as (n & t' & st' & Hn & Hw).
      exists (Datatypes.S n), t', st'. split; [lia|]. intros fuel Hf.
      destruct fuel as [|fuel]; [lia|].
      cbn. unfold bind. rewrite Ec, Eb. apply Hw. lia.
Qed.

End While.

Section Solver.

Context {LA : LinAlg} {CO : Collaborators}.

Arguments Qplus : simpl never.
Arguments Qminus : simpl never.
Arguments Qlt_bool : simpl never.
Arguments _discretize : simpl never.

Lemma _discretize_rest_ok (g : Grid) (d : Data) (ds : list Disc) :
  forall acc h (o : Obj) l,
    o self_g = Some g ->
    (isinstance_GridBucket g = false -> o self_data = Some d) ->
    _discretize_rest (negb (isinstance_GridBucket g)) ds acc
      {| heap := h; self := o; log := l |}
    = Ok (fst (assemble_rest g (data_arg g (Some d)) ds acc h),
          {| heap := snd (assemble_rest g (data_arg g (Some d)) ds acc h);
             self := o; log := l |}).
Proof.
  induction ds as [|disc ds IH]; intros acc h o l Hg Hd.
  - reflexivity.
  - specialize (fun a h' => IH a h' o l Hg Hd).
    unfold data_arg in *.
    destruct (isinstance_GridBucket g) eqn:Eg;
      [|specialize (Hd eq_refl)]; cbn [negb] in *; mrun.
    + destruct (matrix_rhs disc g None h) as [[A b] h'].
      destruct acc as [lhs rhs]. apply IH.
    + destruct (matrix_rhs disc g (Some d) h) as [[A b] h'].
      destruct acc as [lhs rhs]. apply IH.
Qed.

Lemma _discretize_ok (g : Grid) (d : Data) (discs : Discs) disc0 rest :
  forall h (o : Obj) l,
    o self_g = Some g ->
    (isinstance_GridBucket g = false -> o self_data = Some d) ->
    terms_of discs = disc0 :: rest ->
    _discretize discs {| heap := h; self := o; log := l |}
    = Ok (fst (assemble g (data_arg g (Some d)) disc0 rest h),
          {| heap := snd (assemble g (data_arg g (Some d)) disc0 rest h);
             self := o; log := l |}).
Proof.
  intros h o l Hg Hd Ht.
  pose proof (fun a h' => @_discretize_rest_ok g d rest a h' o l Hg Hd) as R.
  unfold _discretize. fold (terms_of discs). rewrite Ht.
  unfold assemble, data_arg in *.
  destruct (isinstance_GridBucket g) eqn:Eg;
    [|specialize (Hd eq_refl)]; cbn [negb] in *; mrun; rewrite Eg; mrun.
  - destruct (matrix_rhs disc0 g None h) as [acc h'].
    apply R.
  - destruct (matrix_rhs disc0 g (Some d) h) as [acc h'].
    apply R.
Qed.

(** [_discretize] touches neither the instance nor the log. *)
Lemma _discretize_rest_frame (wd : bool) (ds : list Disc) :
  forall acc st r st',
    _discretize_rest wd ds acc st = Ok (r, st') ->
    self st' = self st /\ log st' = log st.
Proof.
  induction ds as [|disc ds IH]; intros acc [h o l] r st' H.
  - inversion H; subst; auto.
  - revert H.
    destruct (o self_g) as [g|] eqn:Hg; mrun; [|discriminate].
    destruct wd.
    + destruct (o self_data) as [d|] eqn:Hd; mrun; [|discriminate].
      destruct_matrix_rhs.
      destruct acc as [lhs rhs]. intros H. apply IH in H. exact H.
    + mrun. destruct_matrix_rhs.
      destruct acc as [lhs rhs]. intros H. apply IH in H. exact H.
Qed.

Lemma _discretize_frame (discs : Discs) :
  forall st r st',
    _discretize discs st = Ok (r, st') ->
    self st' = self st /\ log st' = log st.
Proof.
  intros [h o l] r st'. unfold _discretize. fold (terms_of discs).
  destruct (o self_g) as [g|] eqn:Hg; mrun; [|discriminate].
  destruct (isinstance_GridBucket g);
    (destruct (terms_of discs) as [|disc0 rest]; mrun; [discriminate|]).
  - destruct_matrix_rhs.
    intros H. apply _discretize_rest_frame in H. exact H.
  - destruct (o self_data) as [d|] eqn:Hd; mrun; [|discriminate].
    destruct_matrix_rhs.
    intros H. apply _discretize_rest_frame in H. exact H.
Qed.

(** [_discretize] reads the instance only through [self.g] and
    [self.data]. *)
Lemma _discretize_rest_ext (wd : bool) (ds : list Disc) :
  forall acc h (o o' : Obj) l l',
    o self_g = o' self_g -> o self_data = o' self_data ->
    match _discretize_rest wd ds acc {| heap := h; self := o; log := l |} with
    | Ok (r, st1) =>
        _discretize_rest wd ds acc {| heap := h; self := o'; log := l' |}
        = Ok (r, {| heap := heap st1; self := o'; log := l' |})
    | Raise e =>
        _discretize_rest wd ds acc {| heap := h; self := o'; log := l' |}
        = Raise e
    | OutOfFuel =>
        _discretize_rest wd ds acc {| heap := h; self := o'; log := l' |}
        = OutOfFuel
    end.
Proof.
  induction ds as [|disc ds IH]; intros acc h o o' l l' Hg Hd.
  - reflexivity.
  - specialize (fun a h0 => IH a h0 o o' l l' Hg Hd).
    destruct (o self_g) as [g|] eqn:Eg; symmetry in Hg; mrun;
      [|reflexivity].
    destruct wd; mrun.
    + destruct (o self_data) as [d|] eqn:Ed; symmetry in Hd; mrun;
        [|reflexivity].
      destruct_matrix_rhs. destruct acc as [lhs rhs]. apply IH.
    + destruct_matrix_rhs. destruct acc as [lhs rhs]. apply IH.
Qed.

Lemma _discretize_ext (discs : Discs) :
  forall h (o o' : Obj) l l',
    o self_g = o' self_g -> o self_data = o' self_data ->
    match _discretize discs {| heap := h; self := o; log := l |} with
    | Ok (r, st1) =>
        _discretize discs {| heap := h; self := o'; log := l' |}
        = Ok (r, {| heap := heap st1; self := o'; log := l' |})
    | Raise e =>
        _discretize discs {| heap := h; self := o'; log := l' |} = Raise e
    | OutOfFuel =>
        _discretize discs {| heap := h; self := o'; log := l' |} = OutOfFuel
    end.
Proof.
  intros h o o' l l' Hg Hd.
  pose proof (fun wd ds a h0 =>
                @_discretize_rest_ext wd ds a h0 o o' l l' Hg Hd) as R.
  unfold _discretize. fold (terms_of discs).
  destruct (o self_g) as [g|] eqn:Eg; symmetry in Hg; mrun; [|reflexivity].
  destruct (isinstance_GridBucket g);
    (destruct (terms_of discs) as [|disc0 rest]; mrun; [reflexivity|]).
  - destruct_matrix_rhs. apply R.
  - destruct (o self_data) as [d|] eqn:Ed; symmetry in Hd; mrun;
      [|reflexivity].
    destruct_matrix_rhs. apply R.
Qed.

(** Transfer of a [_discretize] result to a state that differs in
    attributes other than [self.g] and [self.data]. *)
Lemma _discretize_transfer (discs : Discs) st r st1 (o' : Obj) l' :
  _discretize discs st = Ok (r, st1) ->
  self st self_g = o' self_g -> self st self_data = o' self_data ->
  _discretize discs {| heap := heap st; self := o'; log := l' |}
  = Ok (r, {| heap := heap st1; self := o'; log := l' |}).
Proof.
  destruct st as [h o l]. cbn [heap self]. intros H Hg Hd.
  pose proof (@_discretize_ext discs h o o' l l' Hg Hd) as E.
  rewrite H in E. exact E.
Qed.

(** Bring the states around two consecutive [_discretize] calls to
    explicit form. *)
Ltac open_states :=
  repeat match goal with
         | H : _discretize _ _ = Ok (_, ?st') |- _ =>
             is_var st'; let F := fresh "F" in
             pose proof (_discretize_frame _ _ H) as F;
             destruct st' as [? ? ?]; cbn in F; destruct F; subst
         end.

(** ** The assembly formulas, method by method *)

Lemma Implicit_reassemble_eq h (o : Obj) l sd td A bA M bM st1 st2 p0 :
  o self_space_disc = Some sd ->
  o self_time_disc = Some td ->
  o self_p0 = Some p0 ->
  _discretize sd {| heap := h; self := o; log := l |} = Ok ((A, bA), st1) ->
  _discretize td st1 = Ok ((M, bM), st2) ->
  Implicit_reassemble {| heap := h; self := o; log := l |}
  = Ok (tt, {| heap := heap st2;
               self := obj_set self_rhs (Arr (vadd (vadd (mulv M p0) bA) bM))
                         (obj_set self_lhs (Arr (madd M A)) o);
               log := l |}).
Proof.
  intros Hsd Htd Hp0 H1 H2. open_states.
  unfold Implicit_reassemble. mrun. reflexivity.
Qed.

Lemma BDF2_reassemble_eq h (o : Obj) l sd td A bA M bM st1 st2 p0 p_1
    (flag_first : bool) :
  o self_space_disc = Some sd ->
  o self_time_disc = Some td ->
  o self_p0 = Some p0 ->
  o self_p_1 = Some p_1 ->
  o self_flag_first = Some flag_first ->
  _discretize sd {| heap := h; self := o; log := l |} = Ok ((A, bA), st1) ->
  _discretize td st1 = Ok ((M, bM), st2) ->
  BDF2_reassemble {| heap := h; self := o; log := l |}
  = Ok (tt, {| heap := heap st2;
               self :=
                 if flag_first then
                   obj_set self_rhs (Arr (vadd (vadd (mulv M p0) bA) bM))
                     (obj_set self_lhs (Arr (madd M A)) o)
                 else
                   obj_set self_rhs
                     (Arr (vadd (vadd (vsub (mulv (mscale (4 # 3) M) p0)
                                            (mulv (mscale (1 # 3) M) p_1))
                                      (vscale (2 # 3) bA)) bM))
                     (obj_set self_lhs (Arr (madd M (mscale (2 # 3) A))) o);
               log := l |}).
Proof.
  intros Hsd Htd Hp0 Hp1 Hff H1 H2. open_states.
  unfold BDF2_reassemble. mrun. destruct flag_first; mrun; reflexivity.
Qed.

Lemma Explicit_reassemble_eq h (o : Obj) l sd td A bA M bM st1 st2 p0 :
  o self_space_disc = Some sd ->
  o self_time_disc = Some td ->
  o self_p0 = Some p0 ->
  _discretize sd {| heap := h; self := o; log := l |} = Ok ((A, bA), st1) ->
  _discretize td st1 = Ok ((M, bM), st2) ->
  Explicit_reassemble {| heap := h; self := o; log := l |}
  = Ok (tt, {| heap := heap st2;
               self := obj_set self_rhs
                         (Arr (vadd (vadd (mulv (msub M A) p0) bA) bM))
                         (obj_set self_lhs (Arr M) o);
               log := l |}).
Proof.
  intros Hsd Htd Hp0 H1 H2. open_states.
  unfold Explicit_reassemble. mrun. reflexivity.
Qed.

Lemma CrankNicolson_reassemble_eq h (o : Obj) l sd td A bA M bM st1 st2 p0
    lhs_flux_0 rhs_flux_0 rhs_time_0 :
  o self_space_disc = Some sd ->
  o self_time_disc = Some td ->
  o self_p0 = Some p0 ->
  o self_lhs_flux_0 = Some lhs_flux_0 ->
  o self_rhs_flux_0 = Some rhs_flux_0 ->
  o self_rhs_time_0 = Some rhs_time_0 ->
  _discretize sd {| heap := h; self := o; log := l |} = Ok ((A, bA), st1) ->
  _discretize td
    {| heap := heap st1;
       self := obj_set self_rhs_flux bA (obj_set self_lhs_flux A o);
       log := l |} = Ok ((M, bM), st2) ->
  CrankNicolson_reassemble {| heap := h; self := o; log := l |}
  = Ok (tt, {| heap := heap st2;
               self :=
                 obj_set self_rhs
                   (Arr (vadd (vadd (mulv (msub M (mscale (1 # 2) lhs_flux_0)) p0)
                                    (vscale (1 # 2) (vadd bA bM)))
                              (vscale (1 # 2) (vadd rhs_flux_0 rhs_time_0))))
                   (obj_set self_lhs (Arr (madd M (mscale (1 # 2) A)))
                      (cn_current A bA M bM o));
               log := l |}).
Proof.
  intros Hsd Htd Hp0 Hl0 Hr0 Ht0 H1 H2. open_states. cbn [heap] in H2.
  unfold CrankNicolson_reassemble. mrun. reflexivity.
Qed.

Lemma step_eq h (o : Obj) l (A : Matrix) (b : Vector) :
  o self_lhs = Some (Arr A) ->
  o self_rhs = Some (Arr b) ->
  step {| heap := h; self := o; log := l |}
  = Ok (spsolve A b,
        {| heap := h; self := obj_set self_p (spsolve A b) o;
           log := Stepped (spsolve A b) :: l |}).
Proof. intros Hl Hr. unfold step. mrun. reflexivity. Qed.

Lemma AbstractSolver_update_eq h (o : Obj) l t pb params d p dt :
  o self_problem = Some pb ->
  o self_parameters = Some params ->
  o self_data = Some d ->
  o self_p = Some p ->
  o self_dt = Some dt ->
  AbstractSolver_update t {| heap := h; self := o; log := l |}
  = Ok (tt, {| heap := problem_update pb t h;
               self := rolled (store_results params) d p t dt o;
               log := l |}).
Proof.
  intros Hpb Hpa Hd Hp Hdt. unfold AbstractSolver_update, rolled, stored.
  mrun. destruct (store_results params); mrun; reflexivity.
Qed.

Lemma BDF2_update_eq h (o : Obj) l t pb params d p p0 dt :
  o self_problem = Some pb ->
  o self_parameters = Some params ->
  o self_data = Some d ->
  o self_p = Some p ->
  o self_p0 = Some p0 ->
  o self_dt = Some dt ->
  BDF2_update t {| heap := h; self := o; log := l |}
  = Ok (tt, {| heap := problem_update pb t h;
               self := rolled (store_results params) d p t dt
                         (obj_set self_p_1 p0
                            (obj_set self_flag_first
                               (negb (Qlt_bool (dt + eps_first) t)) o));
               log := l |}).
Proof.
  intros Hpb Hpa Hd Hp Hp0 Hdt. unfold BDF2_update.
  mrun. destruct (Qlt_bool (dt + eps_first) t); mrun;
    (erewrite AbstractSolver_update_eq; [reflexivity | mrun; eauto ..]).
Qed.

Lemma CrankNicolson_update_eq h (o : Obj) l t pb params d p dt A bA M bM :
  o self_problem = Some pb ->
  o self_parameters = Some params ->
  o self_data = Some d ->
  o self_p = Some p ->
  o self_dt = Some dt ->
  o self_lhs_flux = Some A ->
  o self_rhs_flux = Some bA ->
  o self_lhs_time = Some M ->
  o self_rhs_time = Some bM ->
  CrankNicolson_update t {| heap := h; self := o; log := l |}
  = Ok (tt, {| heap := problem_update pb t h;
               self := cn_cached A bA M bM
                         (rolled (store_results params) d p t dt o);
               log := l |}).
Proof.
  intros Hpb Hpa Hd Hp Hdt HA HbA HM HbM. unfold CrankNicolson_update.
  unfold bind at 1. erewrite AbstractSolver_update_eq by eauto.
  unfold rolled. destruct (store_results params); mrun; reflexivity.
Qed.

(** ** One call of [update] *)

Lemma update_ok (cls : scheme) (pb : Problem) (t : Q) h (o : Obj) l :
  ready cls pb o ->
  exists o1,
    update cls t {| heap := h; self := o; log := l |}
    = Ok (tt, {| heap := problem_update pb t h; self := o1;
                 log := Update_exit t o1 :: Update_enter t o :: l |})
    /\ update_post cls pb t o o1.
Proof.
  intros R. pose proof R as R'.
  destruct cls; open_ready R; unfold update, update_of;
    unfold BDF2_update, CrankNicolson_update, AbstractSolver_update; mrun.
  all: try match goal with
           | |- context [Qlt_bool ?a ?b] => destruct (Qlt_bool a b) eqn:Ef; mrun
           end.
  all: match goal with
       | K : _ self_parameters = Some ?pa |- _ => destruct (store_results pa) eqn:Es
       end; mrun.
  all: eexists; split; [reflexivity|].
  all: constructor; [close_ready|..]; cbn; try tauto; try discriminate.
  all: try (intros ? ? ? Ea Eb Ec; rewrite Ea in *; rewrite Eb in *; rewrite Ec in *;
            unfold stored;
            repeat match goal with K : Some _ = Some _ |- _ => inversion K; clear K; subst end;
            try rewrite Es; reflexivity).
  all: try intros _; rewrite ?Ef; cbn; repeat split;
    solve [reflexivity | symmetry; assumption].
Qed.

(** Run the next [_discretize] call with [_discretize_ok] and name its
    result. *)
Ltac run_discretize :=
  erewrite _discretize_ok;
  [ | cbn; first [eassumption | reflexivity]
    | intros _; cbn; first [eassumption | reflexivity]
    | eassumption ];
  match goal with
  | |- context [assemble ?g ?d ?d0 ?r ?h] =>
      let E := fresh "Easm" in
      destruct (assemble g d d0 r h) as [[? ?] ?] eqn:E; cbn [fst snd]
  end.

(** ** One call of [reassemble] followed by [step] *)

Lemma advance_ok (cls : scheme) (pb : Problem) h (o : Obj) l :
  concrete cls -> ready cls pb o -> well_formed pb ->
  exists h2 o2 p',
    (reassemble cls ;; step) {| heap := h; self := o; log := l |}
    = Ok (p', {| heap := h2; self := o2; log := Stepped p' :: l |})
    /\ advance_post cls pb o o2 p'.
Proof.
  intros C R [Ws Wt].
  destruct (terms_of (problem_space_disc pb)) as [|s0 sr] eqn:Es; [congruence|].
  destruct (terms_of (problem_time_disc pb)) as [|t0 tr] eqn:Et; [congruence|].
  destruct cls; [exfalso; apply C; reflexivity|..]; open_ready R;
    unfold reassemble, Implicit_reassemble, BDF2_reassemble,
      Explicit_reassemble, CrankNicolson_reassemble, step;
    mrun; run_discretize; mrun; run_discretize; mrun.
  all: try match goal with
           | b : attr_ty self_flag_first |- _ => destruct b; mrun
           end.
  all: do 3 eexists; (split; [reflexivity|]).
  all: constructor; [close_ready|..]; cbn; solve [reflexivity | assumption].
Qed.

Arguments update : simpl never.
Arguments reassemble : simpl never.
Arguments step : simpl never.
Arguments iteration : simpl never.

(** ** One iteration of a stepping loop *)

Lemma iteration_ok (cls : scheme) (pb : Problem) (t : Q) h (o : Obj) l :
  concrete cls -> ready cls pb o -> well_formed pb ->
  exists h2 o1 o2 p',
    iteration cls t {| heap := h; self := o; log := l |}
    = Ok (p', {| heap := h2; self := o2;
                 log := Stepped p' :: Update_exit t o1 :: Update_enter t o :: l |})
    /\ update_post cls pb t o o1
    /\ advance_post cls pb o1 o2 p'
    /\ (reassemble cls ;; step)
         {| heap := problem_update pb t h; self := o1;
            log := Update_exit t o1 :: Update_enter t o :: l |}
       = Ok (p', {| heap := h2; self := o2;
                    log := Stepped p' :: Update_exit t o1
                             :: Update_enter t o :: l |}).
Proof.
  intros C R W.
  destruct (update_ok t h l R) as (o1 & E1 & P1).
  destruct (@advance_ok cls pb (problem_update pb t h) o1
              (Update_exit t o1 :: Update_enter t o :: l) C (up_ready P1) W)
    as (h2 & o2 & p' & E2 & P2).
  exists h2, o1, o2, p'. split; [|split; [|split]; assumption].
  unfold bind in E2. unfold iteration.
  open_ready R. mrun. rewrite E1. exact E2.
Qed.

(** ** Monad laws used for stepwise execution *)

Lemma bind_bind {S A B C} (m : M S A) (k1 : A -> M S B) (k2 : B -> M S C) st :
  bind (bind m k1) k2 st = bind m (fun x => bind (k1 x) k2) st.
Proof. unfold bind. destruct (m st) as [[a st']| |]; reflexivity. Qed.

Lemma bind_setattr {B} (a : attr) (v : attr_ty a) (k : unit -> M St B) h o l :
  bind (setattr a v) k {| heap := h; self := o; log := l |}
  = k tt {| heap := h; self := obj_set a v o; log := l |}.
Proof. reflexivity. Qed.

Lemma bind_getattr {B} (a : attr) (v : attr_ty a) (k : attr_ty a -> M St B)
    h (o : Obj) l :
  o a = Some v ->
  bind (getattr a) k {| heap := h; self := o; log := l |}
  = k v {| heap := h; self := o; log := l |}.
Proof. intros E. unfold bind, getattr. cbn. rewrite E. reflexivity. Qed.

Ltac mstep :=
  first [ rewrite bind_bind
        | rewrite bind_setattr
        | erewrite bind_getattr by (cbn; first [eassumption | reflexivity])
        | progress cbn beta iota ].

(** ** Construction *)

Lemma _discretize_ok_bucket (g : Grid) (discs : Discs) disc0 rest :
  forall h (o : Obj) l,
    o self_g = Some g ->
    isinstance_GridBucket g = true ->
    terms_of discs = disc0 :: rest ->
    _discretize discs {| heap := h; self := o; log := l |}
    = Ok (fst (assemble g None disc0 rest h),
          {| heap := snd (assemble g None disc0 rest h);
             self := o; log := l |}).
Proof.
  intros h o l Hg Hb Ht.
  rewrite (@_discretize_ok g {| physics := []; times := [] |} discs disc0 rest
             h o l Hg); [|congruence|assumption].
  unfold data_arg. rewrite Hb. reflexivity.
Qed.

Ltac run_discretize_bucket :=
  erewrite _discretize_ok_bucket;
  [ | cbn; reflexivity | eassumption | eassumption ];
  match goal with
  | |- context [assemble ?g ?d ?d0 ?r ?h] =>
      let E := fresh "Easm" in
      destruct (assemble g d d0 r h) as [[? ?] ?] eqn:E; cbn [fst snd]
  end.

Lemma start_ok (cls : scheme) (pb : Problem) (store : bool) h :
  (cls = CrankNicolson ->
   isinstance_GridBucket (problem_grid pb) = true /\ well_formed pb) ->
  exists h0 o0,
    (__init__ cls pb ;; set_store_results store) (fresh h)
    = Ok (tt, {| heap := h0; self := o0; log := [] |})
    /\ start_post cls pb store o0
    /\ (cls <> CrankNicolson -> h0 = h).
Proof.
  intros Hcn. unfold fresh.
  destruct cls; unfold __init__, Implicit___init__, BDF2___init__,
    Explicit___init__, CrankNicolson___init__, AbstractSolver___init__,
    set_store_results.
  5: { destruct (Hcn eq_refl) as [Hb [Ws Wt]].
       destruct (terms_of (problem_space_disc pb)) as [|s0 sr] eqn:Es; [congruence|].
       destruct (terms_of (problem_time_disc pb)) as [|t0 tr] eqn:Et; [congruence|].
       pose proof (fun h o l Hg =>
                     @_discretize_ok_bucket (problem_grid pb)
                       (problem_space_disc pb) s0 sr h o l Hg Hb Es) as Ds.
       pose proof (fun h o l Hg =>
                     @_discretize_ok_bucket (problem_grid pb)
                       (problem_time_disc pb) t0 tr h o l Hg Hb Et) as Dt.
       repeat mstep. unfold bind at 1. run_discretize_bucket.
       repeat mstep. unfold bind at 1. run_discretize_bucket.
       repeat mstep. cbn.
       do 2 eexists. split; [reflexivity|]. split; [|congruence].
       constructor; [close_ready|..]; cbn; try reflexivity; try discriminate.
       intros _.
       match type of Easm with
       | assemble _ _ _ _ ?h1 = _ =>
           pose proof (Ds h1 (obj_set self_g (problem_grid pb) new_obj) []
                         eq_refl) as E1
       end.
       match type of Easm0 with
       | assemble _ _ _ _ ?h2 = _ =>
           pose proof (Dt h2 (obj_set self_g (problem_grid pb) new_obj) []
                         eq_refl) as E2
       end.
       rewrite Easm in E1. rewrite Easm0 in E2. cbn [fst snd] in E1, E2.
       do 8 eexists. split; [exact E1|]. split; [exact E2|].
       repeat split; reflexivity. }
  all: cbn; do 2 eexists; (split; [reflexivity|]); (split; [|reflexivity]).
  all: constructor; [close_ready|..]; cbn; try reflexivity; discriminate.
Qed.

(** ** The stepping loops *)

Arguments while_body : simpl never.

Lemma while_body_ok (cls : scheme) (pb : Problem) (t : Q) h (o : Obj) l :
  concrete cls -> ready cls pb o -> well_formed pb ->
  exists h2 o1 o2 p',
    while_body cls t {| heap := h; self := o; log := l |}
    = Ok (t + problem_time_step pb,
          {| heap := h2; self := o2;
             log := Stepped p' :: Update_exit t o1 :: Update_enter t o :: l |})
    /\ iteration cls t {| heap := h; self := o; log := l |}
       = Ok (p', {| heap := h2; self := o2;
                    log := Stepped p' :: Update_exit t o1 :: Update_enter t o :: l |})
    /\ update_post cls pb t o o1
    /\ advance_post cls pb o1 o2 p'.
Proof.
  intros C R W.
  destruct (iteration_ok t h l C R W)
    as (h2 & o1 & o2 & p' & E & P1 & P2 & _).
  exists h2, o1, o2, p'. split; [|split; [exact E|split; assumption]].
  unfold while_body. unfold bind at 1. rewrite E.
  pose proof (ready_dt (ad_ready P2)) as Hdt.
  erewrite bind_getattr by eassumption. reflexivity.
Qed.

Lemma AbstractSolver_solve_cond_ok (cls : scheme) (pb : Problem) t h (o : Obj) l :
  ready cls pb o ->
  AbstractSolver_solve_cond t {| heap := h; self := o; log := l |}
  = Ok (Qlt_bool t (problem_end_time pb + eps_loop),
        {| heap := h; self := o; log := l |}).
Proof.
  intros R. unfold AbstractSolver_solve_cond.
  erewrite bind_getattr by apply (ready_T R). reflexivity.
Qed.

Lemma Explicit_solve_cond_ok (cls : scheme) (pb : Problem) t h (o : Obj) l :
  ready cls pb o ->
  Explicit_solve_cond t {| heap := h; self := o; log := l |}
  = Ok (Qlt_bool t (problem_end_time pb - problem_time_step pb + eps_loop),
        {| heap := h; self := o; log := l |}).
Proof.
  intros R. unfold Explicit_solve_cond.
  erewrite bind_getattr by apply (ready_T R).
  erewrite bind_getattr by apply (ready_dt R). reflexivity.
Qed.

Section Loop.

Variables (cls : scheme) (pb : Problem) (thr : Q) (cond : Q -> M St bool).

Hypothesis cond_ok : forall t h (o : Obj) l,
    ready cls pb o ->
    cond t {| heap := h; self := o; log := l |}
    = Ok (Qlt_bool t thr, {| heap := h; self := o; log := l |}).
Hypothesis is_concrete : concrete cls.
Hypothesis is_well_formed : well_formed pb.

(** An invariant kept by every iteration that the loop runs holds when
    the loop exits, and the test is then false. *)
Lemma loop_safe (I : Q -> St -> Prop) :
  (forall t st p' st',
      ready cls pb (self st) -> I t st -> Qlt_bool t thr = true ->
      iteration cls t st = Ok (p', st') ->
      I (t + problem_time_step pb) st') ->
  forall fuel t st t' st',
    ready cls pb (self st) -> I t st ->
    while_ cond (while_body cls) fuel t st = Ok (t', st') ->
    ready cls pb (self st') /\ I t' st' /\ Qlt_bool t' thr = false.
Proof.
  intros Hstep fuel t st t' st' R HI H.
  pose (J := fun t st => ready cls pb (self st) /\ I t st).
  destruct (@while_safe St Q cond (while_body cls) J) with
    (fuel := fuel) (t := t) (st := st) (t' := t') (st' := st')
    as [[R' HI'] Hc]; try assumption.
  - intros t0 [h o l] c st1 [R0 _] E. cbn in R0.
    rewrite (cond_ok t0 h l R0) in E. inversion E; reflexivity.
  - intros t0 [h o l] t1 st1 [R0 I0] Ec Eb. cbn in R0.
    rewrite (cond_ok t0 h l R0) in Ec.
    destruct (while_body_ok t0 h l is_concrete R0 is_well_formed)
      as (h2 & o1 & o2 & p' & E1 & E2 & P1 & P2).
    rewrite E1 in Eb. inversion Eb; subst. unfold J; split.
    + cbn. apply (ad_ready P2).
    + apply (Hstep t0 {| heap := h; self := o; log := l |} p');
        [exact R0 | exact I0 | | exact E2].
      inversion Ec. reflexivity.
  - split; assumption.
  - split; [assumption|split; [assumption|]].
    destruct st' as [h' o' l']. cbn in R'.
    rewrite (cond_ok t' h' l' R') in Hc. inversion Hc. reflexivity.
Qed.

(** With a positive step the loop ends: [m] steps suffice when the
    threshold is at most [m] steps away. *)
Lemma loop_total (m : nat) :
  0 < problem_time_step pb ->
  forall t st,
    ready cls pb (self st) ->
    thr - t <= inject_Z (Z.of_nat m) * problem_time_step pb ->
    exists n t' st',
      (n <= m)%nat /\
      forall fuel, (n <= fuel)%nat ->
                   while_ cond (while_body cls) fuel t st = Ok (t', st').
Proof.
  intros Hdt t st R Hm.
  pose (B := fun (m : nat) (t : Q) (st : St) =>
               ready cls pb (self st) /\
               thr - t <= inject_Z (Z.of_nat m) * problem_time_step pb).
  apply (@while_total St Q cond (while_body cls) B); [| |split; assumption].
  - intros t0 [h o l] [R0 Hb]. cbn in R0.
    rewrite (cond_ok t0 h l R0). f_equal. f_equal.
    unfold Qlt_bool. rewrite negb_false_iff. apply Qle_bool_iff.
    change (inject_Z (Z.of_nat 0)) with 0 in Hb. lra.
  - intros m0 t0 [h o l] [R0 Hb]. cbn in R0.
    rewrite (cond_ok t0 h l R0).
    destruct (Qlt_bool t0 thr) eqn:Et; [right|left; reflexivity].
    split; [reflexivity|].
    destruct (while_body_ok t0 h l is_concrete R0 is_well_formed)
      as (h2 & o1 & o2 & p' & E1 & E2 & P1 & P2).
    do 2 eexists. split; [exact E1|]. split.
    + cbn. apply (ad_ready P2).
    + rewrite Nat2Z.inj_succ, <- Z.add_1_r, inject_Z_plus in Hb.
      change (inject_Z 1) with 1 in Hb.
      apply Qlt_bool_true in Et. clear - Hb Hdt. cbn [heap self log]. lra.
Qed.

End Loop.

(** ** Whole runs *)

Lemma solve_cond_ok (cls : scheme) (pb : Problem) t h (o : Obj) l :
  ready cls pb o ->
  solve_cond cls t {| heap := h; self := o; log := l |}
  = Ok (Qlt_bool t (threshold cls pb), {| heap := h; self := o; log := l |}).
Proof.
  intros R. destruct cls; cbn [solve_cond threshold];
    first [apply (AbstractSolver_solve_cond_ok _ _ _ R)
          | apply (Explicit_solve_cond_ok _ _ _ R)].
Qed.

(** On a single grid [_discretize] needs [self.data]. *)
Lemma _discretize_no_data (g : Grid) (discs : Discs) h (o : Obj) l :
  o self_g = Some g ->
  isinstance_GridBucket g = false ->
  o self_data = None ->
  _discretize discs {| heap := h; self := o; log := l |}
  = Raise (match terms_of discs with
           | [] => IndexError
           | _ :: _ => AttributeError
           end).
Proof.
  intros Hg Hb Hd. unfold _discretize. fold (terms_of discs).
  destruct (terms_of discs); mrun; rewrite ?Hb; mrun; reflexivity.
Qed.

Lemma CrankNicolson_init_single (pb : Problem) h :
  isinstance_GridBucket (problem_grid pb) = false ->
  __init__ CrankNicolson pb (fresh h)
  = Raise (match terms_of (problem_space_disc pb) with
           | [] => IndexError
           | _ :: _ => AttributeError
           end).
Proof.
  intros Hg. unfold __init__, CrankNicolson___init__, fresh.
  rewrite bind_setattr. unfold bind at 1.
  erewrite _discretize_no_data; [reflexivity|reflexivity|exact Hg|reflexivity].
Qed.

(** [solve], with its loop singled out. *)
Lemma solve_unfold (cls : scheme) (pb : Problem) fuel h (o : Obj) l :
  ready cls pb o ->
  solve cls fuel {| heap := h; self := o; log := l |}
  = match while_ (solve_cond cls) (while_body cls) fuel (first_time cls pb)
            {| heap := h; self := o; log := l |} with
    | Ok (t', st1) =>
        match cls with
        | Explicit => getattr self_data st1
        | _ => (update cls t' ;; getattr self_data) st1
        end
    | Raise e => Raise e
    | OutOfFuel => OutOfFuel
    end.
Proof.
  intros R.
  destruct cls; unfold solve, AbstractSolver_solve, Explicit_solve;
    cbn [solve_cond first_time];
    try (erewrite bind_getattr by apply (ready_dt R)); reflexivity.
Qed.

(** The end of [solve]. *)
Lemma finish_ok (cls : scheme) (pb : Problem) t' h (o : Obj) l :
  ready cls pb o ->
  exists d st,
    match cls with
    | Explicit => getattr self_data {| heap := h; self := o; log := l |}
    | _ => (update cls t' ;; getattr self_data)
             {| heap := h; self := o; log := l |}
    end = Ok (d, st)
    /\ finished cls pb t' {| heap := h; self := o; log := l |} d st.
Proof.
  intros R.
  destruct (update_ok t' h l R) as (o1 & E1 & P1).
  pose proof (up_ready P1) as R1.
  destruct (ready_base R) as [[d Hd] _].
  destruct (ready_base R1) as [[d1 Hd1] _].
  destruct cls; unfold finished;
    try (exists d1; eexists; split;
         [unfold bind; rewrite E1; unfold getattr; cbn [self]; rewrite Hd1;
          reflexivity
         |exists o1; cbn [heap self log]; auto]).
  exists d. eexists. split.
  - unfold getattr. cbn [self]. rewrite Hd. reflexivity.
  - split; [reflexivity|exact Hd].
Qed.

Lemma run_unfold (cls : scheme) (pb : Problem) (store : bool) fuel h :
  run cls pb store fuel h
  = match (__init__ cls pb ;; set_store_results store) (fresh h) with
    | Ok (_, st0) => solve cls fuel st0
    | Raise e => Raise e
    | OutOfFuel => OutOfFuel
    end.
Proof.
  unfold run. fold (fresh h).
  rewrite <- (bind_bind (__init__ cls pb) (fun _ => set_store_results store)
                (fun _ => solve cls fuel)).
  reflexivity.
Qed.

(** A run that returns was started on an instance that could be
    constructed. *)
Lemma run_Ok_start (cls : scheme) (pb : Problem) (store : bool) fuel h d st :
  well_formed pb ->
  run cls pb store fuel h = Ok (d, st) ->
  exists h0 o0,
    (__init__ cls pb ;; set_store_results store) (fresh h)
    = Ok (tt, {| heap := h0; self := o0; log := [] |})
    /\ start_post cls pb store o0
    /\ solve cls fuel {| heap := h0; self := o0; log := [] |} = Ok (d, st).
Proof.
  intros W H.
  assert (Hcn : cls = CrankNicolson ->
                isinstance_GridBucket (problem_grid pb) = true /\ well_formed pb).
  { intros ->. split; [|exact W].
    destruct (isinstance_GridBucket (problem_grid pb)) eqn:Eg; [reflexivity|].
    unfold run in H. fold (fresh h) in H. unfold bind at 1 in H.
    rewrite (CrankNicolson_init_single pb h Eg) in H. discriminate. }
  destruct (start_ok store h Hcn) as (h0 & o0 & E0 & P0 & _).
  exists h0, o0. split; [exact E0|split; [exact P0|]].
  rewrite run_unfold, E0 in H. exact H.
Qed.

Section Runs.

Variables (cls : scheme) (pb : Problem) (store : bool).
Hypothesis is_concrete : concrete cls.
Hypothesis is_well_formed : well_formed pb.

(** Safety: an invariant that holds on the constructed instance and that
    iterations keep holds when the loop of a returning run exits. *)
Lemma run_safe (I : Q -> St -> Prop) :
  (forall h0 o0,
      start_post cls pb store o0 ->
      I (first_time cls pb) {| heap := h0; self := o0; log := [] |}) ->
  (forall t st p' st',
      ready cls pb (self st) -> I t st ->
      Qlt_bool t (threshold cls pb) = true ->
      iteration cls t st = Ok (p', st') ->
      I (t + problem_time_step pb) st') ->
  forall fuel h d st,
    run cls pb store fuel h = Ok (d, st) ->
    exists t' st1,
      ready cls pb (self st1) /\ I t' st1 /\
      Qlt_bool t' (threshold cls pb) = false /\
      finished cls pb t' st1 d st.
Proof.
  intros Hinit Hstep fuel h d st H.
  destruct (@run_Ok_start cls pb store fuel h d st is_well_formed H)
    as (h0 & o0 & _ & P0 & Hs).
  pose proof (sp_ready P0) as R0.
  rewrite (solve_unfold fuel h0 [] R0) in Hs.
  destruct (while_ (solve_cond cls) (while_body cls) fuel (first_time cls pb)
              {| heap := h0; self := o0; log := [] |})
    as [[t' st1]| |] eqn:Ew; try discriminate.
  destruct (@loop_safe cls pb (threshold cls pb) (solve_cond cls)
              (fun t h o l => @solve_cond_ok cls pb t h o l)
              is_concrete is_well_formed I Hstep fuel (first_time cls pb)
              {| heap := h0; self := o0; log := [] |} t' st1 R0
              (Hinit h0 o0 P0) Ew) as (R1 & I1 & C1).
  exists t', st1. split; [exact R1|split; [exact I1|split; [exact C1|]]].
  destruct st1 as [h1 o1 l1]. cbn [self] in R1.
  destruct (finish_ok t' h1 l1 R1) as (d' & st' & Ef & F).
  assert (E : Ok (d', st') = Ok (d, st)).
  { rewrite <- Hs. symmetry. destruct cls; exact Ef. }
  inversion E; subst. exact F.
Qed.

(** Totality: with the threshold at most [m] steps away from the first
    time, the run returns with any fuel from some [n <= m] on. *)
Lemma run_total (m : nat) h :
  0 < problem_time_step pb ->
  (cls = CrankNicolson -> isinstance_GridBucket (problem_grid pb) = true) ->
  threshold cls pb - first_time cls pb
    <= inject_Z (Z.of_nat m) * problem_time_step pb ->
  exists n d st,
    (n <= m)%nat /\
    forall fuel, (n <= fuel)%nat -> run cls pb store fuel h = Ok (d, st).
Proof.
  intros Hdt Hb Hm.
  destruct (@start_ok cls pb store h
              (fun E => conj (Hb E) is_well_formed)) as (h0 & o0 & E0 & P0 & _).
  pose proof (sp_ready P0) as R0.
  destruct (@loop_total cls pb (threshold cls pb) (solve_cond cls)
              (fun t h o l => @solve_cond_ok cls pb t h o l)
              is_concrete is_well_formed m Hdt (first_time cls pb)
              {| heap := h0; self := o0; log := [] |} R0 Hm)
    as (n & t' & st1 & Hn & Hw).
  assert (R1 : ready cls pb (self st1)).
  { destruct (@loop_safe cls pb (threshold cls pb) (solve_cond cls)
                (fun t h o l => @solve_cond_ok cls pb t h o l)
                is_concrete is_well_formed (fun _ _ => True)
                (fun _ _ _ _ _ _ _ _ => Logic.I) n (first_time cls pb)
                {| heap := h0; self := o0; log := [] |} t' st1 R0 Logic.I
                (Hw n (le_n n)))
      as (R1 & _). exact R1. }
  destruct st1 as [h1 o1 l1]. cbn [self] in R1.
  destruct (finish_ok t' h1 l1 R1) as (d & st & Ef & F).
  exists n, d, st. split; [exact Hn|]. intros fuel Hf.
  rewrite run_unfold, E0, (solve_unfold fuel h0 [] R0), (Hw fuel Hf).
  destruct cls; exact Ef.
Qed.

End Runs.

(** ** The first step of Implicit and of BDF2 *)

Lemma _discretize_empty (g : Grid) (discs : Discs) h (o : Obj) l :
  o self_g = Some g ->
  terms_of discs = [] ->
  _discretize discs {| heap := h; self := o; log := l |} = Raise IndexError.
Proof.
  intros Hg Ht. unfold _discretize. rewrite Ht.
  mrun. destruct (isinstance_GridBucket g); reflexivity.
Qed.

Lemma first_flag (dt : Q) : Qlt_bool (dt + eps_first) dt = false.
Proof. apply Qlt_bool_ge. unfold eps_first. lra. Qed.

Lemma first_step_outcome (cls : scheme) (pb : Problem) (store : bool) h :
  cls = Implicit \/ cls = BDF2 ->
  observed (first_step cls pb store h) = implicit_first_outcome pb store h.
Proof.
  intros Hcls.
  destruct (@start_ok cls pb store h) as (h0 & o0 & E0 & P0 & Hh).
  { intros ->. destruct Hcls; discriminate. }
  rewrite Hh in E0 by (intros ->; destruct Hcls; discriminate). clear Hh h0.
  unfold first_step.
  rewrite <- (bind_bind (__init__ cls pb) (fun _ => set_store_results store)).
  unfold bind at 1. rewrite E0.
  destruct P0 as [R Hp Hp0 Hd Hpa Hp1 _].
  destruct R as [Rpb Rg Rdt RT Rsd Rtd _ _].
  pose proof (first_flag (problem_time_step pb)) as Hflag.
  unfold implicit_first_outcome.
  destruct Hcls as [-> | ->].
  - unfold iteration, update, update_of, AbstractSolver_update, reassemble,
      Implicit_reassemble, step.
    destruct store; mrun;
      (destruct (terms_of (problem_space_disc pb)) as [|s0 sr] eqn:Es;
       [erewrite _discretize_empty by (cbn; eassumption); reflexivity|]);
      run_discretize; mrun;
      (destruct (terms_of (problem_time_disc pb)) as [|t0 tr] eqn:Et;
       [erewrite _discretize_empty by (cbn; eassumption); reflexivity|]);
      run_discretize; mrun; reflexivity.
  - specialize (Hp1 eq_refl).
    unfold iteration, update, update_of, BDF2_update, AbstractSolver_update,
      reassemble, BDF2_reassemble, step.
    destruct store; mrun; rewrite Hflag; mrun;
      (destruct (terms_of (problem_space_disc pb)) as [|s0 sr] eqn:Es;
       [erewrite _discretize_empty by (cbn; eassumption); reflexivity|]);
      run_discretize; mrun;
      (destruct (terms_of (problem_time_disc pb)) as [|t0 tr] eqn:Et;
       [erewrite _discretize_empty by (cbn; eassumption); reflexivity|]);
      run_discretize; mrun; reflexivity.
Qed.

(** ** Reading an iteration back *)

Lemma iteration_inv (cls : scheme) (pb : Problem) (t : Q) st p' st' :
  concrete cls -> well_formed pb -> ready cls pb (self st) ->
  iteration cls t st = Ok (p', st') ->
  exists o1,
    log st' = Stepped p' :: Update_exit t o1 :: Update_enter t (self st) :: log st
    /\ update_post cls pb t (self st) o1
    /\ advance_post cls pb o1 (self st') p'
    /\ (reassemble cls ;; step)
         {| heap := problem_update pb t (heap st); self := o1;
            log := Update_exit t o1 :: Update_enter t (self st) :: log st |}
       = Ok (p', st').
Proof.
  intros C W R H. destruct st as [h o l]. cbn [heap self log] in *.
  destruct (iteration_ok t h l C R W)
    as (h2 & o1 & o2 & p2 & E & P1 & P2 & E2).
  rewrite E in H. inversion H; subst. exists o1. cbn [self log]. auto.
Qed.

Lemma finished_log (cls : scheme) (pb : Problem) t' st1 d st :
  finished cls pb t' st1 d st ->
  steps_taken (log st) = steps_taken (log st1) /\
  updates_called (log st)
  = (updates_called (log st1) + match cls with Explicit => 0 | _ => 1 end)%nat.
Proof.
  unfold finished.
  destruct cls; try (intros (o1 & -> & _); cbn; split; [reflexivity|lia]).
  intros [-> _]. split; [reflexivity|lia].
Qed.

Lemma scale_le (a b : nat) (dt : Q) :
  0 <= dt -> (a <= b)%nat ->
  inject_Z (Z.of_nat a) * dt <= inject_Z (Z.of_nat b) * dt.
Proof.
  intros Hdt Hab. apply Qmult_le_compat_r; [|exact Hdt].
  rewrite <- Zle_Qle. lia.
Qed.

Lemma inject_succ (k : nat) :
  inject_Z (Z.of_nat (S k)) == inject_Z (Z.of_nat k) + 1.
Proof. rewrite Nat2Z.inj_succ, <- Z.add_1_r, inject_Z_plus. reflexivity. Qed.

(** ** The number of iterations when [T] is a multiple of [dt] *)


(** * The claims *)

(** C3. Every [reassemble()] of the Implicit scheme sets the linear system
    from the space-term pair [(lhs_A, rhs_A)] and the time-term pair
    [(lhs_M, rhs_M)] that [_discretize] returns: [lhs = lhs_M + lhs_A] and
    [rhs = lhs_M * p0 + rhs_A + rhs_M], with [p0] the previous-step
    solution; nothing else of the instance changes. *)
Theorem Implicit_reassemble_formula
    (st st1 st2 : St) (sd td : Discs) (p0 : Vector)
    (lhs_A : Matrix) (rhs_A : Vector) (lhs_M : Matrix) (rhs_M : Vector) :
  self st self_space_disc = Some sd ->
  self st self_time_disc = Some td ->
  self st self_p0 = Some p0 ->
  _discretize sd st = Ok ((lhs_A, rhs_A), st1) ->
  _discretize td st1 = Ok ((lhs_M, rhs_M), st2) ->
  reassemble Implicit st
  = Ok (tt, {| heap := heap st2;
               self := obj_set self_rhs
                         (Arr (vadd (vadd (mulv lhs_M p0) rhs_A) rhs_M))
                         (obj_set self_lhs (Arr (madd lhs_M lhs_A)) (self st));
               log := log st |}).
Proof.
  destruct st as [h o l]. cbn [self log]. intros Hsd Htd Hp0 H1 H2.
  eapply Implicit_reassemble_eq; eassumption.
Qed.

(** C5. A BDF2 [update(t)] with [t > dt + 1e-6] clears the first-step flag
    (the flag is computed from [t] at every call), sets [p_1] to the
    previous [p0] and then [p0] to the current solution; the [reassemble()]
    that follows sets [lhs = lhs_M + (2/3) lhs_A] and
    [rhs = (4/3) lhs_M p0 - (1/3) lhs_M p_1 + (2/3) rhs_A + rhs_M]. *)
Theorem BDF2_later_step_formula
    (st : St) (t dt : Q) (pb : Problem) (params : Parameters) (d : Data)
    (p p0 : Vector) :
  self st self_problem = Some pb ->
  self st self_parameters = Some params ->
  self st self_data = Some d ->
  self st self_dt = Some dt ->
  self st self_p = Some p ->
  self st self_p0 = Some p0 ->
  dt + eps_first < t ->
  exists st1,
    update BDF2 t st = Ok (tt, st1) /\
    self st1 self_flag_first = Some false /\
    self st1 self_p_1 = Some p0 /\
    self st1 self_p0 = Some p /\
    forall sd td lhs_A rhs_A lhs_M rhs_M st2 st3,
      self st self_space_disc = Some sd ->
      self st self_time_disc = Some td ->
      _discretize sd st1 = Ok ((lhs_A, rhs_A), st2) ->
      _discretize td st2 = Ok ((lhs_M, rhs_M), st3) ->
      reassemble BDF2 st1
      = Ok (tt, {| heap := heap st3;
                   self :=
                     obj_set self_rhs
                       (Arr (vadd (vadd (vsub (mulv (mscale (4 # 3) lhs_M) p)
                                              (mulv (mscale (1 # 3) lhs_M) p0))
                                        (vscale (2 # 3) rhs_A)) rhs_M))
                       (obj_set self_lhs
                          (Arr (madd lhs_M (mscale (2 # 3) lhs_A))) (self st1));
                   log := log st1 |}).
Proof.
  destruct st as [h o l]. cbn [self]. intros Hpb Hpa Hd Hdt Hp Hp0 Ht.
  apply Qlt_bool_lt in Ht.
  eexists. split.
  - unfold update, update_of. unfold bind at 1. unfold snapshot at 1.
    unfold bind at 1. unfold log_event at 1. cbn [heap self log].
    unfold bind at 1. erewrite BDF2_update_eq by eassumption.
    unfold bind at 1. unfold snapshot at 1. unfold log_event.
    cbn [heap self log]. reflexivity.
  - rewrite Ht. cbn [negb].
    assert (Hflag : rolled (store_results params) d p t dt
                      (obj_set self_p_1 p0 (obj_set self_flag_first false o))
                      self_flag_first = Some false)
      by (unfold rolled; destruct (store_results params); reflexivity).
    assert (Hp1 : rolled (store_results params) d p t dt
                    (obj_set self_p_1 p0 (obj_set self_flag_first false o))
                    self_p_1 = Some p0)
      by (unfold rolled; destruct (store_results params); reflexivity).
    assert (Hp0' : rolled (store_results params) d p t dt
                     (obj_set self_p_1 p0 (obj_set self_flag_first false o))
                     self_p0 = Some p)
      by (unfold rolled; destruct (store_results params); reflexivity).
    split; [exact Hflag|]. split; [exact Hp1|]. split; [exact Hp0'|].
    intros sd td lhs_A rhs_A lhs_M rhs_M st2 st3 Hsd Htd H1 H2.
    cbn [self log heap].
    unfold reassemble.
    erewrite (@BDF2_reassemble_eq _ _ _ sd td lhs_A rhs_A lhs_M rhs_M st2 st3
                p p0 false);
      [reflexivity| | |exact Hp0'|exact Hp1|exact Hflag|exact H1|exact H2];
      unfold rolled; destruct (store_results params); assumption.
Qed.


(** C10. On a problem whose domain is a single grid the constructor of
    [CrankNicolson] raises [AttributeError]: its first [_discretize] call
    reads [self.data], which only the base initializer, called last,
    assigns.  No run gets as far as stepping.  (The space discretization
    holds at least one term; with none, [discs[0]] fails first.) *)
Theorem CrankNicolson_single_grid_fails
    (pb : Problem) (id : nat) (h : Env) :
  problem_grid pb = SingleGrid id ->
  terms_of (problem_space_disc pb) <> [] ->
  (obj_set self_g (problem_grid pb) new_obj) self_data = None /\
  _discretize (problem_space_disc pb)
    {| heap := h; self := obj_set self_g (problem_grid pb) new_obj; log := [] |}
  = Raise AttributeError /\
  __init__ CrankNicolson pb (fresh h) = Raise AttributeError /\
  forall store fuel, run CrankNicolson pb store fuel h = Raise AttributeError.
Proof.
  intros Hg Ht.
  assert (Hb : isinstance_GridBucket (problem_grid pb) = false)
    by (rewrite Hg; reflexivity).
  assert (Hi : __init__ CrankNicolson pb (fresh h) = Raise AttributeError).
  { rewrite (CrankNicolson_init_single pb h Hb).
    destruct (terms_of (problem_space_disc pb)); [congruence|reflexivity]. }
  split; [reflexivity|]. split; [|split; [exact Hi|]].
  - erewrite _discretize_no_data; [|reflexivity|exact Hb|reflexivity].
    destruct (terms_of (problem_space_disc pb)); [congruence|reflexivity].
  - intros store fuel. unfold run. fold (fresh h). unfold bind at 1.
    rewrite Hi. reflexivity.
Qed.

(** C4. On identical inputs the first step of BDF2 leaves the same
    solution, the same linear system, the same data store and the same
    heap as the first step of Implicit (and fails as it does): at
    [t = dt] the test [t > dt + 1e-6] is false, so BDF2 assembles with
    the Implicit formula. *)
Theorem BDF2_first_step_is_Implicit
    (pb : Problem) (store : bool) (h : Env) :
  observed (first_step BDF2 pb store h)
  = observed (first_step Implicit pb store h).
Proof.
  rewrite !first_step_outcome by auto. reflexivity.
Qed.


Lemma history_ok_stored (store : bool) (d : Data) p t dt n :
  history_ok store d n -> history_ok store (stored store d p t dt) (S n).
Proof.
  unfold history_ok, stored. destruct store; [|auto].
  intros [H1 H2]. cbn [physics times]. rewrite !length_app. cbn. lia.
Qed.

(** C2, amended. In every run of one of the four schemes that returns,
    the history holds one entry per [update] call when [store_results]
    is on, and is empty when it is off; and the number of [update]
    calls is the number of steps for Explicit, one more than the number
    of steps for the schemes that run [AbstractSolver.solve]. *)
Theorem history_counts_updates
    (cls : scheme) (pb : Problem) (store : bool) (fuel : nat) (h : Env)
    (d : Data) (st : St) :
  concrete cls ->
  well_formed pb ->
  run cls pb store fuel h = Ok (d, st) ->
  history_ok store d (updates_called (log st)) /\
  updates_called (log st)
  = (steps_taken (log st) + match cls with Explicit => 0 | _ => 1 end)%nat.
Proof.
  intros C W H.
  pose (I := fun (_ : Q) (st : St) =>
               exists d0 pa,
                 self st self_data = Some d0 /\
                 self st self_parameters = Some pa /\
                 store_results pa = store /\
                 history_ok store d0 (updates_called (log st)) /\
                 updates_called (log st) = steps_taken (log st)).
  assert (Hup : forall t o o1 l d0 pa,
             ready cls pb o -> update_post cls pb t o o1 ->
             o self_data = Some d0 -> o self_parameters = Some pa ->
             store_results pa = store ->
             history_ok store d0 (updates_called l) ->
             exists d1,
               o1 self_data = Some d1 /\ o1 self_parameters = Some pa /\
               history_ok store d1 (S (updates_called l))).
  { intros t o o1 l d0 pa R P Hd Hpa Hs Hh.
    destruct (ready_base R) as (_ & _ & [p Hp] & _).
    eexists. split; [apply (up_data P Hpa Hd Hp)|].
    split; [rewrite (up_parameters P); exact Hpa|].
    rewrite Hs. apply history_ok_stored. exact Hh. }
  destruct (@run_safe cls pb store C W I) with
    (fuel := fuel) (h := h) (d := d) (st := st)
    as (t' & st1 & R1 & (d0 & pa & Hd & Hpa & Hs & Hh & Hu) & _ & F);
    [| |exact H|].
  - intros h0 o0 P0. exists {| physics := []; times := [] |}.
    eexists. cbn [self log]. split; [apply (sp_data P0)|].
    split; [apply (sp_parameters P0)|]. split; [reflexivity|].
    split; [|reflexivity]. unfold history_ok. destruct store; auto.
  - intros t st0 p' st0' R0 (d0 & pa & Hd & Hpa & Hs & Hh & Hu) _ Hi.
    destruct (@iteration_inv cls pb t st0 p' st0' C W R0 Hi)
      as (o1 & Hl & P1 & P2 & _).
    destruct (Hup t _ _ (log st0) d0 pa R0 P1 Hd Hpa Hs Hh)
      as (d1 & Hd1 & Hpa1 & Hh1).
    exists d1, pa. rewrite (ad_data P2), (ad_parameters P2), Hl.
    cbn [steps_taken updates_called].
    repeat split; try assumption. congruence.
  - destruct (@finished_log cls pb t' st1 d st F) as [Fs Fu].
    split; [|lia].
    assert (Hfin : forall o1,
               st = {| heap := problem_update pb t' (heap st1); self := o1;
                       log := Update_exit t' o1 :: Update_enter t' (self st1)
                                :: log st1 |} ->
               update_post cls pb t' (self st1) o1 ->
               o1 self_data = Some d ->
               history_ok store d (updates_called (log st))).
    { intros o1 -> P1 Hd1.
      destruct (Hup t' _ _ (log st1) d0 pa R1 P1 Hd Hpa Hs Hh)
        as (d1 & Hd1' & _ & Hh1).
      rewrite Hd1 in Hd1'. inversion Hd1'; subst d1. exact Hh1. }
    unfold finished in F.
    destruct cls; try (destruct F as (o1 & E & P1 & Hd1); eauto).
    destruct F as [-> Hd1]. rewrite Hd in Hd1. inversion Hd1; subst. exact Hh.
Qed.

(** C8, amended. In every run of one of the four schemes that returns,
    at the start of each [update(t)] call it is [p] that holds the
    solution accepted at the end of the previous step (the initial
    condition on the first call), [p0] still holding the one before it;
    when the call returns, [p0] holds the solution accepted at the end
    of the previous step, and for BDF2 [p_1] holds the solution accepted
    two steps prior (the initial condition during the first two
    steps). *)
Theorem update_rolls_the_history
    (cls : scheme) (pb : Problem) (store : bool) (fuel : nat) (h : Env)
    (d : Data) (st : St) :
  concrete cls ->
  well_formed pb ->
  run cls pb store fuel h = Ok (d, st) ->
  update_calls_ok cls (problem_initial_condition pb) (log st).
Proof.
  intros C W H.
  set (ic := problem_initial_condition pb).
  pose (I := fun (_ : Q) (st : St) =>
               update_calls_ok cls ic (log st) /\
               self st self_p = Some (last_solution ic (log st)) /\
               self st self_p0 = Some (previous_solution ic (log st))).
  assert (Hup : forall t o o1 l,
             update_post cls pb t o o1 ->
             update_calls_ok cls ic l ->
             o self_p = Some (last_solution ic l) ->
             o self_p0 = Some (previous_solution ic l) ->
             update_calls_ok cls ic (Update_exit t o1 :: Update_enter t o :: l)).
  { intros t o o1 l P Hok Hp Hp0. cbn [update_calls_ok last_solution
                                         previous_solution].
    repeat split; try assumption.
    - rewrite (up_p0 P). exact Hp.
    - intros E. destruct (up_bdf2 P E) as [E1 _]. rewrite E1. exact Hp0. }
  destruct (@run_safe cls pb store C W I) with
    (fuel := fuel) (h := h) (d := d) (st := st)
    as (t' & st1 & R1 & (Hok & Hp & Hp0) & _ & F); [| |exact H|].
  - intros h0 o0 P0. unfold I. cbn.
    split; [exact Logic.I|]. split; [apply (sp_p P0)|apply (sp_p0 P0)].
  - intros t st0 p' st0' R0 (Hok & Hp & Hp0) _ Hi.
    destruct (@iteration_inv cls pb t st0 p' st0' C W R0 Hi)
      as (o1 & Hl & P1 & P2 & _).
    unfold I. rewrite Hl.
    split; [exact (Hup t _ _ _ P1 Hok Hp Hp0)|].
    cbn [last_solution previous_solution].
    split; [apply (ad_p P2)|].
    rewrite (ad_p0 P2), (up_p0 P1). exact Hp.
  - unfold finished in F.
    destruct cls;
      try (destruct F as (o1 & -> & P1 & _); cbn [log];
           exact (Hup t' _ _ _ P1 Hok Hp Hp0)).
    destruct F as [-> _]. exact Hok.
Qed.

Section WithLaws.

Context {LAL : LinAlgLaws LA}.

Lemma vadd_rotate (x y z : Vector) :
  vadd (vadd x y) z = vadd (vadd y z) x.
Proof. rewrite <- vadd_assoc. apply vadd_comm. Qed.

(** C6. Every [reassemble()] of the Crank-Nicolson scheme stores the pairs
    of the current step and forms [lhs = lhs_time + 0.5 lhs_flux] and
    [rhs = 0.5 (rhs_flux + rhs_time) + 0.5 (rhs_flux_0 + rhs_time_0)
           + (lhs_time - 0.5 lhs_flux_0) p0], the [*_0] values being the
    cached ones; and the [update(t)] that follows the step makes the pairs
    just computed the new [*_0] cache. *)
Theorem CrankNicolson_step_formula
    (st st1 st2 : St) (sd td : Discs) (p0 : Vector)
    (lhs_flux_0 : Matrix) (rhs_flux_0 rhs_time_0 : Vector)
    (lhs_flux : Matrix) (rhs_flux : Vector)
    (lhs_time : Matrix) (rhs_time : Vector) :
  self st self_space_disc = Some sd ->
  self st self_time_disc = Some td ->
  self st self_p0 = Some p0 ->
  self st self_lhs_flux_0 = Some lhs_flux_0 ->
  self st self_rhs_flux_0 = Some rhs_flux_0 ->
  self st self_rhs_time_0 = Some rhs_time_0 ->
  _discretize sd st = Ok ((lhs_flux, rhs_flux), st1) ->
  _discretize td st1 = Ok ((lhs_time, rhs_time), st2) ->
  let st' :=
    {| heap := heap st2;
       self :=
         obj_set self_rhs
           (Arr (vadd (vadd (vscale (1 # 2) (vadd rhs_flux rhs_time))
                            (vscale (1 # 2) (vadd rhs_flux_0 rhs_time_0)))
                      (mulv (msub lhs_time (mscale (1 # 2) lhs_flux_0)) p0)))
           (obj_set self_lhs (Arr (madd lhs_time (mscale (1 # 2) lhs_flux)))
              (cn_current lhs_flux rhs_flux lhs_time rhs_time (self st)));
       log := log st |} in
  reassemble CrankNicolson st = Ok (tt, st') /\
  forall t pb params d dt p' st'',
    self st self_problem = Some pb ->
    self st self_parameters = Some params ->
    self st self_data = Some d ->
    self st self_dt = Some dt ->
    step st' = Ok (p', st'') ->
    exists st3,
      update CrankNicolson t st'' = Ok (tt, st3) /\
      self st3 self_lhs_flux_0 = Some lhs_flux /\
      self st3 self_rhs_flux_0 = Some rhs_flux /\
      self st3 self_lhs_time_0 = Some lhs_time /\
      self st3 self_rhs_time_0 = Some rhs_time.
Proof.
  destruct st as [h o l]. cbn [self log heap].
  intros Hsd Htd Hp0 Hl0 Hr0 Ht0 H1 H2.
  pose proof (_discretize_frame _ _ H1) as [F1 _]. cbn [self] in F1.
  assert (H2' : _discretize td
                  {| heap := heap st1;
                     self := obj_set self_rhs_flux rhs_flux
                               (obj_set self_lhs_flux lhs_flux o);
                     log := l |}
                = Ok ((lhs_time, rhs_time),
                      {| heap := heap st2;
                         self := obj_set self_rhs_flux rhs_flux
                                   (obj_set self_lhs_flux lhs_flux o);
                         log := l |})).
  { eapply _discretize_transfer; [exact H2| |]; rewrite F1; reflexivity. }
  split.
  - unfold reassemble.
    erewrite CrankNicolson_reassemble_eq by eassumption.
    cbn [heap]. rewrite vadd_rotate. reflexivity.
  - intros t pb params d dt p' st'' Hpb Hpa Hd Hdt Hs.
    erewrite step_eq in Hs by reflexivity.
    inversion Hs; subst p' st''; clear Hs.
    eexists. split.
    + unfold update, update_of. unfold bind at 1. unfold snapshot at 1.
      unfold bind at 1. unfold log_event at 1. cbn [heap self log].
      unfold bind at 1.
      erewrite (@CrankNicolson_update_eq _ _ _ t pb params d _ dt
                  lhs_flux rhs_flux lhs_time rhs_time)
        by (try reflexivity; cbn; assumption).
      unfold bind at 1. unfold snapshot at 1. unfold log_event.
      cbn [heap self log]. reflexivity.
    + cbn [self]. repeat split; reflexivity.
Qed.

(** ** Zero spatial operator, zero sources *)

Lemma zero_space_assemble (pb : Problem) (d : Data) s0 sr h :
  zero_space pb ->
  terms_of (problem_space_disc pb) = s0 :: sr ->
  fst (assemble (problem_grid pb) (data_arg (problem_grid pb) (Some d))
         s0 sr h) = (mzero, vzero).
Proof.
  intros Hz Es.
  apply (Hz {| heap := h;
               self := obj_set self_data d
                         (obj_set self_g (problem_grid pb) new_obj);
               log := [] |}
            _ {| heap := snd (assemble (problem_grid pb)
                                (data_arg (problem_grid pb) (Some d)) s0 sr h);
                 self := obj_set self_data d
                           (obj_set self_g (problem_grid pb) new_obj);
                 log := [] |}).
  apply _discretize_ok; [reflexivity|reflexivity|exact Es].
Qed.

Lemma mass_time_assemble (pb : Problem) (d : Data) t0 tr h :
  mass_time pb ->
  terms_of (problem_time_disc pb) = t0 :: tr ->
  invertible
    (fst (fst (assemble (problem_grid pb)
                 (data_arg (problem_grid pb) (Some d)) t0 tr h))) /\
  snd (fst (assemble (problem_grid pb) (data_arg (problem_grid pb) (Some d))
              t0 tr h)) = vzero.
Proof.
  intros Hm Et.
  apply (Hm {| heap := h;
               self := obj_set self_data d
                         (obj_set self_g (problem_grid pb) new_obj);
               log := [] |}
            _ {| heap := snd (assemble (problem_grid pb)
                                (data_arg (problem_grid pb) (Some d)) t0 tr h);
                 self := obj_set self_data d
                           (obj_set self_g (problem_grid pb) new_obj);
                 log := [] |}).
  apply _discretize_ok; [reflexivity|reflexivity|exact Et].
Qed.

(** After [run_discretize]: use the hypotheses on the assembled pairs. *)
Ltac use_zero Hz Hm :=
  repeat match goal with
         | E : assemble _ (data_arg _ (Some ?d)) ?s0 ?sr ?h = (?A, ?b, _),
           Es : terms_of (problem_space_disc ?pb) = ?s0 :: ?sr |- _ =>
             let Z := fresh "Z" in
             pose proof (@zero_space_assemble pb d s0 sr h Hz Es) as Z;
             rewrite E in Z; cbn [fst snd] in Z; inversion Z; subst A b;
             clear Z E
         | E : assemble _ (data_arg _ (Some ?d)) ?t0 ?tr ?h = (?A, ?b, _),
           Et : terms_of (problem_time_disc ?pb) = ?t0 :: ?tr |- _ =>
             let Z := fresh "Z" in
             pose proof (@mass_time_assemble pb d t0 tr h Hm Et) as Z;
             rewrite E in Z; cbn [fst snd] in Z; destruct Z as [? Z];
             subst b; clear E
         end.

Lemma advance_zero (cls : scheme) (pb : Problem) (ic : Vector) h (o : Obj) l :
  one_step_scheme cls -> ready cls pb o -> well_formed pb ->
  zero_space pb -> mass_time pb ->
  o self_p0 = Some ic ->
  (cls = CrankNicolson ->
   o self_lhs_flux_0 = Some mzero /\ o self_rhs_flux_0 = Some vzero /\
   o self_rhs_time_0 = Some vzero) ->
  exists h2 o2,
    (reassemble cls ;; step) {| heap := h; self := o; log := l |}
    = Ok (ic, {| heap := h2; self := o2; log := Stepped ic :: l |})
    /\ (cls = CrankNicolson ->
        o2 self_lhs_flux = Some mzero /\ o2 self_rhs_flux = Some vzero /\
        o2 self_rhs_time = Some vzero).
Proof.
  intros Hcls R [Ws Wt] Hz Hm Hp0 Hcn.
  destruct (terms_of (problem_space_disc pb)) as [|s0 sr] eqn:Es; [congruence|].
  destruct (terms_of (problem_time_disc pb)) as [|t0 tr] eqn:Et; [congruence|].
  destruct Hcls as [-> | [-> | ->]].
  - clear Hcn. open_ready R.
    unfold reassemble, Implicit_reassemble, step.
    mrun; run_discretize; mrun; run_discretize; mrun.
    use_zero Hz Hm.
    rewrite madd_0_r, !vadd_0_r, spsolve_exact by assumption.
    do 2 eexists. split; [reflexivity|discriminate].
  - clear Hcn. open_ready R.
    unfold reassemble, Explicit_reassemble, step.
    mrun; run_discretize; mrun; run_discretize; mrun.
    use_zero Hz Hm.
    rewrite msub_0_r, !vadd_0_r, spsolve_exact by assumption.
    do 2 eexists. split; [reflexivity|discriminate].
  - destruct (Hcn eq_refl) as (Hl0 & Hr0 & Ht0). clear Hcn. open_ready R.
    unfold reassemble, CrankNicolson_reassemble, step.
    mrun; run_discretize; mrun; run_discretize; mrun.
    use_zero Hz Hm.
    rewrite !mscale_0_r, msub_0_r, madd_0_r, !vadd_0_r, !vscale_0_r,
      !vadd_0_r, spsolve_exact by assumption.
    do 2 eexists. split; [reflexivity|]. intros _. repeat split; reflexivity.
Qed.

Lemma one_step_concrete (cls : scheme) : one_step_scheme cls -> concrete cls.
Proof. intros [-> | [-> | ->]]; discriminate. Qed.

(** C7. On a problem whose space terms assemble to the zero matrix and
    the zero vector and whose time terms assemble to an invertible matrix
    and the zero vector, the Implicit, Explicit and Crank-Nicolson
    schemes keep the state at the initial condition: in every run that
    returns, the final solution, every solution that [step()] returned
    and every entry of the history are the initial condition; and with a
    positive step (and, for Crank-Nicolson, a domain it can be
    constructed on) the run does return, given enough fuel. *)
Theorem zero_operator_keeps_initial_condition
    (cls : scheme) (pb : Problem) (store : bool) (h : Env) :
  one_step_scheme cls ->
  well_formed pb ->
  zero_space pb ->
  mass_time pb ->
  (forall fuel d st,
      run cls pb store fuel h = Ok (d, st) ->
      constant_state (problem_initial_condition pb) d st) /\
  (0 < problem_time_step pb ->
   (cls = CrankNicolson -> isinstance_GridBucket (problem_grid pb) = true) ->
   exists n d st,
     (forall fuel, (n <= fuel)%nat -> run cls pb store fuel h = Ok (d, st)) /\
     constant_state (problem_initial_condition pb) d st).
Proof.
  intros Hcls W Hz Hm.
  pose proof (one_step_concrete Hcls) as C.
  set (ic := problem_initial_condition pb).
  assert (Safe : forall fuel d st,
             run cls pb store fuel h = Ok (d, st) -> constant_state ic d st).
  { intros fuel d st H.
    pose (I := fun (_ : Q) (st : St) =>
                 self st self_p = Some ic /\
                 (forall p, In (Stepped p) (log st) -> p = ic) /\
                 (exists d0, self st self_data = Some d0 /\
                             forall p, In p (physics d0) -> p = ic) /\
                 (cls = CrankNicolson ->
                  self st self_lhs_flux = Some mzero /\
                  self st self_rhs_flux = Some vzero /\
                  self st self_rhs_time = Some vzero)).
    assert (Hup : forall t o o1 d0,
               ready cls pb o -> update_post cls pb t o o1 ->
               o self_p = Some ic -> o self_data = Some d0 ->
               (forall p, In p (physics d0) -> p = ic) ->
               exists d1, o1 self_data = Some d1 /\
                          forall p, In p (physics d1) -> p = ic).
    { intros t o o1 d0 R P Hp Hd Hall.
      destruct (ready_base R) as (_ & _ & _ & _ & _ & [pa Hpa] & _).
      eexists. split; [apply (up_data P Hpa Hd Hp)|].
      unfold stored. destruct (store_results pa); [|exact Hall].
      cbn [physics]. intros p Hin. apply in_app_or in Hin.
      destruct Hin as [Hin | [<- | []]]; [auto|reflexivity]. }
    destruct (@run_safe cls pb store C W I) with
      (fuel := fuel) (h := h) (d := d) (st := st)
      as (t' & st1 & R1 & (Hp & Hs & (d0 & Hd & Hall) & Hc) & _ & F);
      [| |exact H|].
    - intros h0 o0 P0. unfold I. cbn [self log].
      split; [apply (sp_p P0)|]. split; [intros p []|].
      split; [exists {| physics := []; times := [] |};
              split; [apply (sp_data P0)|intros p []]|].
      intros E.
      destruct (sp_cn P0 E) as (sta & sta' & stb & stb' & A & bA & M & bM
                                & DA & DM & HA & HbA & HM & HbM).
      apply Hz in DA. inversion DA; subst A bA.
      apply Hm in DM. cbn [fst snd] in DM. destruct DM as [_ ->].
      auto.
    - intros t st0 p' st0' R0 (Hp & Hs & (d0 & Hd & Hall) & Hc) _ Hi.
      destruct (@iteration_inv cls pb t st0 p' st0' C W R0 Hi)
        as (o1 & Hl & P1 & P2 & E2).
      destruct (Hup t _ _ d0 R0 P1 Hp Hd Hall) as (d1 & Hd1 & Hall1).
      destruct (@advance_zero cls pb ic (problem_update pb t (heap st0)) o1
                  (Update_exit t o1 :: Update_enter t (self st0) :: log st0)
                  Hcls (up_ready P1) W Hz Hm)
        as (h2 & o2 & E3 & Hc2).
      { rewrite (up_p0 P1). exact Hp. }
      { intros E. destruct (up_cn P1 E) as (E1 & E2' & _ & E4 & _).
        destruct (Hc E) as (C1 & C2 & C3).
        rewrite E1, E2', E4. auto. }
      rewrite E3 in E2. inversion E2; subst p' st0'. clear E2.
      unfold I. cbn [self log].
      split; [apply (ad_p P2)|]. split.
      + intros p [Hin | [Hin | [Hin | Hin]]]; try discriminate.
        * inversion Hin. reflexivity.
        * auto.
      + split; [|exact Hc2].
        exists d1. split; [|exact Hall1].
        pose proof (ad_data P2) as E. cbn [self] in E. rewrite E. exact Hd1.
    - unfold constant_state, finished in *.
      destruct cls;
        try (destruct F as (o1 & -> & P1 & Hd1); cbn [self log];
             destruct (Hup t' _ _ d0 R1 P1 Hp Hd Hall) as (d1 & Hd1' & Hall1);
             rewrite Hd1 in Hd1'; inversion Hd1'; subst d1;
             split; [rewrite (up_p P1); exact Hp|];
             split; [|exact Hall1];
             intros p [Hin | [Hin | Hin]]; try discriminate; auto).
      destruct F as [-> Hd1]. rewrite Hd in Hd1. inversion Hd1; subst d0.
      auto. }
  split; [exact Safe|].
  intros Hdt Hb.
  destruct (archimedean (threshold cls pb - first_time cls pb) Hdt)
    as [m Hmb].
  destruct (@run_total cls pb store C W m h Hdt Hb Hmb)
    as (n & d & st & _ & Hr).
  exists n, d, st. split; [exact Hr|].
  apply (Safe n). apply Hr. lia.
Qed.

End WithLaws.

(** * Further properties of the stepping loops *)

(** ** How many steps a run takes *)





(** ** The times at which [update] is called *)

Lemma nth_error_snoc {A} (l : list A) (x : A) k u :
  nth_error (l ++ [x]) k = Some u ->
  nth_error l k = Some u \/ (k = length l /\ u = x).
Proof.
  intros H. destruct (Nat.lt_ge_cases k (length l)) as [L | L].
  - left. rewrite nth_error_app1 in H by exact L. exact H.
  - right. rewrite nth_error_app2 in H by exact L.
    destruct (k - length l)%nat as [|j] eqn:E.
    + cbn in H. inversion H. split; [lia|reflexivity].
    + cbn in H. destruct j; discriminate.
Qed.

Lemma update_times_length (l : list event) :
  length (update_times l) = updates_called l.
Proof.
  induction l as [|[t o|t o|p] l IH]; cbn; [reflexivity| |exact IH..].
  rewrite length_app, IH. cbn. lia.
Qed.

Lemma last_solution_solutions (ic : Vector) (l : list event) :
  last_solution ic l = last (solutions l) ic.
Proof.
  induction l as [|[t o|t o|p] l IH]; cbn; [reflexivity|exact IH..|].
  rewrite last_last. reflexivity.
Qed.

Lemma run_update_times (cls : scheme) (pb : Problem) (store : bool)
    fuel h d st :
  concrete cls -> well_formed pb ->
  run cls pb store fuel h = Ok (d, st) ->
  forall k u,
    nth_error (update_times (log st)) k = Some u ->
    u == first_time cls pb + inject_Z (Z.of_nat k) * problem_time_step pb.
Proof.
  intros C W H.
  pose (P := fun (l : list event) =>
               forall k u,
                 nth_error (update_times l) k = Some u ->
                 u == first_time cls pb
                      + inject_Z (Z.of_nat k) * problem_time_step pb).
  pose (I := fun (t : Q) (st : St) =>
               t == first_time cls pb
                    + inject_Z (Z.of_nat (length (update_times (log st))))
                      * problem_time_step pb /\
               P (log st)).
  assert (Hcall : forall t o o1 l,
             t == first_time cls pb
                  + inject_Z (Z.of_nat (length (update_times l)))
                    * problem_time_step pb ->
             P l -> P (Update_exit t o1 :: Update_enter t o :: l)).
  { intros t o o1 l It HP k u. cbn [update_times]. intros E.
    apply nth_error_snoc in E. destruct E as [E | [-> ->]]; [exact (HP k u E)|].
    exact It. }
  destruct (@run_safe cls pb store C W I) with
    (fuel := fuel) (h := h) (d := d) (st := st)
    as (t' & st1 & R1 & (It & HP) & _ & F); [| |exact H|].
  - intros h0 o0 _. unfold I, P. cbn [log update_times length]. split.
    + change (inject_Z (Z.of_nat 0)) with 0. qlra.
    + intros [|k] u E; discriminate E.
  - intros t st0 p' st0' R0 (It & HP) _ Hi.
    destruct (@iteration_inv cls pb t st0 p' st0' C W R0 Hi) as (o1 & Hl & _).
    unfold I. rewrite Hl. split.
    + cbn [update_times]. rewrite length_app. cbn [length].
      rewrite Nat.add_1_r, inject_succ, It. ring.
    + exact (Hcall t (self st0) o1 (log st0) It HP).
  - unfold finished in F.
    destruct cls;
      try (destruct F as (o1 & -> & _); cbn [log];
           exact (Hcall t' _ o1 _ It HP)).
    destruct F as [-> _]. exact HP.
Qed.

(** X3. The times passed to [update], and so to the hook
    [problem.update], form the progression that starts at [dt] for the
    schemes that run [AbstractSolver.solve] and at [0] for [Explicit]:
    the call of index [k] receives [dt + k dt], respectively [k dt]; and
    there is one call per step, plus one for the former. *)
Theorem update_times_progress
    (cls : scheme) (pb : Problem) (store : bool) (fuel : nat) (h : Env)
    (d : Data) (st : St) :
  concrete cls ->
  well_formed pb ->
  run cls pb store fuel h = Ok (d, st) ->
  length (update_times (log st))
  = (steps_taken (log st) + match cls with Explicit => 0 | _ => 1 end)%nat /\
  forall k u,
    nth_error (update_times (log st)) k = Some u ->
    u == first_time cls pb + inject_Z (Z.of_nat k) * problem_time_step pb.
Proof.
  intros C W H. split.
  - rewrite update_times_length.
    pose (I := fun (_ : Q) (st : St) =>
                 updates_called (log st) = steps_taken (log st)).
    destruct (@run_safe cls pb store C W I) with
      (fuel := fuel) (h := h) (d := d) (st := st)
      as (t' & st1 & _ & Iu & _ & F); [| |exact H|].
    + intros h0 o0 _. reflexivity.
    + intros t st0 p' st0' R0 Iu _ Hi.
      destruct (@iteration_inv cls pb t st0 p' st0' C W R0 Hi) as (o1 & Hl & _).
      unfold I in *. rewrite Hl. cbn [steps_taken updates_called]. congruence.
    + destruct (@finished_log cls pb t' st1 d st F) as [Fs Fu].
      unfold I in Iu. rewrite Fs, Fu, Iu. reflexivity.
  - exact (@run_update_times cls pb store fuel h d st C W H).
Qed.

(** X4. Every [update] call made inside a loop has a time below the
    bound of the loop test, [T + 1e-14] for [AbstractSolver.solve] and
    [T - dt + 1e-14] for [Explicit.solve].  The call that
    [AbstractSolver.solve] makes after its loop has a time at or above
    the end time [T]: the hook is called once for a time that the loop
    did not accept.  [Explicit.solve] makes no such call.  (The time of
    the last call is stated against [T], which the bound of the test
    cannot round below, not against [T + 1e-14].) *)
Theorem last_update_is_at_or_past_the_end_time
    (cls : scheme) (pb : Problem) (store : bool) (fuel : nat) (h : Env)
    (d : Data) (st : St) :
  concrete cls ->
  well_formed pb ->
  run cls pb store fuel h = Ok (d, st) ->
  match cls with
  | Explicit =>
      Forall (fun u => u < problem_end_time pb - problem_time_step pb + eps_loop)
        (update_times (log st))
  | _ =>
      exists ts t',
        update_times (log st) = ts ++ [t'] /\
        Forall (fun u => u < problem_end_time pb + eps_loop) ts /\
        problem_end_time pb <= t'
  end.
Proof.
  intros C W H.
  assert (Hpos : 0 < eps_loop) by (unfold eps_loop; reflexivity).
  pose (I := fun (_ : Q) (st : St) =>
               Forall (fun u => u < threshold cls pb) (update_times (log st))).
  destruct (@run_safe cls pb store C W I) with
    (fuel := fuel) (h := h) (d := d) (st := st)
    as (t' & st1 & _ & HI & Hc & F); [| |exact H|].
  - intros h0 o0 _. constructor.
  - intros t st0 p' st0' R0 HI Hc Hi. apply Qlt_bool_true in Hc.
    destruct (@iteration_inv cls pb t st0 p' st0' C W R0 Hi) as (o1 & Hl & _).
    unfold I. rewrite Hl. cbn [update_times].
    apply Forall_app. split; [exact HI|]. constructor; [exact Hc|constructor].
  - apply Qlt_bool_false in Hc. unfold finished in F. unfold I in HI.
    destruct cls; cbn [threshold] in *;
      try (destruct F as (o1 & -> & _); cbn [log update_times];
           exists (update_times (log st1)), t';
           split; [reflexivity|]; split; [exact HI|qlra]).
    destruct F as [-> _]. exact HI.
Qed.

(** ** The recorded history *)

Lemma history_roll {A} (ic : A) (sols : list A) :
  removelast (ic :: sols) ++ [last sols ic] = ic :: sols.
Proof.
  assert (E : last (ic :: sols) ic = last sols ic) by (destruct sols; reflexivity).
  rewrite <- E. symmetry. apply app_removelast_last. discriminate.
Qed.

Lemma run_history (cls : scheme) (pb : Problem) fuel h d st :
  concrete cls -> well_formed pb ->
  run cls pb true fuel h = Ok (d, st) ->
  times d = map (fun t => t - problem_time_step pb) (update_times (log st)) /\
  physics d = match cls with
              | Explicit =>
                  removelast (problem_initial_condition pb :: solutions (log st))
              | _ => problem_initial_condition pb :: solutions (log st)
              end.
Proof.
  intros C W H.
  set (ic := problem_initial_condition pb).
  set (dt := problem_time_step pb).
  pose (J := fun (d0 : Data) (l : list event) =>
               times d0 = map (fun t => t - dt) (update_times l) /\
               physics d0 = removelast (ic :: solutions l)).
  pose (I := fun (_ : Q) (st : St) =>
               exists d0 pa,
                 self st self_data = Some d0 /\
                 self st self_parameters = Some pa /\
                 store_results pa = true /\
                 self st self_p = Some (last_solution ic (log st)) /\
                 J d0 (log st)).
  assert (Hup : forall t o o1 l d0 pa,
             ready cls pb o -> update_post cls pb t o o1 ->
             o self_data = Some d0 -> o self_parameters = Some pa ->
             store_results pa = true ->
             o self_p = Some (last_solution ic l) ->
             J d0 l ->
             exists d1,
               o1 self_data = Some d1 /\
               times d1 = map (fun t => t - dt) (update_times l ++ [t]) /\
               physics d1 = ic :: solutions l).
  { intros t o o1 l d0 pa R P Hd Hpa Hs Hp [Jt Jp].
    eexists. split; [apply (up_data P Hpa Hd Hp)|].
    rewrite Hs. unfold stored. cbn [times physics]. split.
    - rewrite map_app, Jt. reflexivity.
    - rewrite Jp, last_solution_solutions. apply history_roll. }
  destruct (@run_safe cls pb true C W I) with
    (fuel := fuel) (h := h) (d := d) (st := st)
    as (t' & st1 & R1 & (d0 & pa & Hd & Hpa & Hs & Hp & HJ) & _ & F);
    [| |exact H|].
  - intros h0 o0 P0. exists {| physics := []; times := [] |}.
    eexists. cbn [self log]. split; [apply (sp_data P0)|].
    split; [apply (sp_parameters P0)|]. split; [reflexivity|].
    split; [apply (sp_p P0)|]. split; reflexivity.
  - intros t st0 p' st0' R0 (d0 & pa & Hd & Hpa & Hs & Hp & HJ) _ Hi.
    destruct (@iteration_inv cls pb t st0 p' st0' C W R0 Hi)
      as (o1 & Hl & P1 & P2 & _).
    destruct (Hup t _ _ (log st0) d0 pa R0 P1 Hd Hpa Hs Hp HJ)
      as (d1 & Hd1 & Ht1 & Hp1).
    exists d1, pa. rewrite (ad_data P2), (ad_parameters P2), Hl.
    split; [exact Hd1|]. split; [rewrite (up_parameters P1); exact Hpa|].
    split; [exact Hs|]. split; [exact (ad_p P2)|].
    unfold J. cbn [update_times solutions]. split; [exact Ht1|].
    rewrite Hp1. change (ic :: solutions (log st0) ++ [p'])
      with ((ic :: solutions (log st0)) ++ [p']).
    rewrite removelast_last. reflexivity.
  - unfold finished in F.
    destruct cls;
      try (destruct F as (o1 & -> & P1 & Hd1); cbn [log update_times solutions];
           destruct (Hup t' _ _ (log st1) d0 pa R1 P1 Hd Hpa Hs Hp HJ)
             as (d1 & Hd1' & Ht1 & Hp1);
           rewrite Hd1 in Hd1'; inversion Hd1'; subst d1;
           split; assumption).
    destruct F as [-> Hd1]. rewrite Hd in Hd1. inversion Hd1; subst d0.
    exact HJ.
Qed.

(** X5. With [store_results] on, the time recorded with each entry of the
    history is the time passed to [update] less one step: the entry of
    index [k] carries [k dt] in a run of [AbstractSolver.solve] and
    [(k - 1) dt] in a run of [Explicit.solve], whose first entry is
    stamped [-dt]. *)
Theorem recorded_times_lag_one_step
    (cls : scheme) (pb : Problem) (fuel : nat) (h : Env)
    (d : Data) (st : St) :
  concrete cls ->
  well_formed pb ->
  run cls pb true fuel h = Ok (d, st) ->
  times d = map (fun t => t - problem_time_step pb) (update_times (log st)) /\
  forall k u,
    nth_error (times d) k = Some u ->
    u == first_time cls pb + inject_Z (Z.of_nat k) * problem_time_step pb
         - problem_time_step pb.
Proof.
  intros C W H.
  destruct (@run_history cls pb fuel h d st C W H) as [Ht _].
  split; [exact Ht|]. intros k u E.
  rewrite Ht, nth_error_map in E.
  destruct (nth_error (update_times (log st)) k) as [t|] eqn:Ek; [|discriminate].
  cbn in E. inversion E; subst u.
  rewrite (@run_update_times cls pb true fuel h d st C W H k t Ek).
  reflexivity.
Qed.

(** X6. With [store_results] on, the solutions recorded by a run of
    [AbstractSolver.solve] are the initial condition followed by the
    solution of every step; those recorded by a run of [Explicit.solve]
    are the same list without its last element: the solution of the last
    step is never recorded (and nothing is when no step is taken). *)
Theorem recorded_solutions
    (cls : scheme) (pb : Problem) (fuel : nat) (h : Env)
    (d : Data) (st : St) :
  concrete cls ->
  well_formed pb ->
  run cls pb true fuel h = Ok (d, st) ->
  physics d = match cls with
              | Explicit =>
                  removelast (problem_initial_condition pb :: solutions (log st))
              | _ => problem_initial_condition pb :: solutions (log st)
              end.
Proof.
  intros C W H. exact (proj2 (@run_history cls pb fuel h d st C W H)).
Qed.

(** X7. When [solve] returns, [self.p] is the solution of the last step
    (the initial condition if there was none) and the value returned is
    [self.data]; [self.p0] equals [self.p] after
    [AbstractSolver.solve], whose last statement rolls it, and is one
    step behind after [Explicit.solve]; [self.parameters] is as it was
    set. *)
Theorem solve_leaves_the_last_solution
    (cls : scheme) (pb : Problem) (store : bool) (fuel : nat) (h : Env)
    (d : Data) (st : St) :
  concrete cls ->
  well_formed pb ->
  run cls pb store fuel h = Ok (d, st) ->
  self st self_p = Some (last_solution (problem_initial_condition pb) (log st)) /\
  self st self_p0
  = Some (match cls with
          | Explicit => previous_solution (problem_initial_condition pb) (log st)
          | _ => last_solution (problem_initial_condition pb) (log st)
          end) /\
  self st self_data = Some d /\
  self st self_parameters = Some {| store_results := store; verbose := false |}.
Proof.
  intros C W H.
  set (ic := problem_initial_condition pb).
  pose (I := fun (_ : Q) (st : St) =>
               self st self_p = Some (last_solution ic (log st)) /\
               self st self_p0 = Some (previous_solution ic (log st)) /\
               self st self_parameters
               = Some {| store_results := store; verbose := false |}).
  destruct (@run_safe cls pb store C W I) with
    (fuel := fuel) (h := h) (d := d) (st := st)
    as (t' & st1 & R1 & (Hp & Hp0 & Hpa) & _ & F); [| |exact H|].
  - intros h0 o0 P0. unfold I. cbn [self log last_solution previous_solution].
    split; [apply (sp_p P0)|]. split; [apply (sp_p0 P0)|apply (sp_parameters P0)].
  - intros t st0 p' st0' R0 (Hp & Hp0 & Hpa) _ Hi.
    destruct (@iteration_inv cls pb t st0 p' st0' C W R0 Hi)
      as (o1 & Hl & P1 & P2 & _).
    unfold I. rewrite Hl. cbn [last_solution previous_solution].
    split; [apply (ad_p P2)|]. split.
    + rewrite (ad_p0 P2), (up_p0 P1). exact Hp.
    + rewrite (ad_parameters P2), (up_parameters P1). exact Hpa.
  - unfold finished in F.
    destruct cls;
      try (destruct F as (o1 & -> & P1 & Hd1);
           cbn [self log last_solution previous_solution];
           rewrite (up_p P1), (up_p0 P1), (up_parameters P1); auto).
    destruct F as [-> Hd1]. auto.
Qed.

(** ** Runs that take no step, and runs that never return *)

(** X8. When the step has reached [T + 1e-14] no loop is entered: for
    every class other than [CrankNicolson], the abstract base included,
    and with any fuel, [solve] returns without a step and, in
    particular, without calling [reassemble].  [AbstractSolver.solve]
    still calls [update(dt)] once, which runs the hook and, with
    [store_results] on, records the initial condition at time
    [dt - dt]; [Explicit.solve] calls nothing and returns the empty
    history. *)
Theorem no_step_when_the_step_exceeds_the_end_time
    (cls : scheme) (pb : Problem) (store : bool) (fuel : nat) (h : Env) :
  cls <> CrankNicolson ->
  problem_end_time pb + eps_loop <= problem_time_step pb ->
  exists st,
    run cls pb store fuel h
    = Ok (match cls with
          | Explicit => {| physics := []; times := [] |}
          | _ => stored store {| physics := []; times := [] |}
                   (problem_initial_condition pb)
                   (problem_time_step pb) (problem_time_step pb)
          end, st) /\
    steps_taken (log st) = 0%nat /\
    heap st = match cls with
              | Explicit => h
              | _ => problem_update pb (problem_time_step pb) h
              end.
Proof.
  intros Hcn Hle.
  destruct (@start_ok cls pb store h) as (h0 & o0 & E0 & P0 & Hh);
    [intros E; contradiction|].
  rewrite (Hh Hcn) in E0. clear Hh h0.
  pose proof (sp_ready P0) as R0.
  assert (Ew : while_ (solve_cond cls) (while_body cls) fuel (first_time cls pb)
                 {| heap := h; self := o0; log := [] |}
               = Ok (first_time cls pb, {| heap := h; self := o0; log := [] |})).
  { assert (Ec : Qlt_bool (first_time cls pb) (threshold cls pb) = false)
      by (apply Qlt_bool_ge; destruct cls; cbn [first_time threshold]; qlra).
    destruct fuel; cbn [while_]; unfold bind at 1;
      rewrite (solve_cond_ok _ _ _ R0), Ec; reflexivity. }
  rewrite run_unfold, E0, (solve_unfold fuel h [] R0), Ew.
  destruct (finish_ok (first_time cls pb) h [] R0) as (d & st & Ef & F).
  exists st.
  assert (Hd : forall o1,
             update_post cls pb (problem_time_step pb) o0 o1 ->
             o1 self_data = Some d ->
             d = stored store {| physics := []; times := [] |}
                   (problem_initial_condition pb)
                   (problem_time_step pb) (problem_time_step pb)).
  { intros o1 P1 Hd1.
    pose proof (up_data P1 (sp_parameters P0) (sp_data P0) (sp_p P0)) as E.
    rewrite Hd1 in E. inversion E. reflexivity. }
  unfold finished in F.
  destruct cls; try contradiction (Hcn eq_refl);
    cbn [first_time] in *;
    try (destruct F as (o1 & -> & P1 & Hd1); rewrite Ef, (Hd o1 P1 Hd1);
         cbn [heap log steps_taken]; auto).
  destruct F as [-> Hd1]. cbn [self] in Hd1.
  rewrite (sp_data P0) in Hd1. inversion Hd1; subst d.
  rewrite Ef. cbn [heap log steps_taken]. auto.
Qed.



(** ** A problem without space terms *)


(** ** The first-step flag of BDF2 *)

Lemma Qle_bool_shift (t dt k eps : Q) :
  t == dt + k -> Qle_bool t (dt + eps) = Qle_bool k eps.
Proof.
  intros E.
  destruct (Qle_bool t (dt + eps)) eqn:E1, (Qle_bool k eps) eqn:E2;
    try reflexivity.
  - apply Qle_bool_iff in E1.
    assert (K : k <= eps) by lra. apply Qle_bool_iff in K. congruence.
  - apply Qle_bool_iff in E2.
    assert (K : t <= dt + eps) by lra. apply Qle_bool_iff in K. congruence.
Qed.

(** X11. In every run of BDF2 that returns, the first-step flag that an
    [update] call leaves is set exactly when the [k] steps taken before
    the call satisfy [k dt <= 1e-6]: the flag follows the time, not the
    count of steps.  With [dt > 1e-6] it is set for the first step alone;
    with a smaller step the first-step formula is used for every step
    that starts within [1e-6] of the first. *)
Theorem BDF2_flag_follows_the_time
    (pb : Problem) (store : bool) (fuel : nat) (h : Env)
    (d : Data) (st : St) :
  well_formed pb ->
  run BDF2 pb store fuel h = Ok (d, st) ->
  flags_follow_time (problem_time_step pb) (log st).
Proof.
  intros W H.
  assert (C : concrete BDF2) by discriminate.
  set (dt := problem_time_step pb).
  pose (I := fun (t : Q) (st : St) =>
               t == dt + inject_Z (Z.of_nat (steps_taken (log st))) * dt /\
               flags_follow_time dt (log st)).
  assert (Hup : forall t o o1 l,
             update_post BDF2 pb t o o1 ->
             t == dt + inject_Z (Z.of_nat (steps_taken l)) * dt ->
             flags_follow_time dt l ->
             flags_follow_time dt (Update_exit t o1 :: Update_enter t o :: l)).
  { intros t o o1 l P It Hf. cbn [flags_follow_time steps_taken].
    split; [|exact Hf].
    destruct (up_bdf2 P eq_refl) as [_ E]. rewrite E. f_equal.
    unfold Qlt_bool. rewrite negb_involutive.
    apply Qle_bool_shift. exact It. }
  destruct (@run_safe BDF2 pb store C W I) with
    (fuel := fuel) (h := h) (d := d) (st := st)
    as (t' & st1 & R1 & (It & Hf) & _ & F); [| |exact H|].
  - intros h0 o0 _. unfold I. cbn [log steps_taken first_time flags_follow_time].
    split; [|exact Logic.I].
    change (inject_Z (Z.of_nat 0)) with 0. unfold dt. qlra.
  - intros t st0 p' st0' R0 (It & Hf) _ Hi.
    destruct (@iteration_inv BDF2 pb t st0 p' st0' C W R0 Hi)
      as (o1 & Hl & P1 & _).
    unfold I. rewrite Hl. split.
    + cbn [steps_taken]. rewrite inject_succ, It. unfold dt. ring.
    + exact (Hup t (self st0) o1 (log st0) P1 It Hf).
  - unfold finished in F. destruct F as (o1 & -> & P1 & _). cbn [log].
    exact (Hup t' (self st1) o1 (log st1) P1 It Hf).
Qed.

(** ** What [_discretize] reads, and how it composes *)

Lemma _discretize_rest_outcome (wd : bool) (ds : list Disc) :
  forall acc h (o o' : Obj) l l',
    o self_g = o' self_g ->
    (wd = true -> o self_data = o' self_data) ->
    outcome (_discretize_rest wd ds acc {| heap := h; self := o; log := l |})
    = outcome (_discretize_rest wd ds acc {| heap := h; self := o'; log := l' |}).
Proof.
  induction ds as [|disc ds IH]; intros acc h o o' l l' Hg Hd.
  - reflexivity.
  - specialize (fun a h0 => IH a h0 o o' l l' Hg Hd).
    destruct (o self_g) as [g|] eqn:Eg; symmetry in Hg; mrun;
      [|reflexivity].
    destruct wd; mrun.
    + specialize (Hd eq_refl).
      destruct (o self_data) as [d|] eqn:Ed; symmetry in Hd; mrun;
        [|reflexivity].
      destruct_matrix_rhs. destruct acc as [lhs rhs]. apply IH.
    + destruct_matrix_rhs. destruct acc as [lhs rhs]. apply IH.
Qed.

(** X12. [_discretize] reads the instance through [self.g] and, on a
    single grid, [self.data], and through nothing else: on two instances
    that agree there, and on the same heap, it returns the same pair and
    leaves the same heap, or raises the same exception.  On a
    [GridBucket] agreement on [self.g] is enough; [self.data] may be
    unset. *)
Theorem _discretize_reads_g_and_data
    (discs : Discs) (h : Env) (o o' : Obj) (l l' : list event) :
  o self_g = o' self_g ->
  (forall g, o self_g = Some g -> isinstance_GridBucket g = false ->
             o self_data = o' self_data) ->
  outcome (_discretize discs {| heap := h; self := o; log := l |})
  = outcome (_discretize discs {| heap := h; self := o'; log := l' |}).
Proof.
  intros Hg Hd.
  pose proof (fun wd ds a h0 Hw =>
                @_discretize_rest_outcome wd ds a h0 o o' l l' Hg Hw) as R.
  unfold _discretize.
  destruct (o self_g) as [g|] eqn:Eg; symmetry in Hg; mrun; [|reflexivity].
  specialize (Hd g eq_refl).
  destruct (isinstance_GridBucket g);
    (destruct (terms_of discs) as [|disc0 rest]; mrun; [reflexivity|]).
  - destruct_matrix_rhs. apply R. discriminate.
  - specialize (Hd eq_refl).
    destruct (o self_data) as [d|] eqn:Ed; symmetry in Hd; mrun;
      [|reflexivity].
    destruct_matrix_rhs. apply R. intros _. congruence.
Qed.

Lemma _discretize_unfold (g : Grid) (discs : Discs) (st : St) :
  self st self_g = Some g ->
  _discretize discs st
  = match terms_of discs with
    | [] => Raise IndexError
    | disc0 :: rest =>
        (acc <- matrix_rhs_call (negb (isinstance_GridBucket g)) disc0 ;;
         _discretize_rest (negb (isinstance_GridBucket g)) rest acc) st
    end.
Proof.
  intros Hg. unfold _discretize. unfold bind at 1. unfold getattr at 1.
  rewrite Hg. destruct (isinstance_GridBucket g), (terms_of discs); reflexivity.
Qed.

Lemma matrix_rhs_call_frame (wd : bool) (disc : Disc) st r st' :
  matrix_rhs_call wd disc st = Ok (r, st') -> self st' = self st.
Proof.
  destruct st as [h o l]. unfold matrix_rhs_call.
  destruct (o self_g) as [g|] eqn:Eg; mrun; [|discriminate].
  destruct wd; mrun.
  - destruct (o self_data) as [d|] eqn:Ed; mrun; [|discriminate].
    destruct_matrix_rhs. intros H. inversion H. reflexivity.
  - destruct_matrix_rhs. intros H. inversion H. reflexivity.
Qed.

Lemma bind_ext {SS A B} (m : M SS A) (k1 k2 : A -> M SS B) st :
  (forall a st', k1 a st' = k2 a st') -> bind m k1 st = bind m k2 st.
Proof.
  intros E. unfold bind. destruct (m st) as [[a st']| |]; [apply E|reflexivity..].
Qed.

Lemma bind_ext_on {SS A B} (m : M SS A) (k1 k2 : A -> M SS B) st :
  (forall a st', m st = Ok (a, st') -> k1 a st' = k2 a st') ->
  bind m k1 st = bind m k2 st.
Proof.
  intros E. unfold bind.
  destruct (m st) as [[a st']| |]; [apply E|..]; reflexivity.
Qed.

Lemma _discretize_rest_snoc (wd : bool) (ds : list Disc) (e : Disc) :
  forall acc st,
    _discretize_rest wd (ds ++ [e]) acc st
    = (acc' <- _discretize_rest wd ds acc ;;
       r <- matrix_rhs_call wd e ;;
       ret (madd (fst acc') (fst r), vadd (snd acc') (snd r))) st.
Proof.
  induction ds as [|disc ds IH]; intros [lhs rhs] st.
  - cbn [app _discretize_rest]. unfold bind, ret.
    destruct (matrix_rhs_call wd e st) as [[[A b] st']| |]; reflexivity.
  - cbn [app _discretize_rest]. rewrite bind_bind.
    apply bind_ext. intros [A b] st'. apply IH.
Qed.

(** X13. Assembling a tuple with one more term at its end is assembling
    the tuple, then the term alone, and adding the two pairs: the loop of
    [_discretize] accumulates from left to right.  The tuple extended
    must hold a term, since [_discretize] rejects the empty tuple. *)
Theorem _discretize_one_more_term (ds : list Disc) (e : Disc) (st : St) :
  ds <> [] ->
  _discretize (TupleOf (ds ++ [e])) st
  = ('(lhs, rhs) <- _discretize (TupleOf ds) ;;
     '(lhs_n, rhs_n) <- _discretize (OneDisc e) ;;
     ret (madd lhs lhs_n, vadd rhs rhs_n)) st.
Proof.
  intros Hne. destruct ds as [|d0 rest]; [congruence|]. clear Hne.
  destruct (self st self_g) as [g|] eqn:Eg.
  - set (wd := negb (isinstance_GridBucket g)).
    assert (ER : forall B (K : Matrix * Vector -> M St B),
               bind (_discretize (TupleOf (d0 :: rest))) K st
               = bind (bind (matrix_rhs_call wd d0)
                         (fun acc => _discretize_rest wd rest acc)) K st).
    { intros B K. unfold bind at 1.
      rewrite (_discretize_unfold (TupleOf (d0 :: rest)) st Eg).
      reflexivity. }
    rewrite ER, bind_bind.
    rewrite (_discretize_unfold (TupleOf ((d0 :: rest) ++ [e])) st Eg).
    cbn [terms_of app]. fold wd.
    apply bind_ext_on. intros acc st1 E1.
    pose proof (matrix_rhs_call_frame _ _ _ E1) as F1.
    rewrite _discretize_rest_snoc.
    apply bind_ext_on. intros [lhs rhs] st2 E2.
    pose proof (_discretize_rest_frame _ _ _ _ E2) as [F2 _].
    assert (Eg2 : self st2 self_g = Some g) by (rewrite F2, F1; exact Eg).
    assert (EO : _discretize (OneDisc e) st2 = matrix_rhs_call wd e st2).
    { rewrite (_discretize_unfold (OneDisc e) st2 Eg2).
      cbn [terms_of _discretize_rest]. fold wd. unfold bind, ret.
      destruct (matrix_rhs_call wd e st2) as [[r st3]| |]; reflexivity. }
    unfold bind, ret. rewrite EO. cbn [fst snd].
    destruct (matrix_rhs_call wd e st2) as [[[A b] st3]| |]; reflexivity.
  - unfold _discretize, bind, getattr. rewrite Eg. reflexivity.
Qed.

(** ** The step of the Explicit scheme *)

(** X14. One [reassemble(); step()] of the Explicit scheme solves
    [lhs_M p = (lhs_M - lhs_A) p0 + rhs_A + rhs_M] for the pairs that
    [_discretize] returns for the space and the time handle: the matrix
    of the system is the time matrix alone.  The solution is stored in
    [self.p] and returned; [self.p0] is not touched. *)
Theorem Explicit_step_formula
    (st st1 st2 : St) (sd td : Discs) (p0 : Vector)
    (lhs_A : Matrix) (rhs_A : Vector) (lhs_M : Matrix) (rhs_M : Vector) :
  self st self_space_disc = Some sd ->
  self st self_time_disc = Some td ->
  self st self_p0 = Some p0 ->
  _discretize sd st = Ok ((lhs_A, rhs_A), st1) ->
  _discretize td st1 = Ok ((lhs_M, rhs_M), st2) ->
  let rhs := vadd (vadd (mulv (msub lhs_M lhs_A) p0) rhs_A) rhs_M in
  (reassemble Explicit ;; step) st
  = Ok (spsolve lhs_M rhs,
        {| heap := heap st2;
           self := obj_set self_p (spsolve lhs_M rhs)
                     (obj_set self_rhs (Arr rhs)
                        (obj_set self_lhs (Arr lhs_M) (self st)));
           log := Stepped (spsolve lhs_M rhs) :: log st |}).
Proof.
  destruct st as [h o l]. cbn [self log]. intros Hsd Htd Hp0 H1 H2.
  unfold bind, reassemble.
  erewrite Explicit_reassemble_eq by eassumption.
  erewrite step_eq by reflexivity. reflexivity.
Qed.

(** ** What the Crank-Nicolson assembly does not read *)

(** X15. [CrankNicolson.reassemble] never reads [self.lhs_time_0], which
    the constructor and every [update] assign: whatever that attribute
    holds, the call leaves the same linear system and the same heap, or
    raises the same exception.  The matrix that multiplies [p0] is formed
    from the time matrix of the current step and the cached flux matrix
    of the previous one. *)
Theorem CrankNicolson_never_reads_lhs_time_0 (st : St) (X : Matrix) :
  assembled (reassemble CrankNicolson (with_attr self_lhs_time_0 X st))
  = assembled (reassemble CrankNicolson st).
Proof.
  destruct st as [h o l]. unfold with_attr. cbn [heap self log].
  unfold reassemble, CrankNicolson_reassemble.
  destruct (o self_space_disc) as [sd|] eqn:Hsd; mrun; [|reflexivity].
  pose proof (@_discretize_ext sd h o (obj_set self_lhs_time_0 X o) l l
                eq_refl eq_refl) as E1.
  destruct (_discretize sd {| heap := h; self := o; log := l |})
    as [[[A bA] st1]| |] eqn:D1; rewrite E1; mrun; [|reflexivity..].
  open_states. cbn [heap].
  destruct (o self_time_disc) as [td|] eqn:Htd; mrun; [|reflexivity].
  match goal with
  | |- context [_discretize td {| heap := ?h1; self := ?o1; log := _ |}] =>
      match o1 with
      | context [obj_set self_lhs_time_0 X o] => fail 1
      | _ =>
          pose proof (@_discretize_ext td h1 o1
                        (obj_set self_rhs_flux bA
                           (obj_set self_lhs_flux A
                              (obj_set self_lhs_time_0 X o))) l l
                        eq_refl eq_refl) as E2;
          destruct (_discretize td {| heap := h1; self := o1; log := l |})
            as [[[M bM] st2]| |] eqn:D2
      end
  end; rewrite E2; mrun; [|reflexivity..].
  open_states. cbn [heap].
  destruct (o self_rhs_flux_0) as [rf0|] eqn:Hrf0; mrun; [|reflexivity].
  destruct (o self_rhs_time_0) as [rt0|] eqn:Hrt0; mrun; [|reflexivity].
  destruct (o self_lhs_flux_0) as [lf0|] eqn:Hlf0; mrun; [|reflexivity].
  destruct (o self_p0) as [p0|] eqn:Hp0; mrun; reflexivity.
Qed.

(** ** Runs on a problem with constant terms *)

Lemma constant_assemble_space (pb : Problem) A bA M bM (d : Data) s0 sr h :
  constant_terms pb A bA M bM ->
  terms_of (problem_space_disc pb) = s0 :: sr ->
  fst (assemble (problem_grid pb) (data_arg (problem_grid pb) (Some d))
         s0 sr h) = (A, bA).
Proof.
  intros [Hs _] Es.
  apply (Hs {| heap := h;
               self := obj_set self_data d
                         (obj_set self_g (problem_grid pb) new_obj);
               log := [] |}
            _ {| heap := snd (assemble (problem_grid pb)
                                (data_arg (problem_grid pb) (Some d)) s0 sr h);
                 self := obj_set self_data d
                           (obj_set self_g (problem_grid pb) new_obj);
                 log := [] |}).
  apply _discretize_ok; [reflexivity|reflexivity|exact Es].
Qed.

Lemma constant_assemble_time (pb : Problem) A bA M bM (d : Data) t0 tr h :
  constant_terms pb A bA M bM ->
  terms_of (problem_time_disc pb) = t0 :: tr ->
  fst (assemble (problem_grid pb) (data_arg (problem_grid pb) (Some d))
         t0 tr h) = (M, bM).
Proof.
  intros [_ Ht] Et.
  apply (Ht {| heap := h;
               self := obj_set self_data d
                         (obj_set self_g (problem_grid pb) new_obj);
               log := [] |}
            _ {| heap := snd (assemble (problem_grid pb)
                                (data_arg (problem_grid pb) (Some d)) t0 tr h);
                 self := obj_set self_data d
                           (obj_set self_g (problem_grid pb) new_obj);
                 log := [] |}).
  apply _discretize_ok; [reflexivity|reflexivity|exact Et].
Qed.

(** After [run_discretize]: replace the assembled pairs by the constant
    ones. *)
Ltac use_constant Hc :=
  repeat match goal with
         | E : assemble _ (data_arg _ (Some ?d)) ?s0 ?sr ?h = (?A, ?b, _),
           Es : terms_of (problem_space_disc ?pb) = ?s0 :: ?sr |- _ =>
             let Z := fresh "Z" in
             pose proof (@constant_assemble_space pb _ _ _ _ d s0 sr h Hc Es) as Z;
             rewrite E in Z; cbn [fst snd] in Z; inversion Z; subst A b;
             clear Z E
         | E : assemble _ (data_arg _ (Some ?d)) ?t0 ?tr ?h = (?A, ?b, _),
           Et : terms_of (problem_time_disc ?pb) = ?t0 :: ?tr |- _ =>
             let Z := fresh "Z" in
             pose proof (@constant_assemble_time pb _ _ _ _ d t0 tr h Hc Et) as Z;
             rewrite E in Z; cbn [fst snd] in Z; inversion Z; subst A b;
             clear Z E
         end.

(** Two readings of one attribute agree. *)
Ltac unify_attrs :=
  repeat match goal with
         | H1 : ?e = Some ?x, H2 : ?e = Some ?y |- _ =>
             let E := fresh "E" in
             assert (E : x = y)
               by (rewrite H1 in H2; inversion H2; reflexivity);
             clear H2; first [subst x | subst y | rewrite E in *; clear E]
         end.

Lemma advance_constant (cls : scheme) (pb : Problem) A bA M bM
    (f : bool) (p0 p_1 : Vector) h (o : Obj) l :
  concrete cls -> ready cls pb o -> well_formed pb ->
  constant_terms pb A bA M bM ->
  o self_p0 = Some p0 ->
  (cls = BDF2 -> o self_p_1 = Some p_1 /\ o self_flag_first = Some f) ->
  (cls = CrankNicolson ->
   o self_lhs_flux_0 = Some A /\ o self_rhs_flux_0 = Some bA /\
   o self_rhs_time_0 = Some bM) ->
  exists h2 o2,
    (reassemble cls ;; step) {| heap := h; self := o; log := l |}
    = Ok (step_map cls A bA M bM f p0 p_1,
          {| heap := h2; self := o2;
             log := Stepped (step_map cls A bA M bM f p0 p_1) :: l |})
    /\ (cls = CrankNicolson ->
        o2 self_lhs_flux = Some A /\ o2 self_rhs_flux = Some bA /\
        o2 self_rhs_time = Some bM).
Proof.
  intros C R [Ws Wt] Hc Hp0 Hb Hcn.
  destruct (terms_of (problem_space_disc pb)) as [|s0 sr] eqn:Es; [congruence|].
  destruct (terms_of (problem_time_disc pb)) as [|t0 tr] eqn:Et; [congruence|].
  destruct cls; [exfalso; apply C; reflexivity|..].
  - clear Hb Hcn. open_ready R. unify_attrs.
    unfold reassemble, Implicit_reassemble, step.
    mrun; run_discretize; mrun; run_discretize; mrun.
    use_constant Hc.
    do 2 eexists. split; [reflexivity|discriminate].
  - clear Hcn. destruct (Hb eq_refl) as [Hp1 Hff]. clear Hb.
    open_ready R. unify_attrs.
    unfold reassemble, BDF2_reassemble, step.
    mrun; run_discretize; mrun; run_discretize; mrun.
    use_constant Hc.
    destruct f; mrun; (do 2 eexists; split; [reflexivity|discriminate]).
  - clear Hb Hcn. open_ready R. unify_attrs.
    unfold reassemble, Explicit_reassemble, step.
    mrun; run_discretize; mrun; run_discretize; mrun.
    use_constant Hc.
    do 2 eexists. split; [reflexivity|discriminate].
  - clear Hb. destruct (Hcn eq_refl) as (Hl0 & Hr0 & Ht0). clear Hcn.
    open_ready R. unify_attrs.
    unfold reassemble, CrankNicolson_reassemble, step.
    mrun; run_discretize; mrun; run_discretize; mrun.
    use_constant Hc.
    do 2 eexists. split; [reflexivity|]. intros _. repeat split; reflexivity.
Qed.

Lemma run_steps_follow (cls : scheme) (pb : Problem) (store : bool)
    fuel h d st A bA M bM :
  concrete cls -> well_formed pb ->
  constant_terms pb A bA M bM ->
  run cls pb store fuel h = Ok (d, st) ->
  steps_follow cls A bA M bM (problem_time_step pb)
    (problem_initial_condition pb) (log st).
Proof.
  intros C W Hc H.
  set (ic := problem_initial_condition pb).
  set (dt := problem_time_step pb).
  pose (I := fun (t : Q) (st : St) =>
               t == first_time cls pb
                    + inject_Z (Z.of_nat (steps_taken (log st))) * dt /\
               self st self_p = Some (last_solution ic (log st)) /\
               self st self_p0 = Some (previous_solution ic (log st)) /\
               steps_follow cls A bA M bM dt ic (log st) /\
               (cls = CrankNicolson ->
                self st self_lhs_flux = Some A /\
                self st self_rhs_flux = Some bA /\
                self st self_rhs_time = Some bM)).
  destruct (@run_safe cls pb store C W I) with
    (fuel := fuel) (h := h) (d := d) (st := st)
    as (t' & st1 & R1 & (_ & _ & _ & Hf & _) & _ & F); [| |exact H|].
  - intros h0 o0 P0. unfold I.
    cbn [self log steps_taken last_solution previous_solution steps_follow].
    split; [change (inject_Z (Z.of_nat 0)) with 0; qlra|].
    split; [apply (sp_p P0)|]. split; [apply (sp_p0 P0)|].
    split; [exact Logic.I|].
    intros E.
    destruct (sp_cn P0 E) as (sta & sta' & stb & stb' & A' & bA' & M' & bM'
                              & DA & DM & HA & HbA & HM & HbM).
    apply (proj1 Hc) in DA. apply (proj2 Hc) in DM.
    inversion DA; inversion DM; subst. auto.
  - intros t st0 p' st0' R0 (It & Hp & Hp0 & Hf & Hcn) _ Hi.
    destruct (@iteration_inv cls pb t st0 p' st0' C W R0 Hi)
      as (o1 & Hl & P1 & P2 & E2).
    destruct (@advance_constant cls pb A bA M bM
                (Qle_bool (inject_Z (Z.of_nat (steps_taken (log st0))) * dt)
                   eps_first)
                (last_solution ic (log st0)) (previous_solution ic (log st0))
                (problem_update pb t (heap st0)) o1
                (Update_exit t o1 :: Update_enter t (self st0) :: log st0)
                C (up_ready P1) W Hc)
      as (h2 & o2 & E3 & Hcn2).
    { rewrite (up_p0 P1). exact Hp. }
    { intros E. destruct (up_bdf2 P1 E) as [E1 Ef]. split.
      - rewrite E1. exact Hp0.
      - rewrite Ef. f_equal. unfold Qlt_bool. rewrite negb_involutive.
        apply Qle_bool_shift. rewrite It, E. reflexivity. }
    { intros E. destruct (up_cn P1 E) as (E1 & E2' & _ & E4 & _).
      destruct (Hcn E) as (C1 & C2 & C3).
      rewrite E1, E2', E4. auto. }
    pose proof (ad_p P2) as Ap. pose proof (ad_p0 P2) as Ap0.
    rewrite E3 in E2. inversion E2; subst p' st0'. clear E2.
    cbn [self] in Ap, Ap0. unfold I.
    cbn [self log steps_taken last_solution previous_solution steps_follow].
    split; [rewrite inject_succ, It; unfold dt; ring|].
    split; [exact Ap|].
    split; [rewrite Ap0, (up_p0 P1); exact Hp|].
    split; [split; [reflexivity|exact Hf]|exact Hcn2].
  - unfold finished in F.
    destruct cls; try (destruct F as (o1 & -> & _); exact Hf).
    destruct F as [-> _]. exact Hf.
Qed.

(** X16. On a problem whose space terms assemble to the same pair
    [(A, bA)] and whose time terms to the same pair [(M, bM)] at every
    call, every solution of a returning run is the update law of its
    scheme applied to the solution before it: [(M + A) p = M p0 + bA + bM]
    for Implicit, [M p = (M - A) p0 + bA + bM] for Explicit,
    [(M + A/2) p = (M - A/2) p0 + (bA + bM)/2 + (bA + bM)/2] for
    Crank-Nicolson and, for BDF2, the Implicit law while the first-step
    flag is set and
    [(M + 2A/3) p = (4/3) M p0 - (1/3) M p_1 + (2/3) bA + bM] afterwards,
    [p_1] being the solution two steps back; the initial condition
    stands for the solutions before the first. *)
Theorem steps_follow_the_update_law
    (cls : scheme) (pb : Problem) (store : bool) (fuel : nat) (h : Env)
    (d : Data) (st : St) (A : Matrix) (bA : Vector) (M : Matrix) (bM : Vector) :
  concrete cls ->
  well_formed pb ->
  constant_terms pb A bA M bM ->
  run cls pb store fuel h = Ok (d, st) ->
  steps_follow cls A bA M bM (problem_time_step pb)
    (problem_initial_condition pb) (log st).
Proof.
  intros C W Hc H.
  exact (@run_steps_follow cls pb store fuel h d st A bA M bM C W Hc H).
Qed.

(** ** Construction of a Crank-Nicolson instance *)

(** X21. On a [GridBucket], with at least one term in each handle, the
    constructor of [CrankNicolson] returns: it assembles the space terms
    and then the time terms, once each and without [self.data], on the
    heap as it finds it (no [problem.update] has run), keeps the two
    pairs both as the current pairs and as the cache [*_0] of the
    previous step, and then sets what [AbstractSolver.__init__] sets. *)
Theorem CrankNicolson_constructs_on_a_bucket
    (pb : Problem) (h : Env) (s0 : Disc) (sr : list Disc)
    (t0 : Disc) (tr : list Disc) :
  isinstance_GridBucket (problem_grid pb) = true ->
  terms_of (problem_space_disc pb) = s0 :: sr ->
  terms_of (problem_time_disc pb) = t0 :: tr ->
  let rA := assemble (problem_grid pb) None s0 sr h in
  let rM := assemble (problem_grid pb) None t0 tr (snd rA) in
  exists st,
    __init__ CrankNicolson pb (fresh h) = Ok (tt, st) /\
    heap st = snd rM /\
    (self st self_lhs_flux = Some (fst (fst rA)) /\
     self st self_rhs_flux = Some (snd (fst rA)) /\
     self st self_lhs_time = Some (fst (fst rM)) /\
     self st self_rhs_time = Some (snd (fst rM))) /\
    (self st self_lhs_flux_0 = Some (fst (fst rA)) /\
     self st self_rhs_flux_0 = Some (snd (fst rA)) /\
     self st self_lhs_time_0 = Some (fst (fst rM)) /\
     self st self_rhs_time_0 = Some (snd (fst rM))) /\
    self st self_p = Some (problem_initial_condition pb) /\
    self st self_p0 = Some (problem_initial_condition pb) /\
    self st self_data = Some {| physics := []; times := [] |}.
Proof.
  intros Hb Es Et. cbn zeta.
  unfold __init__, CrankNicolson___init__, AbstractSolver___init__, fresh.
  repeat mstep. unfold bind at 1. run_discretize_bucket.
  repeat mstep. unfold bind at 1. run_discretize_bucket.
  repeat mstep. cbn [fst snd].
  eexists. split; [reflexivity|]. cbn. repeat split; reflexivity.
Qed.

(** ** Runs that cannot fail *)

Lemma while_no_raise {SS TT} (cond : TT -> M SS bool) (body : TT -> M SS TT)
    (I : TT -> SS -> Prop) :
  (forall t st,
      I t st ->
      exists c,
        cond t st = Ok (c, st) /\
        (c = true -> exists t' st', body t st = Ok (t', st') /\ I t' st')) ->
  forall fuel t st e, I t st -> while_ cond body fuel t st <> Raise e.
Proof.
  intros Hs. induction fuel as [|fuel IH]; intros t st e HI;
    destruct (Hs t st HI) as (c & Ec & Hb);
    cbn [while_]; unfold bind at 1; rewrite Ec; destruct c;
    try discriminate.
  destruct (Hb eq_refl) as (t' & st' & Eb & HI').
  unfold bind at 1. rewrite Eb. apply IH. exact HI'.
Qed.

(** X22. A run of one of the four schemes on a problem with at least one
    term in each handle (and, for Crank-Nicolson, on a bucket) raises no
    exception, whatever the step, the end time and the fuel: every
    attribute is assigned before it is read, [reassemble] precedes every
    [step], so that the solver never sees the placeholders [[]], and no
    [discs[0]] is out of range.  The run returns or, short of fuel, is
    still looping.  (The collaborators and the operations of numpy and
    scipy are total in the model; what they may raise is outside it.) *)
Theorem concrete_runs_raise_nothing
    (cls : scheme) (pb : Problem) (store : bool) (fuel : nat) (h : Env)
    (e : exn) :
  concrete cls ->
  well_formed pb ->
  (cls = CrankNicolson -> isinstance_GridBucket (problem_grid pb) = true) ->
  run cls pb store fuel h <> Raise e.
Proof.
  intros C W Hb.
  destruct (@start_ok cls pb store h (fun E => conj (Hb E) W))
    as (h0 & o0 & E0 & P0 & _).
  pose proof (sp_ready P0) as R0.
  rewrite run_unfold, E0, (solve_unfold fuel h0 [] R0).
  destruct (while_ (solve_cond cls) (while_body cls) fuel (first_time cls pb)
              {| heap := h0; self := o0; log := [] |})
    as [[t' st1]| e1 |] eqn:Ew; [| |discriminate].
  - destruct (@loop_safe cls pb (threshold cls pb) (solve_cond cls)
                (fun t h o l => @solve_cond_ok cls pb t h o l)
                C W (fun _ _ => True)
                (fun _ _ _ _ _ _ _ _ => Logic.I) fuel (first_time cls pb)
                {| heap := h0; self := o0; log := [] |} t' st1 R0 Logic.I Ew)
      as (R1 & _).
    destruct st1 as [h1 o1 l1]. cbn [self] in R1.
    destruct (finish_ok t' h1 l1 R1) as (d & st & Ef & _).
    destruct cls; rewrite Ef; discriminate.
  - exfalso.
    apply (@while_no_raise St Q (solve_cond cls) (while_body cls)
             (fun _ st => ready cls pb (self st)) ) with
      (fuel := fuel) (t := first_time cls pb)
      (st := {| heap := h0; self := o0; log := [] |}) (e := e1);
      [|exact R0|exact Ew].
    intros t [h1 o1 l1] R1. cbn [self] in R1.
    eexists. split; [apply (solve_cond_ok _ _ _ R1)|]. intros _.
    destruct (while_body_ok t h1 l1 C R1 W)
      as (h2 & o1' & o2 & p' & E1 & _ & _ & P2).
    do 2 eexists. split; [exact E1|exact (ad_ready P2)].
Qed.

(** ** The order of the calls in one iteration *)

Lemma advance_heap (cls : scheme) (pb : Problem) h (o : Obj) l (d : Data)
    s0 sr t0 tr :
  concrete cls -> ready cls pb o ->
  o self_data = Some d ->
  terms_of (problem_space_disc pb) = s0 :: sr ->
  terms_of (problem_time_disc pb) = t0 :: tr ->
  exists p' o2 l2,
    (reassemble cls ;; step) {| heap := h; self := o; log := l |}
    = Ok (p',
          {| heap :=
               snd (assemble (problem_grid pb)
                      (data_arg (problem_grid pb) (Some d)) t0 tr
                      (snd (assemble (problem_grid pb)
                              (data_arg (problem_grid pb) (Some d)) s0 sr h)));
             self := o2; log := l2 |}).
Proof.
  intros C R Hd Es Et.
  destruct cls; [exfalso; apply C; reflexivity|..]; open_ready R;
    unify_attrs;
    unfold reassemble, Implicit_reassemble, BDF2_reassemble,
      Explicit_reassemble, CrankNicolson_reassemble, step;
    mrun; run_discretize; mrun; run_discretize; mrun.
  all: try match goal with
           | b : attr_ty self_flag_first |- _ => destruct b; mrun
           end.
  all: do 3 eexists; reflexivity.
Qed.

(** X23. One iteration of a loop calls the collaborators in this order:
    the hook [problem.update(t)], then the space terms from left to
    right, then the time terms from left to right, each on the heap that
    the call before it left.  On a single grid the terms receive the
    data store as [update] has just left it, with the entry recorded for
    this iteration when [store_results] is on; on a bucket they receive
    no store. *)
Theorem iteration_calls_in_order
    (cls : scheme) (pb : Problem) (t : Q) (h : Env) (o : Obj)
    (l : list event) (pa : Parameters) (d : Data) (p : Vector)
    (s0 : Disc) (sr : list Disc) (t0 : Disc) (tr : list Disc) :
  concrete cls ->
  ready cls pb o ->
  o self_parameters = Some pa ->
  o self_data = Some d ->
  o self_p = Some p ->
  terms_of (problem_space_disc pb) = s0 :: sr ->
  terms_of (problem_time_disc pb) = t0 :: tr ->
  let g := problem_grid pb in
  let seen :=
    data_arg g (Some (stored (store_results pa) d p t (problem_time_step pb))) in
  let h1 := problem_update pb t h in
  let h2 := snd (assemble g seen s0 sr h1) in
  let h3 := snd (assemble g seen t0 tr h2) in
  exists p' st',
    iteration cls t {| heap := h; self := o; log := l |} = Ok (p', st') /\
    heap st' = h3.
Proof.
  intros C R Hpa Hd Hp Es Et. cbn zeta.
  assert (W : well_formed pb) by (split; congruence).
  destruct (iteration_ok t h l C R W)
    as (h2 & o1 & o2 & p' & E & P1 & _ & E2).
  pose proof (up_data P1 Hpa Hd Hp) as Hd1.
  destruct (@advance_heap cls pb (problem_update pb t h) o1
              (Update_exit t o1 :: Update_enter t o :: l) _ s0 sr t0 tr
              C (up_ready P1) Hd1 Es Et) as (p2 & o3 & l3 & E3).
  rewrite E3 in E2. inversion E2; subst.
  do 2 eexists. split; [exact E|reflexivity].
Qed.

(** ** Recording does not change the computation *)

Lemma assemble_rest_blind (pb : Problem) (d d' : Data) ds :
  data_blind pb ->
  forall acc h,
    assemble_rest (problem_grid pb) (data_arg (problem_grid pb) (Some d))
      ds acc h
    = assemble_rest (problem_grid pb) (data_arg (problem_grid pb) (Some d'))
        ds acc h.
Proof.
  intros [Hb | Hb].
  - unfold data_arg. rewrite Hb. reflexivity.
  - induction ds as [|disc ds IH]; intros acc h; cbn [assemble_rest];
      [reflexivity|].
    rewrite (Hb disc (data_arg (problem_grid pb) (Some d))
               (data_arg (problem_grid pb) (Some d')) h).
    destruct_matrix_rhs. apply IH.
Qed.

Lemma assemble_blind (pb : Problem) (d d' : Data) d0 ds h :
  data_blind pb ->
  assemble (problem_grid pb) (data_arg (problem_grid pb) (Some d)) d0 ds h
  = assemble (problem_grid pb) (data_arg (problem_grid pb) (Some d')) d0 ds h.
Proof.
  intros Hb. unfold assemble.
  assert (E : matrix_rhs d0 (problem_grid pb)
                (data_arg (problem_grid pb) (Some d)) h
              = matrix_rhs d0 (problem_grid pb)
                  (data_arg (problem_grid pb) (Some d')) h).
  { destruct Hb as [Hb | Hb]; [unfold data_arg; rewrite Hb; reflexivity|].
    apply Hb. }
  rewrite E. destruct_matrix_rhs.
  apply assemble_rest_blind. exact Hb.
Qed.

(** Run the next [_discretize] call and replace its result by the one a
    hypothesis gives. *)
Ltac run_discretize_with H :=
  erewrite _discretize_ok;
  [ | cbn; first [eassumption | reflexivity]
    | intros _; cbn; first [eassumption | reflexivity]
    | eassumption ];
  rewrite H; cbn [fst snd].

Lemma advance_explicit (cls : scheme) (pb : Problem) h (o : Obj) l (d : Data)
    s0 sr t0 tr A bA M bM h1 h2 A0 bA0 bM0 (f : bool) (p0 p_1 : Vector) :
  concrete cls -> ready cls pb o ->
  o self_data = Some d ->
  terms_of (problem_space_disc pb) = s0 :: sr ->
  terms_of (problem_time_disc pb) = t0 :: tr ->
  assemble (problem_grid pb) (data_arg (problem_grid pb) (Some d)) s0 sr h
  = ((A, bA), h1) ->
  assemble (problem_grid pb) (data_arg (problem_grid pb) (Some d)) t0 tr h1
  = ((M, bM), h2) ->
  o self_p0 = Some p0 ->
  (cls = BDF2 -> o self_p_1 = Some p_1 /\ o self_flag_first = Some f) ->
  (cls = CrankNicolson ->
   o self_lhs_flux_0 = Some A0 /\ o self_rhs_flux_0 = Some bA0 /\
   o self_rhs_time_0 = Some bM0) ->
  exists o2,
    (reassemble cls ;; step) {| heap := h; self := o; log := l |}
    = Ok (step_law cls A bA M bM A0 bA0 bM0 f p0 p_1,
          {| heap := h2; self := o2;
             log := Stepped (step_law cls A bA M bM A0 bA0 bM0 f p0 p_1)
                      :: l |}) /\
    ready cls pb o2 /\
    o2 self_p = Some (step_law cls A bA M bM A0 bA0 bM0 f p0 p_1) /\
    o2 self_p0 = o self_p0 /\
    o2 self_p_1 = o self_p_1 /\
    o2 self_flag_first = o self_flag_first /\
    o2 self_lhs_flux_0 = o self_lhs_flux_0 /\
    o2 self_rhs_flux_0 = o self_rhs_flux_0 /\
    o2 self_lhs_time_0 = o self_lhs_time_0 /\
    o2 self_rhs_time_0 = o self_rhs_time_0 /\
    (cls = CrankNicolson ->
     o2 self_lhs_flux = Some A /\ o2 self_rhs_flux = Some bA /\
     o2 self_lhs_time = Some M /\ o2 self_rhs_time = Some bM).
Proof.
  intros C R Hd Es Et HA HM Hp0 Hb Hcn.
  destruct cls; [exfalso; apply C; reflexivity|..].
  - clear Hb Hcn. open_ready R. unify_attrs.
    unfold reassemble, Implicit_reassemble, step.
    mrun; run_discretize_with HA; mrun; run_discretize_with HM; mrun.
    eexists. split; [reflexivity|]. split; [close_ready|].
    cbn. repeat split; solve [reflexivity | assumption | discriminate].
  - clear Hcn. destruct (Hb eq_refl) as [Hp1 Hff]. clear Hb.
    open_ready R. unify_attrs.
    unfold reassemble, BDF2_reassemble, step.
    mrun; run_discretize_with HA; mrun; run_discretize_with HM; mrun.
    destruct f; mrun;
      (eexists; split; [reflexivity|]; split; [close_ready|];
       cbn; repeat split; solve [reflexivity | assumption | discriminate]).
  - clear Hb Hcn. open_ready R. unify_attrs.
    unfold reassemble, Explicit_reassemble, step.
    mrun; run_discretize_with HA; mrun; run_discretize_with HM; mrun.
    eexists. split; [reflexivity|]. split; [close_ready|].
    cbn. repeat split; solve [reflexivity | assumption | discriminate].
  - clear Hb. destruct (Hcn eq_refl) as (Hl0 & Hr0 & Ht0). clear Hcn.
    open_ready R. unify_attrs.
    unfold reassemble, CrankNicolson_reassemble, step.
    mrun; run_discretize_with HA; mrun; run_discretize_with HM; mrun.
    eexists. split; [reflexivity|]. split; [close_ready|].
    cbn. repeat split; solve [reflexivity | assumption | discriminate].
Qed.

Lemma update_same_numbers (cls : scheme) (pb : Problem) t (o o' o1 o1' : Obj) :
  update_post cls pb t o o1 -> update_post cls pb t o' o1' ->
  same_numbers cls o o' -> same_numbers cls o1 o1'.
Proof.
  intros P P' (Sp & Sp0 & Sb & Sc). unfold same_numbers.
  split; [rewrite (up_p P), (up_p P'); exact Sp|].
  split; [rewrite (up_p0 P), (up_p0 P'); exact Sp|].
  split.
  - intros E. destruct (up_bdf2 P E) as [E1 E2].
    destruct (up_bdf2 P' E) as [E1' E2'].
    rewrite E1, E1', E2, E2'. split; [exact Sp0|reflexivity].
  - intros E.
    destruct (up_cn P E) as (A1 & A2 & A3 & A4 & A5 & A6 & A7 & A8).
    destruct (up_cn P' E) as (B1 & B2 & B3 & B4 & B5 & B6 & B7 & B8).
    destruct (Sc E) as (C1 & C2 & C3 & C4 & _).
    rewrite A1, A2, A3, A4, A5, A6, A7, A8, B1, B2, B3, B4, B5, B6, B7, B8.
    repeat split; assumption.
Qed.

Lemma while_unfold {SS TT} (cond : TT -> M SS bool) (body : TT -> M SS TT)
    fuel t s :
  while_ cond body fuel t s
  = match cond t s with
    | Ok (c, s1) =>
        if c then
          match fuel with
          | O => OutOfFuel
          | S fuel' => bind (body t) (while_ cond body fuel') s1
          end
        else Ok (t, s1)
    | Raise e => Raise e
    | OutOfFuel => OutOfFuel
    end.
Proof.
  destruct fuel; cbn [while_]; unfold bind at 1;
    destruct (cond t s) as [[[|] s1]| |]; reflexivity.
Qed.

(** Two loops that run the same test and body on related states stay
    related, iteration by iteration. *)
Lemma while_lockstep {SS TT} (cond : TT -> M SS bool) (body : TT -> M SS TT)
    (Rel : SS -> SS -> Prop) :
  (forall t s s',
      Rel s s' ->
      exists c,
        cond t s = Ok (c, s) /\ cond t s' = Ok (c, s') /\
        (c = true ->
         exists t' s1 s1',
           body t s = Ok (t', s1) /\ body t s' = Ok (t', s1') /\ Rel s1 s1')) ->
  forall fuel t s s',
    Rel s s' ->
    match while_ cond body fuel t s, while_ cond body fuel t s' with
    | Ok (t1, s1), Ok (t1', s1') => t1 = t1' /\ Rel s1 s1'
    | OutOfFuel, OutOfFuel => True
    | _, _ => False
    end.
Proof.
  intros Hs. induction fuel as [|fuel IH]; intros t s s' HR;
    destruct (Hs t s s' HR) as (c & Ec & Ec' & Hb);
    rewrite !while_unfold, Ec, Ec'; destruct c; try (cbn; auto; fail).
  destruct (Hb eq_refl) as (t' & s1 & s1' & Eb & Eb' & HR1).
  unfold bind. rewrite Eb, Eb'. apply IH. exact HR1.
Qed.

Lemma start_two (cls : scheme) (pb : Problem) (s1 s2 : bool) h st1 st2 :
  (__init__ cls pb ;; set_store_results s1) (fresh h) = Ok (tt, st1) ->
  (__init__ cls pb ;; set_store_results s2) (fresh h) = Ok (tt, st2) ->
  heap st1 = heap st2 /\ log st1 = log st2 /\
  forall a, a <> self_parameters -> self st1 a = self st2 a.
Proof.
  unfold bind at 1 2.
  destruct (__init__ cls pb (fresh h)) as [[u [hi oi li]]| |];
    try discriminate.
  unfold set_store_results, bind, getattr, setattr. cbn [self heap log].
  destruct (oi self_parameters) as [pa|]; try discriminate.
  intros H1 H2. inversion H1; inversion H2; subst. cbn [heap log self].
  split; [reflexivity|]. split; [reflexivity|].
  intros a Ha. unfold obj_set.
  destruct (attr_eq_dec self_parameters a) as [e|n]; [|reflexivity].
  exfalso. apply Ha. symmetry. exact e.
Qed.

Lemma iteration_lockstep (cls : scheme) (pb : Problem) (t : Q) h
    (o o' : Obj) l l' :
  concrete cls -> well_formed pb -> data_blind pb ->
  ready cls pb o -> ready cls pb o' -> same_numbers cls o o' ->
  exists p' h2 o2 o2' l2 l2',
    while_body cls t {| heap := h; self := o; log := l |}
    = Ok (t + problem_time_step pb, {| heap := h2; self := o2; log := l2 |}) /\
    while_body cls t {| heap := h; self := o'; log := l' |}
    = Ok (t + problem_time_step pb, {| heap := h2; self := o2'; log := l2' |}) /\
    ready cls pb o2 /\ ready cls pb o2' /\ same_numbers cls o2 o2' /\
    solutions l2 = solutions l ++ [p'] /\
    solutions l2' = solutions l' ++ [p'].
Proof.
  intros C W B R R' S.
  destruct (iteration_ok t h l C R W)
    as (h2 & o1 & o2 & p' & E & P1 & P2 & E2).
  destruct (iteration_ok t h l' C R' W)
    as (h2' & o1' & o2' & p'' & E' & P1' & P2' & E2').
  pose proof (update_same_numbers P1 P1' S) as S1.
  pose proof (up_ready P1) as R1. pose proof (up_ready P1') as R1'.
  destruct W as [Ws Wt].
  destruct (terms_of (problem_space_disc pb)) as [|s0 sr] eqn:Es; [congruence|].
  destruct (terms_of (problem_time_disc pb)) as [|t0 tr] eqn:Et; [congruence|].
  destruct (ready_base R1) as ([d1 Hd1] & [x Hx] & _).
  destruct (ready_base R1') as ([d1' Hd1'] & _).
  destruct (assemble (problem_grid pb) (data_arg (problem_grid pb) (Some d1))
              s0 sr (problem_update pb t h)) as [[A bA] h1] eqn:HA.
  destruct (assemble (problem_grid pb) (data_arg (problem_grid pb) (Some d1))
              t0 tr h1) as [[M bM] h3] eqn:HM.
  assert (HA' : assemble (problem_grid pb)
                  (data_arg (problem_grid pb) (Some d1')) s0 sr
                  (problem_update pb t h) = ((A, bA), h1))
    by (rewrite <- HA; symmetry; apply assemble_blind; exact B).
  assert (HM' : assemble (problem_grid pb)
                  (data_arg (problem_grid pb) (Some d1')) t0 tr h1
                = ((M, bM), h3))
    by (rewrite <- HM; symmetry; apply assemble_blind; exact B).
  destruct S1 as (Sp & Sp0 & Sb & Sc).
  pose (p_1 := match o1 self_p_1 with Some v => v | None => x end).
  pose (f := match o1 self_flag_first with Some b => b | None => true end).
  pose (A0 := match o1 self_lhs_flux_0 with Some v => v | None => A end).
  pose (bA0 := match o1 self_rhs_flux_0 with Some v => v | None => bA end).
  pose (bM0 := match o1 self_rhs_time_0 with Some v => v | None => bM end).
  assert (HB : cls = BDF2 ->
               o1 self_p_1 = Some p_1 /\ o1 self_flag_first = Some f).
  { intros Ec. pose proof (ready_class R1) as K. rewrite Ec in K.
    destruct K as ([v Hv] & [b Hb] & _). unfold p_1, f.
    rewrite Hv, Hb. auto. }
  assert (HC : cls = CrankNicolson ->
               o1 self_lhs_flux_0 = Some A0 /\ o1 self_rhs_flux_0 = Some bA0 /\
               o1 self_rhs_time_0 = Some bM0).
  { intros Ec. pose proof (ready_class R1) as K. rewrite Ec in K.
    destruct K as (_ & _ & _ & _ & [v1 Hv1] & [v2 Hv2] & _ & [v4 Hv4] & _).
    unfold A0, bA0, bM0. rewrite Hv1, Hv2, Hv4. auto. }
  assert (HB' : cls = BDF2 ->
                o1' self_p_1 = Some p_1 /\ o1' self_flag_first = Some f).
  { intros Ec. destruct (Sb Ec) as [K1 K2]. rewrite <- K1, <- K2. auto. }
  assert (HC' : cls = CrankNicolson ->
                o1' self_lhs_flux_0 = Some A0 /\
                o1' self_rhs_flux_0 = Some bA0 /\
                o1' self_rhs_time_0 = Some bM0).
  { intros Ec. destruct (Sc Ec) as (_ & _ & _ & _ & K1 & K2 & _ & K4).
    rewrite <- K1, <- K2, <- K4. auto. }
  assert (Hx' : o1' self_p0 = Some x) by (rewrite <- Sp0; exact Hx).
  destruct (@advance_explicit cls pb (problem_update pb t h) o1
              (Update_exit t o1 :: Update_enter t o :: l) d1 s0 sr t0 tr
              A bA M bM h1 h3 A0 bA0 bM0 f x p_1
              C R1 Hd1 Es Et HA HM Hx HB HC)
    as (oe & Ee & Re & Ep & Ep0 & Ep1 & Eff & F1 & F2 & F3 & F4 & Ecn).
  destruct (@advance_explicit cls pb (problem_update pb t h) o1'
              (Update_exit t o1' :: Update_enter t o' :: l') d1' s0 sr t0 tr
              A bA M bM h1 h3 A0 bA0 bM0 f x p_1
              C R1' Hd1' Es Et HA' HM' Hx' HB' HC')
    as (oe' & Ee' & Re' & Ep' & Ep0' & Ep1' & Eff' & F1' & F2' & F3' & F4'
        & Ecn').
  rewrite Ee in E2. rewrite Ee' in E2'.
  inversion E2; subst p' h2 o2. inversion E2'; subst p'' h2' o2'.
  clear E2 E2'.
  set (q := step_law cls A bA M bM A0 bA0 bM0 f x p_1) in *.
  exists q, h3, oe, oe'. do 2 eexists.
  split.
  { unfold while_body. unfold bind at 1. rewrite E.
    erewrite bind_getattr by apply (ready_dt Re). reflexivity. }
  split.
  { unfold while_body. unfold bind at 1. rewrite E'.
    erewrite bind_getattr by apply (ready_dt Re'). reflexivity. }
  split; [exact Re|]. split; [exact Re'|]. split.
  - unfold same_numbers. split; [rewrite Ep, Ep'; reflexivity|].
    split; [rewrite Ep0, Ep0'; exact Sp0|]. split.
    + intros Ec. destruct (Sb Ec) as [K1 K2].
      rewrite Ep1, Ep1', Eff, Eff'. auto.
    + intros Ec. destruct (Sc Ec) as (_ & _ & _ & _ & K1 & K2 & K3 & K4).
      destruct (Ecn Ec) as (G1 & G2 & G3 & G4).
      destruct (Ecn' Ec) as (G1' & G2' & G3' & G4').
      rewrite G1, G2, G3, G4, G1', G2', G3', G4', F1, F2, F3, F4,
        F1', F2', F3', F4'.
      repeat split; assumption.
  - split; reflexivity.
Qed.

(** X24. Recording does not change the computation: on a problem whose
    terms do not look at the data store they are given (on a
    [GridBucket] none is given), two runs of the same scheme from the
    same heap, one with [store_results] on and one with it off, return
    the same solutions step by step, leave the same heap and the same
    [self.p]. *)
Theorem store_results_changes_no_solution
    (cls : scheme) (pb : Problem) (fuel : nat) (h : Env)
    (d1 d2 : Data) (st1 st2 : St) :
  concrete cls ->
  well_formed pb ->
  data_blind pb ->
  run cls pb true fuel h = Ok (d1, st1) ->
  run cls pb false fuel h = Ok (d2, st2) ->
  solutions (log st1) = solutions (log st2) /\
  heap st1 = heap st2 /\
  self st1 self_p = self st2 self_p.
Proof.
  intros C W B H1 H2.
  destruct (@run_Ok_start cls pb true fuel h d1 st1 W H1)
    as (h0 & o0 & E0 & P0 & Hs).
  destruct (@run_Ok_start cls pb false fuel h d2 st2 W H2)
    as (h0' & o0' & E0' & P0' & Hs').
  destruct (@start_two cls pb true false h _ _ E0 E0') as (Eh & _ & Ea).
  cbn [heap self] in Eh, Ea. subst h0'.
  pose proof (sp_ready P0) as R0. pose proof (sp_ready P0') as R0'.
  assert (S0 : same_numbers cls o0 o0').
  { unfold same_numbers. repeat split; intros; apply Ea; discriminate. }
  pose (Rel := fun s s' : St =>
                 ready cls pb (self s) /\ ready cls pb (self s') /\
                 same_numbers cls (self s) (self s') /\
                 heap s = heap s' /\
                 solutions (log s) = solutions (log s')).
  assert (Hstep : forall t s s',
             Rel s s' ->
             exists c,
               solve_cond cls t s = Ok (c, s) /\
               solve_cond cls t s' = Ok (c, s') /\
               (c = true ->
                exists t' s1 s1',
                  while_body cls t s = Ok (t', s1) /\
                  while_body cls t s' = Ok (t', s1') /\ Rel s1 s1')).
  { intros t [hh oo ll] [hh' oo' ll'] (Ra & Rb & Sab & Eh & El).
    cbn [self heap log] in *. subst hh'.
    exists (Qlt_bool t (threshold cls pb)).
    split; [apply (solve_cond_ok _ _ _ Ra)|].
    split; [apply (solve_cond_ok _ _ _ Rb)|].
    intros _.
    destruct (@iteration_lockstep cls pb t hh oo oo' ll ll' C W B Ra Rb Sab)
      as (p' & h2 & o2 & o2' & l2 & l2' & Ew & Ew' & Rc & Rd & Scd & L1 & L2).
    do 3 eexists. split; [exact Ew|]. split; [exact Ew'|].
    unfold Rel. cbn [self heap log].
    split; [exact Rc|]. split; [exact Rd|]. split; [exact Scd|].
    split; [reflexivity|rewrite L1, L2, El; reflexivity]. }
  pose proof (@while_lockstep St Q (solve_cond cls) (while_body cls) Rel
                Hstep fuel (first_time cls pb)
                {| heap := h0; self := o0; log := [] |}
                {| heap := h0; self := o0'; log := [] |}) as L.
  rewrite (solve_unfold fuel h0 [] R0) in Hs.
  rewrite (solve_unfold fuel h0 [] R0') in Hs'.
  destruct (while_ (solve_cond cls) (while_body cls) fuel (first_time cls pb)
              {| heap := h0; self := o0; log := [] |})
    as [[t1 s1]| |]; try discriminate.
  destruct (while_ (solve_cond cls) (while_body cls) fuel (first_time cls pb)
              {| heap := h0; self := o0'; log := [] |})
    as [[t1' s1']| |]; try discriminate.
  destruct L as (Et & Ra & Rb & (Sp & _) & Eh & El).
  { unfold Rel. cbn [self heap log]. auto. }
  subst t1'. destruct s1 as [ha oa la], s1' as [hb ob lb].
  cbn [self heap log] in *. subst hb.
  destruct (finish_ok t1 ha la Ra) as (da & sta & Ef & F).
  destruct (finish_ok t1 ha lb Rb) as (db & stb & Ef' & F').
  assert (Ea1 : Ok (da, sta) = Ok (d1, st1))
    by (rewrite <- Hs; symmetry; destruct cls; exact Ef).
  assert (Eb1 : Ok (db, stb) = Ok (d2, st2))
    by (rewrite <- Hs'; symmetry; destruct cls; exact Ef').
  inversion Ea1; inversion Eb1; subst. clear Ea1 Eb1.
  unfold finished in F, F'.
  destruct cls;
    try (destruct F as (oa1 & -> & Pa & _); destruct F' as (ob1 & -> & Pb & _);
         cbn [log heap self solutions];
         rewrite (up_p Pa), (up_p Pb); auto).
  destruct F as [-> _]. destruct F' as [-> _]. cbn [log heap self]. auto.
Qed.


End Solver.

(** * The schemes on scalar decay *)

Module ScalarRuns.

Import OneDof ScalarDecay.

(** Unfold the operations of the interface to those of [Qc]. *)
Ltac scalar :=
  cbn [step_map spsolve mulv msub vadd vsub madd mscale vscale linalg];
  unfold qc; change (Q2Qc (0 # 1)) with 0%Qc;
  change (@Vector linalg) with Qc in *.

Lemma Q2Qc_inv (q : Q) : Q2Qc (/ q) = (/ Q2Qc q)%Qc.
Proof.
  unfold Qcinv. apply Q2Qc_eq_iff. cbn [this Q2Qc].
  rewrite Qred_correct. reflexivity.
Qed.

Lemma Q2Qc_nonzero (q : Q) : ~ q == 0 -> Q2Qc q <> 0%Qc.
Proof. intros H E. apply H. apply Q2Qc_eq_iff. exact E. Qed.

Lemma decay_rate_well_formed g lam dt T ic :
  well_formed (decay_rate g lam dt T ic).
Proof. split; discriminate. Qed.

Lemma decay_rate_constant_terms g lam dt T ic :
  constant_terms (decay_rate g lam dt T ic)
    lam (qc 0 1) (Q2Qc (/ dt)) (qc 0 1).
Proof.
  split; intros [h o l] r st';
    unfold decay_rate, problem_space_disc, problem_time_disc, one_term,
      _discretize;
    (destruct (o self_g) as [g'|] eqn:Hg; mrun; [|discriminate]);
    (destruct (isinstance_GridBucket g'); mrun;
     [|destruct (o self_data) as [d|] eqn:Hd; mrun; [|discriminate]]);
    intros H; inversion H; reflexivity.
Qed.

Lemma steps_follow_scale (cls : scheme) (lam M r ic : Qc) (dt : Q) l :
  (forall f p0 p_1,
      step_map cls lam (qc 0 1) M (qc 0 1) f p0 p_1 = (r * p0)%Qc) ->
  steps_follow cls lam (qc 0 1) M (qc 0 1) dt ic l ->
  each_step_scales r ic l.
Proof.
  intros Hr. induction l as [|[t o|t o|p] l IH]; cbn; auto.
  intros [E Hl]. split; [|exact (IH Hl)]. rewrite E. apply Hr.
Qed.

(** X17. On scalar decay [dp/dt + lam p = 0] with a non-zero step, every
    step of the Explicit scheme multiplies the solution by
    [1 - lam dt]. *)
Theorem Explicit_scalar_decay
    (g : Grid) (lam : Qc) (dt T : Q) (ic : Qc) (store : bool) (fuel : nat)
    (h : Q) (d : Data) (st : St) :
  ~ dt == 0 ->
  run Explicit (decay_rate g lam dt T ic) store fuel h = Ok (d, st) ->
  each_step_scales (1 - lam * Q2Qc dt)%Qc ic (log st).
Proof.
  intros Hdt H. apply Q2Qc_nonzero in Hdt.
  apply (@steps_follow_scale Explicit lam (Q2Qc (/ dt)) _ ic dt).
  - intros f p0 p_1. scalar. rewrite Q2Qc_inv. field.
    split; [exact Hdt|discriminate].
  - apply (@run_steps_follow linalg collaborators Explicit
             (decay_rate g lam dt T ic) store fuel h d st);
      [discriminate|apply decay_rate_well_formed
      |apply decay_rate_constant_terms|exact H].
Qed.

(** X18. On scalar decay with a non-zero step and [1 + lam dt] not zero,
    every step of the Implicit scheme divides the solution by
    [1 + lam dt]. *)
Theorem Implicit_scalar_decay
    (g : Grid) (lam : Qc) (dt T : Q) (ic : Qc) (store : bool) (fuel : nat)
    (h : Q) (d : Data) (st : St) :
  ~ dt == 0 ->
  (1 + lam * Q2Qc dt)%Qc <> 0%Qc ->
  run Implicit (decay_rate g lam dt T ic) store fuel h = Ok (d, st) ->
  each_step_scales (/ (1 + lam * Q2Qc dt))%Qc ic (log st).
Proof.
  intros Hdt Hden H. apply Q2Qc_nonzero in Hdt.
  apply (@steps_follow_scale Implicit lam (Q2Qc (/ dt)) _ ic dt).
  - intros f p0 p_1. scalar. rewrite Q2Qc_inv. field.
    split; [exact Hden|exact Hdt].
  - apply (@run_steps_follow linalg collaborators Implicit
             (decay_rate g lam dt T ic) store fuel h d st);
      [discriminate|apply decay_rate_well_formed
      |apply decay_rate_constant_terms|exact H].
Qed.

(** X19. On scalar decay with a non-zero step and [1 + lam dt / 2] not
    zero, every step of the Crank-Nicolson scheme multiplies the solution
    by [(1 - lam dt / 2) / (1 + lam dt / 2)]. *)
Theorem CrankNicolson_scalar_decay
    (g : Grid) (lam : Qc) (dt T : Q) (ic : Qc) (store : bool) (fuel : nat)
    (h : Q) (d : Data) (st : St) :
  ~ dt == 0 ->
  (1 + qc 1 2 * lam * Q2Qc dt)%Qc <> 0%Qc ->
  run CrankNicolson (decay_rate g lam dt T ic) store fuel h = Ok (d, st) ->
  each_step_scales
    ((1 - qc 1 2 * lam * Q2Qc dt) / (1 + qc 1 2 * lam * Q2Qc dt))%Qc
    ic (log st).
Proof.
  intros Hdt Hden H. apply Q2Qc_nonzero in Hdt.
  apply (@steps_follow_scale CrankNicolson lam (Q2Qc (/ dt)) _ ic dt).
  - intros f p0 p_1. unfold qc in Hden. scalar. rewrite Q2Qc_inv. field.
    split; [exact Hden|exact Hdt].
  - apply (@run_steps_follow linalg collaborators CrankNicolson
             (decay_rate g lam dt T ic) store fuel h d st);
      [discriminate|apply decay_rate_well_formed
      |apply decay_rate_constant_terms|exact H].
Qed.

Lemma first_flag_only (dt : Q) (k : nat) :
  eps_first < dt ->
  Qle_bool (inject_Z (Z.of_nat k) * dt) eps_first = Nat.eqb k 0.
Proof.
  intros Hdt. destruct k as [|k]; cbn [Nat.eqb].
  - apply Qle_bool_iff. change (inject_Z (Z.of_nat 0)) with 0.
    unfold eps_first. lra.
  - destruct (Qle_bool (inject_Z (Z.of_nat (S k)) * dt) eps_first) eqn:E;
      [|reflexivity].
    apply Qle_bool_iff in E.
    assert (L : (1 <= S k)%nat) by lia.
    apply (scale_le (dt := dt)) in L; [|unfold eps_first in Hdt; lra].
    change (inject_Z (Z.of_nat 1)) with 1 in L. lra.
Qed.

Lemma thirds :
  Q2Qc (4 # 3) = ((1 + 1 + 1 + 1) / (1 + 1 + 1))%Qc /\
  Q2Qc (1 # 3) = (1 / (1 + 1 + 1))%Qc /\
  Q2Qc (2 # 3) = ((1 + 1) / (1 + 1 + 1))%Qc /\
  Q2Qc (4 # 1) = (1 + 1 + 1 + 1)%Qc /\
  Q2Qc (3 # 1) = (1 + 1 + 1)%Qc /\
  Q2Qc (2 # 1) = (1 + 1)%Qc.
Proof. repeat split; apply Qc_is_canon; reflexivity. Qed.

(** X20. On scalar decay with a step above [1e-6] and non-zero
    denominators, the first step of BDF2 divides the initial condition by
    [1 + lam dt], as a step of Implicit does, and every later step
    returns [(4 p0 - p_1) / (3 + 2 lam dt)], with [p0] the solution of the
    step before and [p_1] the one before that (the initial condition at
    the second step). *)
Theorem BDF2_scalar_decay
    (g : Grid) (lam : Qc) (dt T : Q) (ic : Qc) (store : bool) (fuel : nat)
    (h : Q) (d : Data) (st : St) :
  eps_first < dt ->
  (1 + lam * Q2Qc dt)%Qc <> 0%Qc ->
  (qc 3 1 + qc 2 1 * lam * Q2Qc dt)%Qc <> 0%Qc ->
  run BDF2 (decay_rate g lam dt T ic) store fuel h = Ok (d, st) ->
  two_step_recurrence (/ (1 + lam * Q2Qc dt))%Qc
    (/ (qc 3 1 + qc 2 1 * lam * Q2Qc dt))%Qc ic (log st).
Proof.
  intros Heps Hd1 Hd2 H.
  assert (Hdt : Q2Qc dt <> 0%Qc)
    by (apply Q2Qc_nonzero; unfold eps_first in Heps; lra).
  destruct thirds as (T43 & T13 & T23 & T4 & T3 & T2).
  assert (N3 : (1 + 1 + 1)%Qc <> 0%Qc) by discriminate.
  pose proof (@run_steps_follow linalg collaborators BDF2
                (decay_rate g lam dt T ic) store fuel h d st
                lam (qc 0 1) (Q2Qc (/ dt)) (qc 0 1)) as F.
  specialize (F ltac:(discriminate) (decay_rate_well_formed g lam dt T ic)
                (decay_rate_constant_terms g lam dt T ic) H).
  cbn [problem_time_step problem_initial_condition decay_rate] in F.
  revert F. generalize (log st). clear H.
  induction l as [|[t o|t o|p] l IH]; cbn [steps_follow two_step_recurrence];
    auto.
  intros [E Hl]. split; [|exact (IH Hl)]. rewrite E.
  rewrite (first_flag_only _ Heps).
  unfold qc in Hd2. rewrite T3, T2 in Hd2.
  destruct (Nat.eqb (steps_taken l) 0); scalar; rewrite Q2Qc_inv;
    rewrite ?T43, ?T13, ?T23, ?T4, ?T3, ?T2; field; auto.
Qed.

End ScalarRuns.

(** * The stepping loops in binary64 *)

(** What rounding does to the two loops, by running their loop variable
    in binary64. *)
Module Binary64Runs.
Import PrimFloat Binary64.
#[local] Set Warnings "-inexact-float".
#[local] Open Scope float_scope.

(** The bound [T + 1e-14] of the loop of [AbstractSolver.solve] is above
    [T] at [T = 127] and is [T] itself at [T = 128]. *)
Lemma bound_rounds_to_the_end_time :
  (127 <? 127 + eps_loop) = true /\ (128 + eps_loop =? 128) = true.
Proof. split; vm_compute; reflexivity. Qed.

(** With [dt = 1] and [T = 3] both loops run three iterations, as on
    exact rationals. *)
Lemma iterations_at_3 : iterations 1 3 10 = Some (3%nat, 3%nat).
Proof. vm_compute. reflexivity. Qed.

(** With [dt = 1] and [T = 128] the loop of [AbstractSolver.solve] runs
    127 iterations and ends at [t = 128], which is [T]; the loop of
    [Explicit.solve] runs 128 iterations. *)
Lemma iterations_at_128 :
  AbstractSolver_solve_loop 1 128 200 = Some (127%nat, 128) /\
  Explicit_solve_loop 1 128 200 = Some (128%nat, 128).
Proof. split; vm_compute; reflexivity. Qed.

(** With [dt = 1] and [T = 129], and with [dt = 0.5] and [T = 128]. *)
Lemma iterations_at_129 :
  iterations 1 129 200 = Some (128%nat, 128%nat) /\
  iterations 0.5 128 300 = Some (255%nat, 256%nat).
Proof. split; vm_compute; reflexivity. Qed.

(** With [dt = 1.82] and [T = 36 * 1.82] it is the loop of
    [Explicit.solve] that runs one iteration fewer. *)
Lemma iterations_at_36_steps_of_1_82 :
  iterations 1.82 (36 * 1.82) 50 = Some (36%nat, 35%nat).
Proof. vm_compute. reflexivity. Qed.

(** For [dt] among [1], [0.5] and [0.1], and every [N] up to 400, both
    loops run [N] iterations or one fewer when [T = N * dt]. *)
Lemma iterations_within_one_of_N :
  forallb (fun dt => forallb (within_one_of dt) (seq 0 401)) [1; 0.5; 0.1]
  = true.
Proof. vm_compute. reflexivity. Qed.

End Binary64Runs.

(** * The claims on a concrete problem *)

Module Concrete.

Import OneDof ScalarDecay ScalarRuns.

(** C3 at [st_implicit]. *)
Lemma Implicit_reassemble_formula_witness :
  reassemble Implicit st_implicit
  = Ok (tt, {| heap := 0;
               self := obj_set self_rhs
                         (Arr (vadd (vadd (mulv (Q2Qc (/ 1)) (qc 1 1)) (qc 0 1))
                                    (qc 0 1)))
                         (obj_set self_lhs (Arr (madd (Q2Qc (/ 1)) (qc 1 1)))
                            (self st_implicit));
               log := [] |}).
Proof.
  apply (@Implicit_reassemble_formula linalg collaborators st_implicit st_implicit st_implicit
           (one_term (qc 1 1) (qc 0 1)) (one_term (Q2Qc (/ 1)) (qc 0 1))
           (qc 1 1) (qc 1 1) (qc 0 1) (Q2Qc (/ 1)) (qc 0 1));
    reflexivity.
Defined.

(** C5 at [st_bdf2] and [t = 2]. *)
Lemma BDF2_later_step_formula_witness :
  exists st1,
    update BDF2 2 st_bdf2 = Ok (tt, st1) /\
    self st1 self_flag_first = Some false /\
    self st1 self_p_1 = Some (qc 1 1) /\
    self st1 self_p0 = Some (qc 1 1).
Proof.
  destruct (@BDF2_later_step_formula linalg collaborators st_bdf2 2 1 pb3
              {| store_results := false; verbose := false |}
              {| physics := []; times := [] |} (qc 1 1) (qc 1 1))
    as (st1 & E & F & P1 & P0 & _); try reflexivity.
  exists st1. auto.
Defined.

(** C6 at [st_cn]. *)
Lemma CrankNicolson_step_formula_witness :
  exists st', reassemble CrankNicolson st_cn = Ok (tt, st').
Proof.
  eexists.
  apply (@CrankNicolson_step_formula linalg collaborators laws
           st_cn st_cn st_cn
           (one_term (qc 1 1) (qc 0 1)) (one_term (Q2Qc (/ 1)) (qc 0 1))
           (qc 1 1) (qc 1 1) (qc 0 1) (qc 0 1)
           (qc 1 1) (qc 0 1) (Q2Qc (/ 1)) (qc 0 1));
    reflexivity.
Defined.


(** C10 on [pb3], whose domain is a single grid. *)
Lemma CrankNicolson_single_grid_fails_witness :
  __init__ CrankNicolson pb3 (fresh 0) = Raise AttributeError.
Proof.
  apply (@CrankNicolson_single_grid_fails linalg collaborators pb3 O 0);
    [reflexivity|discriminate].
Defined.

Lemma pb3_well_formed : well_formed pb3.
Proof. split; discriminate. Qed.



(** C2, amended, on the Implicit run of [pb3] with the history on: four
    entries for four [update] calls and three steps. *)
Lemma history_counts_updates_witness :
  match run Implicit pb3 true 3 0 with
  | Ok (d, st) =>
      history_ok true d (updates_called (log st)) /\
      updates_called (log st) = (steps_taken (log st) + 1)%nat
  | _ => False
  end.
Proof.
  assert (K : is_Ok (run Implicit pb3 true 3 0) = true)
    by (vm_compute; reflexivity).
  destruct (run Implicit pb3 true 3 0) as [[d st]| |] eqn:E;
    [|discriminate K..].
  apply (@history_counts_updates linalg collaborators Implicit pb3 true 3 0
           d st); [discriminate|exact pb3_well_formed|exact E].
Defined.

(** C2 as stated fails on that run: four entries, three steps. *)
Lemma history_counts_steps_counterexample :
  ~ history_counts_steps Implicit pb3 true 3 0.
Proof.
  vm_compute. intros [H _]. discriminate H.
Qed.

(** C8, amended, on the Implicit run of [pb3]. *)
Lemma update_rolls_the_history_witness :
  match run Implicit pb3 false 3 0 with
  | Ok (_, st) => update_calls_ok Implicit (qc 1 1) (log st)
  | _ => False
  end.
Proof.
  assert (K : is_Ok (run Implicit pb3 false 3 0) = true)
    by (vm_compute; reflexivity).
  destruct (run Implicit pb3 false 3 0) as [[d st]| |] eqn:E;
    [|discriminate K..].
  apply (@update_rolls_the_history linalg collaborators Implicit pb3 false
           3 0 d st); [discriminate|exact pb3_well_formed|exact E].
Defined.

(** C8 as stated fails on that run: when the last [update] call starts,
    [p0] is 1/4, the solution of the second step, while the step before
    the call accepted 1/8. *)
Lemma p0_rolled_before_update_counterexample :
  ~ p0_rolled_before_update Implicit pb3 false 3 0.
Proof.
  vm_compute. intros [[H _] _]. discriminate H.
Qed.

Lemma pb3_still_zero_space : zero_space pb3_still.
Proof.
  intros [h o l] r st'.
  unfold pb3_still, still, problem_space_disc, one_term, _discretize.
  destruct (o self_g) as [g|] eqn:Hg; mrun; [|discriminate].
  destruct (isinstance_GridBucket g); mrun.
  - intros H. inversion H. reflexivity.
  - destruct (o self_data) as [d|] eqn:Hd; mrun; [|discriminate].
    intros H. inversion H. reflexivity.
Qed.

Lemma pb3_still_mass_time : mass_time pb3_still.
Proof.
  assert (N : Q2Qc (/ 1) <> 0%Qc) by discriminate.
  intros [h o l] r st'.
  unfold pb3_still, still, problem_time_disc, one_term, _discretize.
  destruct (o self_g) as [g|] eqn:Hg; mrun; [|discriminate].
  destruct (isinstance_GridBucket g); mrun.
  - intros H. inversion H. split; [exact N|reflexivity].
  - destruct (o self_data) as [d|] eqn:Hd; mrun; [|discriminate].
    intros H. inversion H. split; [exact N|reflexivity].
Qed.

Lemma pb3_still_well_formed : well_formed pb3_still.
Proof. split; discriminate. Qed.

(** C7 on [pb3_still], for Crank-Nicolson with the history on. *)
Lemma zero_operator_keeps_initial_condition_witness :
  exists n d st,
    (forall fuel, (n <= fuel)%nat ->
                  run CrankNicolson pb3_still true fuel 0 = Ok (d, st)) /\
    constant_state (qc 1 1) d st.
Proof.
  apply (@zero_operator_keeps_initial_condition linalg collaborators laws
           CrankNicolson pb3_still true 0).
  - right. right. reflexivity.
  - exact pb3_still_well_formed.
  - exact pb3_still_zero_space.
  - exact pb3_still_mass_time.
  - reflexivity.
  - reflexivity.
Defined.

(** ** The further properties on concrete problems *)

(** Open a run that returns into its data store and final state. *)
Ltac open_run r d st E :=
  let K := fresh "K" in
  assert (K : is_Ok r = true) by (vm_compute; reflexivity);
  destruct r as [[d st]| |] eqn:E; [|discriminate K..].



(** X3 on the Explicit run of [pb3]. *)
Lemma update_times_progress_witness :
  match run Explicit pb3 false 3 0 with
  | Ok (_, st) =>
      length (update_times (log st)) = (steps_taken (log st) + 0)%nat /\
      forall k u,
        nth_error (update_times (log st)) k = Some u ->
        u == 0 + inject_Z (Z.of_nat k) * 1
  | _ => False
  end.
Proof.
  open_run (run Explicit pb3 false 3 0) d st E.
  apply (@update_times_progress linalg collaborators Explicit pb3 false 3 0
           d st); [discriminate|exact pb3_well_formed|exact E].
Defined.

(** X4 on the Implicit run of [pb3]. *)
Lemma last_update_is_at_or_past_the_end_time_witness :
  match run Implicit pb3 false 3 0 with
  | Ok (_, st) =>
      exists ts t',
        update_times (log st) = ts ++ [t'] /\
        Forall (fun u => u < 3 + eps_loop) ts /\
        3 <= t'
  | _ => False
  end.
Proof.
  open_run (run Implicit pb3 false 3 0) d st E.
  apply (@last_update_is_at_or_past_the_end_time linalg collaborators Implicit
           pb3 false 3 0 d st); [discriminate|exact pb3_well_formed|exact E].
Defined.

(** X5 on the Explicit run of [pb3] with the history on. *)
Lemma recorded_times_lag_one_step_witness :
  match run Explicit pb3 true 3 0 with
  | Ok (d, st) =>
      times d = map (fun t => t - 1) (update_times (log st)) /\
      forall k u,
        nth_error (times d) k = Some u ->
        u == 0 + inject_Z (Z.of_nat k) * 1 - 1
  | _ => False
  end.
Proof.
  open_run (run Explicit pb3 true 3 0) d st E.
  apply (@recorded_times_lag_one_step linalg collaborators Explicit pb3 3 0
           d st); [discriminate|exact pb3_well_formed|exact E].
Defined.

(** X6 on the Explicit run of [pb3] with the history on. *)
Lemma recorded_solutions_witness :
  match run Explicit pb3 true 3 0 with
  | Ok (d, st) => physics d = removelast (qc 1 1 :: solutions (log st))
  | _ => False
  end.
Proof.
  open_run (run Explicit pb3 true 3 0) d st E.
  apply (@recorded_solutions linalg collaborators Explicit pb3 3 0 d st);
    [discriminate|exact pb3_well_formed|exact E].
Defined.

(** X7 on the Explicit run of [pb3]. *)
Lemma solve_leaves_the_last_solution_witness :
  match run Explicit pb3 false 3 0 with
  | Ok (d, st) =>
      self st self_p = Some (last_solution (qc 1 1) (log st)) /\
      self st self_p0 = Some (previous_solution (qc 1 1) (log st)) /\
      self st self_data = Some d /\
      self st self_parameters
      = Some {| store_results := false; verbose := false |}
  | _ => False
  end.
Proof.
  open_run (run Explicit pb3 false 3 0) d st E.
  apply (@solve_leaves_the_last_solution linalg collaborators Explicit pb3
           false 3 0 d st); [discriminate|exact pb3_well_formed|exact E].
Defined.

(** X8 on decay with [dt = 5] and [T = 3], for the abstract base. *)
Lemma no_step_when_the_step_exceeds_the_end_time_witness :
  exists st,
    run AbstractSolver (decay_rate (SingleGrid 0) (qc 1 1) 5 3 (qc 1 1))
      true 0 0
    = Ok (stored true {| physics := []; times := [] |} (qc 1 1) 5 5, st) /\
    steps_taken (log st) = 0%nat /\
    heap st = 5.
Proof.
  apply (@no_step_when_the_step_exceeds_the_end_time linalg collaborators
           AbstractSolver (decay_rate (SingleGrid 0) (qc 1 1) 5 3 (qc 1 1))
           true 0 0); discriminate.
Defined.



(** X11 on the BDF2 run of [pb3]. *)
Lemma BDF2_flag_follows_the_time_witness :
  match run BDF2 pb3 false 3 0 with
  | Ok (_, st) => flags_follow_time 1 (log st)
  | _ => False
  end.
Proof.
  open_run (run BDF2 pb3 false 3 0) d st E.
  apply (@BDF2_flag_follows_the_time linalg collaborators pb3 false 3 0 d st);
    [exact pb3_well_formed|exact E].
Defined.

(** X12 on a bucket: the constructed Crank-Nicolson instance against an
    instance that holds the bucket and nothing else. *)
Lemma _discretize_reads_g_and_data_witness :
  outcome (_discretize (one_term (qc 1 1) (qc 0 1))
             {| heap := 0; self := self st_cn; log := [] |})
  = outcome (_discretize (one_term (qc 1 1) (qc 0 1))
               {| heap := 0; self := obj_set self_g (GridBucket 0) new_obj;
                  log := [] |}).
Proof.
  apply (@_discretize_reads_g_and_data linalg collaborators
           (one_term (qc 1 1) (qc 0 1)) 0 (self st_cn)
           (obj_set self_g (GridBucket 0) new_obj) [] []).
  - reflexivity.
  - intros g E Hb. vm_compute in E. inversion E; subst g. discriminate Hb.
Defined.

(** X13 at [st_implicit], for two terms. *)
Lemma _discretize_one_more_term_witness :
  _discretize (TupleOf ([((qc 1 1, qc 0 1) : @Disc linalg collaborators)] ++ [((qc 2 1, qc 1 1) : @Disc linalg collaborators)]))
    st_implicit
  = ('(lhs, rhs) <- _discretize (TupleOf [((qc 1 1, qc 0 1) : @Disc linalg collaborators)]) ;;
     '(lhs_n, rhs_n) <- _discretize (OneDisc ((qc 2 1, qc 1 1) : @Disc linalg collaborators)) ;;
     ret (madd lhs lhs_n, vadd rhs rhs_n)) st_implicit.
Proof.
  apply (@_discretize_one_more_term linalg collaborators
           [((qc 1 1, qc 0 1) : @Disc linalg collaborators)] ((qc 2 1, qc 1 1) : @Disc linalg collaborators) st_implicit).
  discriminate.
Defined.

(** X14 at the Explicit instance constructed on [pb3]. *)
Lemma Explicit_step_formula_witness :
  (reassemble Explicit ;; step) (started Explicit pb3 false 0)
  = Ok (spsolve (Q2Qc (/ 1))
          (vadd (vadd (mulv (msub (Q2Qc (/ 1)) (qc 1 1)) (qc 1 1)) (qc 0 1))
             (qc 0 1)),
        {| heap := 0;
           self :=
             obj_set self_p
               (spsolve (Q2Qc (/ 1))
                  (vadd (vadd (mulv (msub (Q2Qc (/ 1)) (qc 1 1)) (qc 1 1))
                           (qc 0 1)) (qc 0 1)))
               (obj_set self_rhs
                  (Arr (vadd (vadd (mulv (msub (Q2Qc (/ 1)) (qc 1 1)) (qc 1 1))
                                (qc 0 1)) (qc 0 1)))
                  (obj_set self_lhs (Arr (Q2Qc (/ 1)))
                     (self (started Explicit pb3 false 0))));
           log := [Stepped
                     (spsolve (Q2Qc (/ 1))
                        (vadd (vadd (mulv (msub (Q2Qc (/ 1)) (qc 1 1)) (qc 1 1))
                                 (qc 0 1)) (qc 0 1)))] |}).
Proof.
  apply (@Explicit_step_formula linalg collaborators
           (started Explicit pb3 false 0) (started Explicit pb3 false 0)
           (started Explicit pb3 false 0)
           (one_term (qc 1 1) (qc 0 1)) (one_term (Q2Qc (/ 1)) (qc 0 1))
           (qc 1 1) (qc 1 1) (qc 0 1) (Q2Qc (/ 1)) (qc 0 1));
    reflexivity.
Defined.

(** X16 on the Crank-Nicolson run of [pb3_bucket]. *)
Lemma steps_follow_the_update_law_witness :
  match run CrankNicolson pb3_bucket false 3 0 with
  | Ok (_, st) =>
      steps_follow CrankNicolson (qc 1 1) (qc 0 1) (Q2Qc (/ 1)) (qc 0 1) 1
        (qc 1 1) (log st)
  | _ => False
  end.
Proof.
  open_run (run CrankNicolson pb3_bucket false 3 0) d st E.
  apply (@steps_follow_the_update_law linalg collaborators CrankNicolson
           pb3_bucket false 3 0 d st (qc 1 1) (qc 0 1) (Q2Qc (/ 1)) (qc 0 1));
    [discriminate
    |apply (decay_rate_well_formed (GridBucket 0) (qc 1 1) 1 3 (qc 1 1))
    |apply (decay_rate_constant_terms (GridBucket 0) (qc 1 1) 1 3 (qc 1 1))
    |exact E].
Defined.

(** X17 on decay at rate 1/2 with [dt = 1] and [T = 3]. *)
Lemma Explicit_scalar_decay_witness :
  match run Explicit (decay_rate (SingleGrid 0) (qc 1 2) 1 3 (qc 1 1))
          false 3 0 with
  | Ok (_, st) => each_step_scales (1 - qc 1 2 * Q2Qc 1)%Qc (qc 1 1) (log st)
  | _ => False
  end.
Proof.
  open_run (run Explicit (decay_rate (SingleGrid 0) (qc 1 2) 1 3 (qc 1 1))
              false 3 0) d st E.
  apply (@Explicit_scalar_decay (SingleGrid 0) (qc 1 2) 1 3 (qc 1 1)
           false 3 0 d st); [discriminate|exact E].
Defined.

(** X18 on the same problem. *)
Lemma Implicit_scalar_decay_witness :
  match run Implicit (decay_rate (SingleGrid 0) (qc 1 2) 1 3 (qc 1 1))
          false 3 0 with
  | Ok (_, st) =>
      each_step_scales (/ (1 + qc 1 2 * Q2Qc 1))%Qc (qc 1 1) (log st)
  | _ => False
  end.
Proof.
  open_run (run Implicit (decay_rate (SingleGrid 0) (qc 1 2) 1 3 (qc 1 1))
              false 3 0) d st E.
  apply (@Implicit_scalar_decay (SingleGrid 0) (qc 1 2) 1 3 (qc 1 1)
           false 3 0 d st); [discriminate|discriminate|exact E].
Defined.

(** X19 on the same problem, on a bucket. *)
Lemma CrankNicolson_scalar_decay_witness :
  match run CrankNicolson (decay_rate (GridBucket 0) (qc 1 2) 1 3 (qc 1 1))
          false 3 0 with
  | Ok (_, st) =>
      each_step_scales
        ((1 - qc 1 2 * qc 1 2 * Q2Qc 1) / (1 + qc 1 2 * qc 1 2 * Q2Qc 1))%Qc
        (qc 1 1) (log st)
  | _ => False
  end.
Proof.
  open_run (run CrankNicolson (decay_rate (GridBucket 0) (qc 1 2) 1 3 (qc 1 1))
              false 3 0) d st E.
  apply (@CrankNicolson_scalar_decay (GridBucket 0) (qc 1 2) 1 3 (qc 1 1)
           false 3 0 d st); [discriminate|discriminate|exact E].
Defined.

(** X20 on the same problem, on a single grid. *)
Lemma BDF2_scalar_decay_witness :
  match run BDF2 (decay_rate (SingleGrid 0) (qc 1 2) 1 3 (qc 1 1))
          false 3 0 with
  | Ok (_, st) =>
      two_step_recurrence (/ (1 + qc 1 2 * Q2Qc 1))%Qc
        (/ (qc 3 1 + qc 2 1 * qc 1 2 * Q2Qc 1))%Qc (qc 1 1) (log st)
  | _ => False
  end.
Proof.
  open_run (run BDF2 (decay_rate (SingleGrid 0) (qc 1 2) 1 3 (qc 1 1))
              false 3 0) d st E.
  apply (@BDF2_scalar_decay (SingleGrid 0) (qc 1 2) 1 3 (qc 1 1)
           false 3 0 d st); [reflexivity|discriminate|discriminate|exact E].
Defined.

(** X21 on [pb3_bucket]. *)
Lemma CrankNicolson_constructs_on_a_bucket_witness :
  exists st,
    __init__ CrankNicolson pb3_bucket (fresh 0) = Ok (tt, st) /\
    heap st = 0 /\
    (self st self_lhs_flux = Some (qc 1 1) /\
     self st self_rhs_flux = Some (qc 0 1) /\
     self st self_lhs_time = Some (Q2Qc (/ 1)) /\
     self st self_rhs_time = Some (qc 0 1)) /\
    (self st self_lhs_flux_0 = Some (qc 1 1) /\
     self st self_rhs_flux_0 = Some (qc 0 1) /\
     self st self_lhs_time_0 = Some (Q2Qc (/ 1)) /\
     self st self_rhs_time_0 = Some (qc 0 1)) /\
    self st self_p = Some (qc 1 1) /\
    self st self_p0 = Some (qc 1 1) /\
    self st self_data = Some {| physics := []; times := [] |}.
Proof.
  apply (@CrankNicolson_constructs_on_a_bucket linalg collaborators
           pb3_bucket 0 ((qc 1 1, qc 0 1) : @Disc linalg collaborators) []
           ((Q2Qc (/ 1), qc 0 1) : @Disc linalg collaborators) []); reflexivity.
Defined.

(** X22 on the BDF2 run of [pb3], short of fuel. *)
Lemma concrete_runs_raise_nothing_witness :
  run BDF2 pb3 true 2 0 <> Raise AttributeError.
Proof.
  apply (@concrete_runs_raise_nothing linalg collaborators BDF2 pb3 true 2 0
           AttributeError);
    [discriminate|exact pb3_well_formed|intros E; discriminate E].
Defined.

(** X23 at the Implicit instance constructed on [pb3], for [t = 1]: the
    heap holds the time last passed to the hook. *)
Lemma iteration_calls_in_order_witness :
  exists p' st',
    iteration Implicit 1 {| heap := 0; self := self st_implicit; log := [] |}
    = Ok (p', st') /\
    heap st' = 1.
Proof.
  apply (@iteration_calls_in_order linalg collaborators Implicit pb3 1 0
           (self st_implicit) []
           {| store_results := false; verbose := false |}
           {| physics := []; times := [] |} (qc 1 1)
           ((qc 1 1, qc 0 1) : @Disc linalg collaborators) []
           ((Q2Qc (/ 1), qc 0 1) : @Disc linalg collaborators) []);
    try reflexivity; try discriminate.
  constructor; try reflexivity; repeat split; eexists; reflexivity.
Defined.

(** X24 on the BDF2 runs of [pb3]: the terms of the one-degree-of-freedom
    collaborators ignore the store. *)
Lemma store_results_changes_no_solution_witness :
  match run BDF2 pb3 true 3 0, run BDF2 pb3 false 3 0 with
  | Ok (_, st1), Ok (_, st2) =>
      solutions (log st1) = solutions (log st2) /\
      heap st1 = heap st2 /\
      self st1 self_p = self st2 self_p
  | _, _ => False
  end.
Proof.
  open_run (run BDF2 pb3 true 3 0) d1 st1 E1.
  open_run (run BDF2 pb3 false 3 0) d2 st2 E2.
  apply (@store_results_changes_no_solution linalg collaborators BDF2 pb3 3 0
           d1 d2 st1 st2);
    [discriminate|exact pb3_well_formed|right; reflexivity|exact E1|exact E2].
Defined.

End Concrete.
